(** * Resumable enrichment and audit scripts of the camellia dataset

    A shallow embedding of the pipeline code of four scripts

      - [icr_match_audit.py]              (module [IcrMatchAudit])
      - [scripts/enrich_icr_chinese_name.py] (module [EnrichIcr])
      - [image_enrich_strict.py]          (module [ImageEnrich])
      - [acs_audit.py]                    (module [AcsAudit])

    and the properties of their loops, caches, checkpoints and probes.

    Conventions.  Python dictionaries keyed by strings are [gmap string _];
    dictionaries whose iteration order is observable are association lists.
    Network calls are oracles collected in a type class per script; the wall
    clock is an explicit field of the state, counted in milliseconds, and
    every request that leaves the process is appended to a trace held in the
    state.  Python floats are the kernel's binary64 floats.  Code that can
    raise returns a [res]. *)

From Stdlib Require Import ZArith List Bool Lia Floats Ascii String.
From stdpp Require Import base option list gmap strings pretty.

Set Warnings "-inexact-float,-register-all".
Set Default Proof Using "Type".
Local Open Scope Z_scope.

(** ** Python values shared by the scripts *)

(** The exceptions below [Exception] that a probe can meet. *)
Inductive exn_kind := Timeout | Transport | Other.

Record exn := Exn { exn_class : exn_kind; exn_msg : string }.

(** [str(e)]. *)
Definition str_exn (e : exn) : string := exn_msg e.

(** A computation that returns or raises. *)
Inductive res (A : Type) :=
| Ok (a : A)
| Raise (e : exn).
Arguments Ok {A} a.
Arguments Raise {A} e.

(** [try: body  except Exception as e: handler(e)]. *)
Definition try_except {A} (body : res A) (handler : exn -> res A) : res A :=
  match body with
  | Ok a => Ok a
  | Raise e => handler e
  end.

Definition res_bind {A B} (m : res A) (k : A -> res B) : res B :=
  match m with
  | Ok a => k a
  | Raise e => Raise e
  end.

(** Truth value of an optional string: [None] and [""] are falsy. *)
Definition truthy (v : option string) : bool :=
  match v with
  | Some s => negb (String.eqb s "")
  | None => false
  end.

(** [a or b] on optional strings. *)
Definition py_or (a b : option string) : option string :=
  if truthy a then a else b.

(** [dict.fromkeys([a, b])]: the keys in order, the repeat dropped. *)
Definition fromkeys2 (a b : string) : list string :=
  if decide (a = b) then [a] else [a; b].

(** ** icr_match_audit.py *)

Module IcrMatchAudit.

Definition RATE_LIMIT_SECONDS : Z := 8.

(** An entry of [all_candidates]. *)
Record candidate := Candidate {
  scientific_name : string;
  accepted_name : string;
  icr_status : string;
  detail_url : string
}.

(** [{**c, "score": ...}]. *)
Record scored := Scored {
  cand : candidate;
  score : float
}.

Inductive status := exact | fuzzy_match | ambiguous | no_match | error.

(** The dictionary [search_icr] returns; [best_match] carries the four fields
    of the top candidate. *)
Record result := Result {
  input_name : string;
  res_status : status;
  candidates : list scored;
  best_match : option candidate;
  confidence : float;
  queries_tried : list string;
  error_text : option string
}.

(** [a >= b] and [a > b] on floats. *)
Definition fge (a b : float) : bool := PrimFloat.leb b a.
Definition fgt (a b : float) : bool := PrimFloat.ltb b a.

(** [max(a, b)]: the first of the largest. *)
Definition fmax (a b : float) : float := if fgt b a then b else a.

(** [scored.sort(key=lambda x: x["score"], reverse=True)]: descending and
    stable, so an element goes in front of the first one that is not
    greater. *)
Fixpoint insert_desc (x : scored) (l : list scored) : list scored :=
  match l with
  | [] => [x]
  | y :: l' => if fgt (score y) (score x) then y :: insert_desc x l'
               else x :: y :: l'
  end.

Definition sort_desc (l : list scored) : list scored :=
  foldr insert_desc [] l.

(** The tier of the ranked list, lines 167-175. *)
Definition classify (ranked : list scored) (top : scored) : status :=
  if fge (score top) 0.95 then exact
  else if fge (score top) 0.6 then
    if bool_decide (1 < length ranked)%nat
       && from_option (fun s => fge (score s) (score top - 0.05)) false
                      (ranked !! 1%nat)
    then ambiguous
    else fuzzy_match
  else no_match.

Definition has_best (s : status) : bool :=
  match s with
  | exact | fuzzy_match | ambiguous => true
  | _ => false
  end.

(** Lines 165-189: the result built from the ranked list. *)
Definition decide_match (name : string) (tried : list string)
    (ranked : list scored) : option result :=
  match ranked with
  | [] => None
  | top :: _ =>
      let st := classify ranked top in
      Some {| input_name := name;
              res_status := st;
              candidates := take 10 ranked;
              best_match := if has_best st then Some (cand top) else None;
              confidence := score top;
              queries_tried := tried;
              error_text := None |}
  end.

Section Matching.
(** [fuzzy_score] rests on difflib and [round(_, 4)] on the interpreter. *)
Variable fuzzy_score : string -> string -> float.
Variable round4 : float -> float.

Definition score_candidate (name plain : string) (c : candidate) : scored :=
  let s1 := fuzzy_score name (scientific_name c) in
  let s2 := if decide (plain <> name)
            then fuzzy_score plain (scientific_name c) else 0%float in
  {| cand := c; score := round4 (fmax s1 s2) |}.

(** Lines 144-189 of [search_icr]. *)
Definition match_candidates (name plain : string) (tried : list string)
    (all_candidates : list candidate) : result :=
  match all_candidates with
  | [] => {| input_name := name; res_status := no_match; candidates := [];
             best_match := None; confidence := 0%float;
             queries_tried := tried; error_text := None |}
  | _ =>
      let ranked := sort_desc (map (score_candidate name plain) all_candidates) in
      default {| input_name := name; res_status := no_match; candidates := [];
                 best_match := None; confidence := 0%float;
                 queries_tried := tried; error_text := None |}
              (decide_match name tried ranked)
  end.
End Matching.

Section Main.
(** The probe of one name. *)
Variable search_icr : string -> result.

(** What the loop of [main] changes: the [completed] dictionary, the progress
    file as last written, and the names it sent to [search_icr]. *)
Record run := Run {
  completed : gmap string result;
  progress_file : option (gmap string result);
  probed : list string
}.

(** [load_progress] followed by [progress.get("completed", {})]. *)
Definition load_progress (file : option (gmap string result))
  : gmap string result := default ∅ file.

Definition start (file : option (gmap string result)) : run :=
  {| completed := load_progress file; progress_file := file; probed := [] |}.

(** One turn of [for i, name in enumerate(NAMES)]. *)
Definition step (r : run) (name : string) : run :=
  match completed r !! name with
  | Some _ => r
  | None =>
      let c := <[name := search_icr name]> (completed r) in
      {| completed := c; progress_file := Some c;
         probed := probed r ++ [name] |}
  end.

Definition loop (names : list string) (r : run) : run := foldl step r names.

(** [main], up to the final [save_progress]. *)
Definition main (names : list string) (file : option (gmap string result))
  : run :=
  let r := loop names (start file) in
  {| completed := completed r; progress_file := Some (completed r);
     probed := probed r |}.

(** [main] killed after [k] turns of its loop. *)
Definition main_killed (k : nat) (names : list string)
    (file : option (gmap string result)) : run :=
  loop (take k names) (start file).

(** [ordered_results]. *)
Definition ordered_results (names : list string) (r : run) : list result :=
  omap (fun n => completed r !! n) names.
End Main.

End IcrMatchAudit.

(** ** scripts/enrich_icr_chinese_name.py *)

Module EnrichIcr.

Inductive url_status := ok | missing | failed | skipped.

#[global] Instance url_status_eq_dec : EqDecision url_status.
Proof. solve_decision. Defined.

(** The dataclass [UrlResult]. *)
Record UrlResult := mkUrlResult {
  chinese_name : list string;
  status : url_status;
  http_status : option Z;
  error : string;
  fetched_at : string
}.

(** What [session.get] hands back when it does not raise. *)
Record response := Response {
  status_code : Z;
  text : string
}.

(** The collaborators of the script: the HTTP session (its answer and how
    long the call took, in milliseconds, given the URL, the timeout and the
    time of dispatch), the rendering of the clock by [now_iso], and the
    regular-expression text functions. *)
Class Env := {
  session_get : string -> Z -> Z -> res response * N;
  now_iso : Z -> string;
  extract_chinese_names : string -> list string;
  normalize_text : string -> string;
  has_cjk : string -> bool
}.

(** A checkpoint dictionary after the two [setdefault] calls. *)
Record checkpoint := Checkpoint {
  created_at : option string;
  updated_at : option string;
  total_urls : Z;
  next_index : Z;
  last_request_ts : Z
}.

(** A checkpoint file as parsed JSON: keys may be missing. *)
Record cp_json := CpJson {
  j_created_at : option string;
  j_updated_at : option string;
  j_next_index : option Z;
  j_last_request_ts : option Z
}.

(** A path of [cp_paths]: no file, a file that does not parse, a file. *)
Inductive mirror :=
| NoFile
| Unreadable
| File (j : cp_json).

Record args := Args {
  delay : Z;
  timeout : Z;
  max_urls : Z;
  resume : bool
}.

(** A line of the processed and failed logs. *)
Record payload := Payload {
  p_index : Z;
  p_total : Z;
  p_url : string;
  p_result : UrlResult
}.

(** The process and its files.  [requests] and [saves] are traces: the
    dispatch time and URL of every [session.get], and the checkpoint of every
    [save_checkpoints].  [raised] holds the exception that ended the run. *)
Record state := State {
  now : Z;
  requests : list (Z * string);
  saves : list checkpoint;
  mirrors : list mirror;
  cache_file : option (gmap string UrlResult);
  processed_log : list payload;
  failed_log : list payload;
  cp : checkpoint;
  cache : gmap string UrlResult;
  idx : Z;
  processed_this_run : Z;
  raised : option exn
}.

Section Script.
Context `{Env}.

Definition with_next_index (c : checkpoint) (n : Z) : checkpoint :=
  {| created_at := created_at c; updated_at := updated_at c;
     total_urls := total_urls c; next_index := n;
     last_request_ts := last_request_ts c |}.

Definition with_last_request_ts (c : checkpoint) (t : Z) : checkpoint :=
  {| created_at := created_at c; updated_at := updated_at c;
     total_urls := total_urls c; next_index := next_index c;
     last_request_ts := t |}.

Definition with_updated_at (c : checkpoint) (s : string) : checkpoint :=
  {| created_at := created_at c; updated_at := Some s;
     total_urls := total_urls c; next_index := next_index c;
     last_request_ts := last_request_ts c |}.

(** The checkpoint [load_checkpoint] builds when it does not read a file. *)
Definition fresh_checkpoint (t : Z) (total : Z) : checkpoint :=
  {| created_at := Some (now_iso t); updated_at := Some (now_iso t);
     total_urls := total; next_index := 0; last_request_ts := 0 |}.

(** [cp["total_urls"] = total_urls] and the two [setdefault]. *)
Definition of_json (j : cp_json) (total : Z) : checkpoint :=
  {| created_at := j_created_at j; updated_at := j_updated_at j;
     total_urls := total;
     next_index := default 0 (j_next_index j);
     last_request_ts := default 0 (j_last_request_ts j) |}.

Definition to_json (c : checkpoint) : cp_json :=
  {| j_created_at := created_at c; j_updated_at := updated_at c;
     j_next_index := Some (next_index c);
     j_last_request_ts := Some (last_request_ts c) |}.

Definition load_checkpoint (t : Z) (m : mirror) (total : Z) (reset : bool)
  : res checkpoint :=
  match reset, m with
  | false, File j => Ok (of_json j total)
  | false, Unreadable => Raise (Exn Other "JSONDecodeError")
  | _, _ => Ok (fresh_checkpoint t total)
  end.

(** The candidates gathered by the loop of [load_best_checkpoint]. *)
Definition readable (total : Z) (m : mirror) : option checkpoint :=
  match m with
  | File j => Some (of_json j total)
  | _ => None
  end.

(** [key(cp)]. *)
Definition key (c : checkpoint) : Z * string :=
  (next_index c, default "" (updated_at c)).

(** [<] on the key tuples. *)
Definition key_lt (a b : Z * string) : bool :=
  (a.1 <? b.1) || ((a.1 =? b.1) && String.ltb a.2 b.2).

(** [max(candidates, key=key)]: the first of the largest. *)
Definition max_by_key (c : checkpoint) (cs : list checkpoint) : checkpoint :=
  foldl (fun best x => if key_lt (key best) (key x) then x else best) c cs.

Definition load_best_checkpoint (t : Z) (paths : list mirror) (total : Z)
    (reset : bool) : res checkpoint :=
  match paths with
  | [] => Raise (Exn Other "IndexError")
  | p0 :: _ =>
      if reset then load_checkpoint t p0 total true
      else
        match omap (readable total) paths with
        | [] => load_checkpoint t p0 total true
        | c :: cs => Ok (max_by_key c cs)
        end
  end.

(** [save_checkpoints]: stamp, then write every mirror. *)
Definition save_checkpoints (st : state) (c : checkpoint) : state :=
  let c' := with_updated_at c (now_iso (now st)) in
  {| now := now st; requests := requests st; saves := saves st ++ [c'];
     mirrors := map (fun _ => File (to_json c')) (mirrors st);
     cache_file := cache_file st; processed_log := processed_log st;
     failed_log := failed_log st; cp := c'; cache := cache st;
     idx := idx st; processed_this_run := processed_this_run st;
     raised := raised st |}.

(** The names the loader keeps from a stored list. *)
Definition reload_names (raw : list string) : list string :=
  foldl (fun acc n =>
           let n' := normalize_text n in
           if negb (String.eqb n' "") && has_cjk n' && bool_decide (n' ∉ acc)
           then acc ++ [n'] else acc) [] raw.

Definition reload_result (r : UrlResult) : UrlResult :=
  {| chinese_name := reload_names (chinese_name r); status := status r;
     http_status := http_status r; error := error r;
     fetched_at := fetched_at r |}.

Definition load_url_cache (file : option (gmap string UrlResult))
    (reset : bool) : gmap string UrlResult :=
  match reset, file with
  | false, Some raw => reload_result <$> raw
  | _, _ => ∅
  end.

(** [fetch_one]: the request leaves at [t]; the call returns [d] later. *)
Definition fetch_one (url : string) (tmo : Z) (t : Z) : res UrlResult * N :=
  let '(r, d) := session_get url tmo t in
  let t' := t + Z.of_N d in
  (try_except
     (res_bind r (fun resp =>
        if decide (status_code resp <> 200)
        then Ok (mkUrlResult [] failed (Some (status_code resp))
                   ("HTTP " +:+ pretty (status_code resp)) (now_iso t'))
        else
          let names := extract_chinese_names (text resp) in
          if bool_decide (names <> [])
          then Ok (mkUrlResult names ok (Some (status_code resp)) "" (now_iso t'))
          else Ok (mkUrlResult [] missing (Some (status_code resp)) ""
                     (now_iso t'))))
     (fun e => Ok (mkUrlResult [] failed None (str_exn e) (now_iso t'))),
   d).

(** Lines 411-420: log the unit, advance the cursor, save. *)
Definition finish_unit (total : Z) (url : string) (result : UrlResult)
    (st : state) : state :=
  let pl := {| p_index := idx st; p_total := total; p_url := url;
               p_result := result |} in
  let i' := idx st + 1 in
  let st1 :=
    {| now := now st; requests := requests st; saves := saves st;
       mirrors := mirrors st; cache_file := cache_file st;
       processed_log := processed_log st ++ [pl];
       failed_log := if decide (status result = failed)
                     then failed_log st ++ [pl] else failed_log st;
       cp := cp st; cache := cache st; idx := i';
       processed_this_run := processed_this_run st + 1;
       raised := raised st |} in
  let st2 := save_checkpoints st1 (with_next_index (cp st1) i') in
  {| now := now st2; requests := requests st2; saves := saves st2;
     mirrors := mirrors st2; cache_file := Some (cache st2);
     processed_log := processed_log st2; failed_log := failed_log st2;
     cp := cp st2; cache := cache st2; idx := idx st2;
     processed_this_run := processed_this_run st2; raised := raised st2 |}.

(** Lines 400-420: one turn of the [while] loop. *)
Definition body (a : args) (total : Z) (url : string) (st : state) : state :=
  match cache st !! url with
  | Some result => finish_unit total url result st
  | None =>
      let elapsed := now st - last_request_ts (cp st) in
      let t := if elapsed <? delay a then now st + (delay a - elapsed)
               else now st in
      let '(r, d) := fetch_one url (timeout a) t in
      let t' := t + Z.of_N d in
      match r with
      | Raise e =>
          {| now := t'; requests := requests st ++ [(t, url)];
             saves := saves st; mirrors := mirrors st;
             cache_file := cache_file st; processed_log := processed_log st;
             failed_log := failed_log st; cp := cp st; cache := cache st;
             idx := idx st; processed_this_run := processed_this_run st;
             raised := Some e |}
      | Ok result =>
          finish_unit total url result
            {| now := t'; requests := requests st ++ [(t, url)];
               saves := saves st; mirrors := mirrors st;
               cache_file := cache_file st;
               processed_log := processed_log st;
               failed_log := failed_log st;
               cp := with_last_request_ts (cp st) t';
               cache := <[url := result]> (cache st);
               idx := idx st; processed_this_run := processed_this_run st;
               raised := raised st |}
      end
  end.

(** [limit is not None and processed_this_run >= limit]. *)
Definition limit_reached (a : args) (st : state) : bool :=
  (0 <? max_urls a) && (max_urls a <=? processed_this_run st).

(** [while i < total], over the URLs from [urls[i]] on. *)
Fixpoint loop (a : args) (total : Z) (rest : list string) (st : state)
  : state :=
  match rest with
  | [] => st
  | url :: rest' =>
      if limit_reached a st || bool_decide (is_Some (raised st)) then st
      else loop a total rest' (body a total url st)
  end.

(** [max(0, min(i, total))]. *)
Definition clamp (i total : Z) : Z := Z.max 0 (Z.min i total).

(** Lines 369-387 of [main]: load, save, then settle the cursor.  The state
    handed in supplies the clock and the files. *)
Definition prepare (a : args) (urls : list string) (st : state) : state :=
  let total := Z.of_nat (length urls) in
  let reset := negb (resume a) in
  match load_best_checkpoint (now st) (mirrors st) total reset with
  | Raise e =>
      {| now := now st; requests := requests st; saves := saves st;
         mirrors := mirrors st; cache_file := cache_file st;
         processed_log := processed_log st; failed_log := failed_log st;
         cp := cp st; cache := cache st; idx := idx st;
         processed_this_run := 0; raised := Some e |}
  | Ok c0 =>
      let c1 := if reset then with_next_index c0 0 else c0 in
      let st1 := save_checkpoints
        {| now := now st; requests := requests st; saves := saves st;
           mirrors := mirrors st; cache_file := cache_file st;
           processed_log := processed_log st; failed_log := failed_log st;
           cp := c1; cache := load_url_cache (cache_file st) reset;
           idx := 0; processed_this_run := 0; raised := None |} c1 in
      let c2 := if resume a
                then with_next_index (cp st1) (clamp (next_index (cp st1)) total)
                else cp st1 in
      {| now := now st1; requests := requests st1; saves := saves st1;
         mirrors := mirrors st1; cache_file := cache_file st1;
         processed_log := processed_log st1; failed_log := failed_log st1;
         cp := c2; cache := cache st1; idx := next_index c2;
         processed_this_run := 0; raised := None |}
  end.

(** [main] up to the end of its loop. *)
Definition main (a : args) (urls : list string) (st : state) : state :=
  let st0 := prepare a urls st in
  loop a (Z.of_nat (length urls)) (drop (Z.to_nat (idx st0)) urls) st0.

(** [main] killed after [n] turns of its loop. *)
Definition main_killed (n : nat) (a : args) (urls : list string) (st : state)
  : state :=
  let st0 := prepare a urls st in
  loop a (Z.of_nat (length urls))
       (take n (drop (Z.to_nat (idx st0)) urls)) st0.

(** A machine about to start the script: the clock and the files. *)
Definition boot (t : Z) (ms : list mirror)
    (cf : option (gmap string UrlResult)) : state :=
  {| now := t; requests := []; saves := []; mirrors := ms; cache_file := cf;
     processed_log := []; failed_log := [];
     cp := fresh_checkpoint t 0; cache := ∅; idx := 0;
     processed_this_run := 0; raised := None |}.

(** The next process on the same machine: files and clock stay, the
    variables and traces of the process start anew. *)
Definition reboot (st : state) : state :=
  boot (now st) (mirrors st) (cache_file st).

End Script.
End EnrichIcr.

(** ** image_enrich_strict.py *)

Module ImageEnrich.

Definition SOCAL_BASE : string :=
  "https://www.atlanticcoastcamelliasociety.org/Camelliae%20Floris%20Bibliotheca/images/".
Definition ACCS_BASE_IMG : string :=
  "https://www.atlanticcoastcamelliasociety.org/Camelliae%20Floris%20Bibliotheca/".

(** [ICR_DELAY = 8.0], in milliseconds. *)
Definition ICR_DELAY : Z := 8000.

(** *** Strings.  Names are read as ASCII text. *)

Definition is_upper (c : ascii) : bool :=
  let n := nat_of_ascii c in ((65 <=? n) && (n <=? 90))%nat.

Definition is_lower (c : ascii) : bool :=
  let n := nat_of_ascii c in ((97 <=? n) && (n <=? 122))%nat.

Definition is_digit (c : ascii) : bool :=
  let n := nat_of_ascii c in ((48 <=? n) && (n <=? 57))%nat.

(** [\w]. *)
Definition is_word (c : ascii) : bool :=
  is_upper c || is_lower c || is_digit c || Ascii.eqb c "_".

Definition is_space (c : ascii) : bool :=
  let n := nat_of_ascii c in ((9 <=? n) && (n <=? 13) || (n =? 32))%nat.

Definition lower_char (c : ascii) : ascii :=
  if is_upper c then ascii_of_nat (nat_of_ascii c + 32) else c.

(** [s.lower()]. *)
Fixpoint lower (s : string) : string :=
  match s with
  | EmptyString => EmptyString
  | String c s' => String (lower_char c) (lower s')
  end.

Fixpoint lstrip (s : string) : string :=
  match s with
  | EmptyString => EmptyString
  | String c s' => if is_space c then lstrip s' else s
  end.

(** [s.rstrip()]: a blank goes when nothing but blanks follows. *)
Fixpoint rstrip (s : string) : string :=
  match s with
  | EmptyString => EmptyString
  | String c s' =>
      match rstrip s' with
      | EmptyString => if is_space c then EmptyString else String c EmptyString
      | t => String c t
      end
  end.

(** [s.strip()]. *)
Definition strip (s : string) : string := rstrip (lstrip s).

(** Whether a [\b] stands before [s], a word character being on its left. *)
Definition boundary_before (s : string) : bool :=
  match s with
  | EmptyString => true
  | String c _ => negb (is_word c)
  end.

(** [re.sub(r"'([A-Z])\b", lambda m: "'" + m.group(1).lower(), name)]. *)
Fixpoint normalize_name (s : string) : string :=
  match s with
  | EmptyString => EmptyString
  | String a s' =>
      match s' with
      | String c rest =>
          if Ascii.eqb a "'" && is_upper c && boundary_before rest
          then String a (String (lower_char c) (normalize_name rest))
          else String a (normalize_name s')
      | EmptyString => String a EmptyString
      end
  end.

(** *** The collaborators *)

Record photo := Photo {
  is_default_photo : bool;
  image_url : string
}.

(** An answer of the ICR API: the HTTP status, and the [data] list when the
    body could be read. *)
Record icr_response := IcrResponse {
  icr_http_status : Z;
  icr_data : res (list photo)
}.

Inductive source := Socal | Accs | Acs | Icr.

#[global] Instance source_eq_dec : EqDecision source.
Proof. solve_decision. Defined.

(** A request that left the process. *)
Record event := Event {
  sent_at : Z;
  sent_to : source;
  sent_for : string
}.

(** The cache and index files as parsed (a missing file is the empty list),
    and the four sites: each answers, or raises, for a query sent at a time,
    and takes so many milliseconds.  [acs_page] stands for the fetch of an
    encyclopedia page and the scan for its first image that is no
    decoration. *)
Class Env := {
  socal_cache_file : list (string * option string);
  icr_cache_file : list (string * option string);
  acs_index_file : list (string * string);
  quote : string -> string;
  socal_head : string -> Z -> res Z * N;
  accs_search : string -> Z -> res (list (string * string)) * N;
  acs_page : string -> Z -> res (option string) * N;
  icr_api : string -> Z -> res icr_response * N
}.

(** The clock, the module variable [_last_icr_time], and the requests sent. *)
Record world := World {
  now : Z;
  last_icr_time : Z;
  trace : list event
}.

(** What a strategy returns: [(img_url, source)]. *)
Definition presult : Type := option string * option string.

(** The loop of [load_socal_cache] and of [load_icr_cache]. *)
Definition load_cache (raw : list (string * option string))
  : gmap string (option string) :=
  foldl (fun m kv => <[strip (lower kv.1) := kv.2]> m) ∅ raw.

(** [cache.get(k)]. *)
Definition cache_get (cache : gmap string (option string)) (k : string)
  : option string := mjoin (cache !! k).

(** [cache.get(norm.lower().strip()) or cache.get(name.lower().strip())]. *)
Definition cached_for (cache : gmap string (option string)) (name : string)
  : option string :=
  py_or (cache_get cache (strip (lower (normalize_name name))))
        (cache_get cache (strip (lower name))).

(** A request of duration [d] sent now. *)
Definition send (w : world) (to : source) (q : string) (d : N) : world :=
  {| now := now w + Z.of_N d; last_icr_time := last_icr_time w;
     trace := trace w ++ [Event (now w) to q] |}.

(** [time.sleep(d)]. *)
Definition sleep (w : world) (d : Z) : world :=
  {| now := now w + d; last_icr_time := last_icr_time w; trace := trace w |}.

(** [_last_icr_time = time.time()]. *)
Definition stamp_icr (w : world) : world :=
  {| now := now w; last_icr_time := now w; trace := trace w |}.

Section Strategies.
Context `{Env}.

Definition load_socal_cache : gmap string (option string) :=
  load_cache socal_cache_file.

Definition load_icr_cache : gmap string (option string) :=
  load_cache icr_cache_file.

(** The [for try_name in ...] loop of [try_socal]. *)
Fixpoint socal_live (names : list string) (w : world) : presult * world :=
  match names with
  | [] => ((None, None), w)
  | try_name :: rest =>
      let url := SOCAL_BASE +:+ quote (try_name +:+ ".jpg") in
      let '(r, d) := socal_head url (now w) in
      let w' := send w Socal url d in
      match r with
      | Ok 200 => ((Some url, Some "socal"), w')
      | _ => socal_live rest w'
      end
  end.

Definition try_socal (name : string) (w : world) : presult * world :=
  let cached := cached_for load_socal_cache name in
  if truthy cached then ((cached, Some "socal"), w)
  else socal_live (fromkeys2 (normalize_name name) name) w.

(** [src.replace(" ", "%20")]. *)
Fixpoint escape_spaces (s : string) : string :=
  match s with
  | EmptyString => EmptyString
  | String c s' =>
      if Ascii.eqb c " " then "%20" +:+ escape_spaces s'
      else String c (escape_spaces s')
  end.

Fixpoint try_accs_names (names : list string) (w : world) : presult * world :=
  match names with
  | [] => ((None, None), w)
  | try_name :: rest =>
      let '(r, d) := accs_search try_name (now w) in
      let w' := send w Accs try_name d in
      match r with
      | Raise _ => try_accs_names rest w'
      | Ok [] => try_accs_names rest w'
      | Ok imgs =>
          match find (fun sa => String.eqb (strip (lower sa.2))
                                           (strip (lower try_name))) imgs with
          | Some sa => ((Some (ACCS_BASE_IMG +:+ escape_spaces sa.1),
                         Some "accs"), w')
          | None => ((Some "AMBIGUOUS", None), w')
          end
      end
  end.

Definition try_accs_search (name : string) (w : world) : presult * world :=
  try_accs_names (fromkeys2 (normalize_name name) name) w.

(** [load_acs_index], the page URL of each key. *)
Definition load_acs_index : gmap string string :=
  foldl (fun m kv => <[strip (lower kv.1) := kv.2]> m) ∅ acs_index_file.

Definition try_acs (name : string) (w : world) : presult * world :=
  let idx := load_acs_index in
  let k1 := strip (lower (normalize_name name)) in
  let k2 := strip (lower name) in
  match (if bool_decide (is_Some (idx !! k1)) then idx !! k1 else idx !! k2) with
  | None => ((None, None), w)
  | Some page_url =>
      let '(r, d) := acs_page page_url (now w) in
      let w' := send w Acs page_url d in
      match r with
      | Ok (Some full_url) => ((Some full_url, Some "acs"), w')
      | _ => ((None, None), w')
      end
  end.

(** The [for try_name in ...] loop of [try_icr]. *)
Fixpoint icr_live (names : list string) (w : world) : presult * world :=
  match names with
  | [] => ((None, None), w)
  | try_name :: rest =>
      let w0 := stamp_icr w in
      let '(r, d) := icr_api try_name (now w0) in
      let w' := send w0 Icr try_name d in
      match r with
      | Raise _ => icr_live rest w'
      | Ok resp =>
          if bool_decide (icr_http_status resp = 403)
             || bool_decide (icr_http_status resp = 429)
          then ((None, None), w')
          else
            match icr_data resp with
            | Raise _ => icr_live rest w'
            | Ok [] => icr_live rest w'
            | Ok (p0 :: ps) =>
                let dflt := default p0 (find is_default_photo (p0 :: ps)) in
                if negb (String.eqb (image_url dflt) "")
                then ((Some (image_url dflt), Some "icr"), w')
                else icr_live rest w'
            end
      end
  end.

Definition try_icr (name : string) (w : world) : presult * world :=
  let cached := cached_for load_icr_cache name in
  if truthy cached then ((cached, Some "icr"), w)
  else
    let elapsed := now w - last_icr_time w in
    let w1 := if elapsed <? ICR_DELAY then sleep w (ICR_DELAY - elapsed)
              else w in
    icr_live (fromkeys2 (normalize_name name) name) w1.
End Strategies.

(** *** The loop of [main] *)

(** A value of the [progress] dictionary. *)
Inductive entry :=
| Found (image : string) (source : option string)
| Ambiguous (reason : string)
| Missing.

Inductive strategy := S_socal | S_accs | S_acs | S_icr.

Section Chain.
(** The chain, over any four strategies acting on any world. *)
Context {W : Type}.
Variables socal accs acs icr : string -> W -> presult * W.

(** [calls] lists the strategies [main] called, in order; the counters of the
    summary are left out. *)
Record run := Run {
  progress : gmap string entry;
  progress_file : option (gmap string entry);
  added : list (string * string * option string);
  skipped_ambiguous : list (string * string);
  missing : list string;
  calls : list (strategy * string);
  outside : W
}.

(** A branch that found an image: lines 374-379 and their three copies. *)
Definition record_found (name : string) (img : option string)
    (src : option string) (cs : list (strategy * string)) (w : W) (r : run)
  : run :=
  let p := <[name := Found (default "" img) src]> (progress r) in
  {| progress := p; progress_file := Some p;
     added := added r ++ [(name, default "" img, src)];
     skipped_ambiguous := skipped_ambiguous r; missing := missing r;
     calls := calls r ++ cs; outside := w |}.

Definition record_ambiguous (name : string) (cs : list (strategy * string))
    (w : W) (r : run) : run :=
  let p := <[name := Ambiguous "ambiguous ACCS match"]> (progress r) in
  {| progress := p; progress_file := Some p; added := added r;
     skipped_ambiguous :=
       skipped_ambiguous r ++ [(name, "ambiguous ACCS match")];
     missing := missing r; calls := calls r ++ cs; outside := w |}.

Definition record_missing (name : string) (cs : list (strategy * string))
    (w : W) (r : run) : run :=
  let p := <[name := Missing]> (progress r) in
  {| progress := p; progress_file := Some p; added := added r;
     skipped_ambiguous := skipped_ambiguous r;
     missing := missing r ++ [name]; calls := calls r ++ cs; outside := w |}.

(** Lines 369-423: a name that is not in [progress]. *)
Definition live (name : string) (r : run) : run :=
  let '((img1, src1), w1) := socal name (outside r) in
  if truthy img1 then record_found name img1 src1 [(S_socal, name)] w1 r
  else
    let '((img2, src2), w2) := accs name w1 in
    if bool_decide (img2 = Some "AMBIGUOUS")
    then record_ambiguous name [(S_socal, name); (S_accs, name)] w2 r
    else if truthy img2
    then record_found name img2 src2 [(S_socal, name); (S_accs, name)] w2 r
    else
      let '((img3, src3), w3) := acs name w2 in
      if truthy img3
      then record_found name img3 src3
             [(S_socal, name); (S_accs, name); (S_acs, name)] w3 r
      else
        let '((img4, src4), w4) := icr name w3 in
        if truthy img4
        then record_found name img4 src4
               [(S_socal, name); (S_accs, name); (S_acs, name); (S_icr, name)]
               w4 r
        else record_missing name
               [(S_socal, name); (S_accs, name); (S_acs, name); (S_icr, name)]
               w4 r.

(** Lines 356-367: a name that is in [progress]. *)
Definition replay (name : string) (e : entry) (r : run) : run :=
  match e with
  | Found image src =>
      {| progress := progress r; progress_file := progress_file r;
         added := added r ++ [(name, image, src)];
         skipped_ambiguous := skipped_ambiguous r; missing := missing r;
         calls := calls r; outside := outside r |}
  | Ambiguous reason =>
      {| progress := progress r; progress_file := progress_file r;
         added := added r;
         skipped_ambiguous := skipped_ambiguous r ++ [(name, reason)];
         missing := missing r; calls := calls r; outside := outside r |}
  | Missing =>
      {| progress := progress r; progress_file := progress_file r;
         added := added r; skipped_ambiguous := skipped_ambiguous r;
         missing := missing r ++ [name]; calls := calls r;
         outside := outside r |}
  end.

(** One turn of [for i, entry in enumerate(entries)]. *)
Definition step (r : run) (entry_name : string) : run :=
  let name := strip entry_name in
  match progress r !! name with
  | Some e => replay name e r
  | None => live name r
  end.

Definition loop (entries : list string) (r : run) : run :=
  foldl step r entries.

Definition start (file : option (gmap string entry)) (w : W) : run :=
  {| progress := default ∅ file; progress_file := file; added := [];
     skipped_ambiguous := []; missing := []; calls := []; outside := w |}.
End Chain.

(** [main], with the four strategies of the script. *)
Definition main `{Env} (entries : list string)
    (file : option (gmap string entry)) (w : world) : run :=
  loop try_socal try_accs_search try_acs try_icr entries (start file w).

End ImageEnrich.

(** ** acs_audit.py *)

Module AcsAudit.

Definition TIMEOUT : Z := 15.

(** What [session.get] yields when it does not raise: the status, the
    [Content-Length] header if any, and the length of the body if it has to
    be read, which can raise in turn. *)
Record reply := Reply {
  reply_status : Z;
  reply_content_length : option Z;
  reply_read : res Z
}.

(** The dictionary [check_url] returns. *)
Record check := Check {
  chk_status : option Z;
  chk_content_length : Z;
  chk_valid : bool;
  chk_error : option string
}.

(** [check_url], the session being a function of the URL; the three
    [except] clauses are tried in order. *)
Definition check_url (session_get : string -> res reply) (url : string)
  : res check :=
  try_except
    (res_bind (session_get url) (fun resp =>
       res_bind (match reply_content_length resp with
                 | Some n => Ok n
                 | None => reply_read resp
                 end) (fun n =>
         Ok {| chk_status := Some (reply_status resp);
               chk_content_length := n;
               chk_valid := bool_decide (reply_status resp = 200)
                            && bool_decide (0 < n);
               chk_error := None |})))
    (fun e =>
       match exn_class e with
       | Timeout => Ok {| chk_status := None; chk_content_length := 0;
                          chk_valid := false; chk_error := Some "timeout" |}
       | Transport => Ok {| chk_status := None; chk_content_length := 0;
                            chk_valid := false;
                            chk_error := Some (str_exn e) |}
       | Other => Ok {| chk_status := None; chk_content_length := 0;
                        chk_valid := false; chk_error := Some (str_exn e) |}
       end).

(** JSON values of the dataset. *)
Inductive json :=
| JNull
| JBool (b : bool)
| JNum (n : Z)
| JStr (s : string)
| JArr (l : list json).

(** An entry of [camellias.json]: its name, and every other key. *)
Record entry := Entry {
  name : string;
  fields : gmap string json
}.

Inductive action := act_ok | needs_fix.

#[global] Instance action_eq_dec : EqDecision action.
Proof. solve_decision. Defined.

(** A value of [audit_results]. *)
Record audit := Audit {
  a_status : option Z;
  a_error : option string;
  a_valid : bool;
  a_index : nat;
  a_original_url : string;
  a_action : action
}.

(** A value of [recovery_results]. *)
Record recovery := Recovery {
  recovered : bool;
  new_url : string;
  method : string
}.

Record fixed_row := FixedRow {
  f_name : string;
  f_old_url : string;
  f_new_url : string;
  f_method : string
}.

Record cleared_row := ClearedRow {
  c_name : string;
  c_old_url : string;
  c_error : option string;
  c_http_status : option Z
}.

(** [{e["name"]: i for i, e in enumerate(data)}]: a later entry of the same
    name takes the key. *)
Definition name_to_idx (data : list entry) : gmap string nat :=
  foldl (fun m ie => <[name ie.2 := ie.1]> m) ∅ (imap pair data).

(** [data[idx]["acs_url"] = v]. *)
Definition set_acs_url (v : json) (e : entry) : entry :=
  {| name := name e; fields := <["acs_url" := v]> (fields e) |}.

(** The three values [apply_fixes] builds. *)
Record fixes := Fixes {
  data_out : list entry;
  fixed : list fixed_row;
  cleared : list cleared_row
}.

(** One turn of [for name, audit in audit_results.items()]. *)
Definition fix_one (n2i : gmap string nat) (recs : gmap string recovery)
    (acc : fixes) (na : string * audit) : fixes :=
  let '(nm, a) := na in
  if decide (a_action a <> needs_fix) then acc
  else
    match n2i !! nm with
    | None => acc
    | Some idx =>
        match recs !! nm with
        | Some rec =>
            if recovered rec
            then {| data_out := alter (set_acs_url (JStr (new_url rec))) idx
                                      (data_out acc);
                    fixed := fixed acc ++
                      [FixedRow nm (a_original_url a) (new_url rec)
                                (method rec)];
                    cleared := cleared acc |}
            else {| data_out := alter (set_acs_url JNull) idx (data_out acc);
                    fixed := fixed acc;
                    cleared := cleared acc ++
                      [ClearedRow nm (a_original_url a) (a_error a)
                                  (a_status a)] |}
        | None =>
            {| data_out := alter (set_acs_url JNull) idx (data_out acc);
               fixed := fixed acc;
               cleared := cleared acc ++
                 [ClearedRow nm (a_original_url a) (a_error a) (a_status a)] |}
        end
    end.

(** [apply_fixes]; [audit_results] in the order of its keys. *)
Definition apply_fixes (data : list entry) (audit_results : list (string * audit))
    (recovery_results : gmap string recovery) : fixes :=
  foldl (fix_one (name_to_idx data) recovery_results)
        {| data_out := data; fixed := []; cleared := [] |} audit_results.

(** [audit_results[name]] for a dictionary given by its items. *)
Definition audit_of (audit_results : list (string * audit)) (nm : string)
  : option audit :=
  snd <$> find (fun na => String.eqb na.1 nm) audit_results.

End AcsAudit.

(** ** acs_audit.py: slugs *)

Module AcsSlug.
Import ImageEnrich.

Definition ACS_BASE : string :=
  "https://www.americancamellias.com/education-and-camellia-care/acs-camellia-encyclopedia".

(** [[a-z0-9]]. *)
Definition is_slug_char (c : ascii) : bool := is_lower c || is_digit c.

Definition is_dash (c : ascii) : bool := Ascii.eqb c "-".

(** [s.replace("'", "")]. *)
Fixpoint remove_quotes (s : string) : string :=
  match s with
  | EmptyString => EmptyString
  | String c s' =>
      if Ascii.eqb c "'" then remove_quotes s' else String c (remove_quotes s')
  end.

(** [re.sub(r"[class]+", "-", s)]: every maximal run of characters of the
    class becomes one hyphen; [in_run] tells that the run has begun. *)
Fixpoint sub_runs (class : ascii -> bool) (in_run : bool) (s : string)
  : string :=
  match s with
  | EmptyString => EmptyString
  | String c s' =>
      if class c
      then if in_run then sub_runs class true s'
           else String "-" (sub_runs class true s')
      else String c (sub_runs class false s')
  end.

Fixpoint lstrip_dash (s : string) : string :=
  match s with
  | EmptyString => EmptyString
  | String c s' => if is_dash c then lstrip_dash s' else s
  end.

Fixpoint rstrip_dash (s : string) : string :=
  match s with
  | EmptyString => EmptyString
  | String c s' =>
      match rstrip_dash s' with
      | EmptyString => if is_dash c then EmptyString else String c EmptyString
      | t => String c t
      end
  end.

(** [s.strip("-")]. *)
Definition strip_dash (s : string) : string := rstrip_dash (lstrip_dash s).

(** The slug before the last substitution, lines 39-42. *)
Definition stripped_slug (name : string) : string :=
  strip_dash
    (sub_runs (fun c => negb (is_slug_char c)) false
       (remove_quotes (lower name))).

(** [name_to_slug]. *)
Definition name_to_slug (name : string) : string :=
  sub_runs is_dash false (stripped_slug name).

(** [name_to_acs_url]; [name[0]] raises on the empty name. *)
Definition name_to_acs_url (name : string) : res string :=
  match name with
  | EmptyString => Raise (Exn Other "string index out of range")
  | String c _ =>
      Ok (ACS_BASE +:+ "/camellias-beginning-with-"
            +:+ String (lower_char c) EmptyString
            +:+ "/" +:+ name_to_slug name)
  end.

End AcsSlug.

(** ** acs_audit.py: the reports *)

Module AcsReport.
Import AcsAudit.

Inductive report_file :=
| acs_audit_full_json
| acs_audit_fixed_json
| acs_audit_cleared_json
| acs_audit_summary_txt.

(** [100*a/b] on integers: the quotient is kept as numerator and
    denominator, its rendering with one decimal is left out. *)
Definition percent (a b : Z) : res (Z * Z) :=
  if b =? 0 then Raise (Exn Other "division by zero") else Ok (100 * a, b).

(** The numbers of the summary text. *)
Record summary := Summary {
  s_total : Z;
  s_valid : Z;
  s_broken : Z;
  s_recovered : Z;
  s_removed : Z;
  s_recovery_rate : Z * Z;
  s_overall_health : Z * Z;
  s_post_fix_health : Z * Z
}.

(** [generate_reports]: the files written, and the summary or the exception
    raised while the summary text is built.  [audit_results] is given by its
    items. *)
Definition generate_reports (audit_results : list (string * audit))
    (fixed : list fixed_row) (cleared : list cleared_row)
  : list report_file * res summary :=
  let written :=
    [acs_audit_full_json; acs_audit_fixed_json; acs_audit_cleared_json] in
  let total := Z.of_nat (length audit_results) in
  let valid :=
    Z.of_nat (length (filter (fun na => a_valid na.2 = true) audit_results)) in
  let broken := total - valid in
  let recovered := Z.of_nat (length fixed) in
  let removed := Z.of_nat (length cleared) in
  let text :=
    res_bind (percent recovered broken) (fun rate =>
    res_bind (percent valid total) (fun health =>
    res_bind (percent (valid + recovered) total) (fun post =>
      Ok {| s_total := total; s_valid := valid; s_broken := broken;
            s_recovered := recovered; s_removed := removed;
            s_recovery_rate := rate; s_overall_health := health;
            s_post_fix_health := post |}))) in
  match text with
  | Ok s => (written ++ [acs_audit_summary_txt], Ok s)
  | Raise e => (written, Raise e)
  end.

End AcsReport.

(** ** acs_audit.py: the artifacts *)

Module AcsSync.
Import AcsAudit.

(** An element of [index.json]. *)
Record index_row := IndexRow {
  ix_name : string;
  ix_species : json;
  ix_chinese_name : json;
  ix_japanese_name : json
}.

Definition index_of (e : entry) : index_row :=
  {| ix_name := name e;
     ix_species := default JNull (fields e !! "species");
     ix_chinese_name := default (JArr []) (fields e !! "chinese_name");
     ix_japanese_name := default (JArr []) (fields e !! "japanese_name") |}.

(** The files [sync_artifacts] writes: [camellias.json] first, then the
    letter files, each under its letter, and [index.json] when the grouping
    did not raise. *)
Record artifacts := Artifacts {
  camellias_json : list entry;
  letter_files : gmap string (list entry);
  index_json : option (list index_row)
}.

Section Letters.
(** [s[0]], the first character of a non-empty string, and [str.upper];
    both read the string as Unicode text. *)
Variable first_char : string -> string.
Variable upper : string -> string.

(** [entry["name"][0].upper()]; the index raises on the empty name. *)
Definition letter_of (e : entry) : res string :=
  match name e with
  | EmptyString => Raise (Exn Other "string index out of range")
  | _ => Ok (upper (first_char (name e)))
  end.

(** The loop that fills [by_letter]. *)
Fixpoint group (by_letter : gmap string (list entry)) (data : list entry)
  : res (gmap string (list entry)) :=
  match data with
  | [] => Ok by_letter
  | e :: rest =>
      res_bind (letter_of e) (fun c =>
        group (<[c := default [] (by_letter !! c) ++ [e]]> by_letter) rest)
  end.

Definition sync_artifacts (data : list entry) : artifacts * option exn :=
  match group ∅ data with
  | Raise e =>
      ({| camellias_json := data; letter_files := ∅; index_json := None |},
       Some e)
  | Ok by_letter =>
      ({| camellias_json := data; letter_files := by_letter;
          index_json := Some (index_of <$> data) |}, None)
  end.
End Letters.

End AcsSync.

(** ** enrich_icr_chinese_name.py: the URLs and the summary *)

Module EnrichSummary.
Import EnrichIcr.

(** A record of the dataset, as far as the script reads it: [icr_url] when
    it is a string. *)
Record dataset_record := DatasetRecord {
  icr_url : option string
}.

Section Collect.
(** [str.strip] and [valid_icr_url], which rests on [urlparse]. *)
Variable strip : string -> string.
Variable valid_icr_url : string -> bool.

(** One turn of the loop of [collect_unique_icr_urls]. *)
Definition collect_step (urls : list string) (r : dataset_record)
  : list string :=
  match icr_url r with
  | Some u =>
      let u := strip u in
      if negb (String.eqb u "") && valid_icr_url u && bool_decide (u ∉ urls)
      then urls ++ [u] else urls
  | None => urls
  end.

(** [collect_unique_icr_urls]; [seen] holds what [urls] holds. *)
Definition collect_unique_icr_urls (records : list dataset_record)
  : list string :=
  foldl collect_step [] records.
End Collect.

(** [sum(1 for r in cache.values() if p(r))]. *)
Definition count (p : UrlResult -> bool) (c : gmap string UrlResult) : Z :=
  Z.of_nat (length (filter (fun kr => p kr.2 = true) (map_to_list c))).

Definition is_found (r : UrlResult) : bool :=
  bool_decide (chinese_name r <> []).

Definition is_failed (r : UrlResult) : bool :=
  bool_decide (status r = failed).

Definition is_missing (r : UrlResult) : bool :=
  (bool_decide (status r = ok) || bool_decide (status r = missing))
  && bool_decide (chinese_name r = []).

(** The summary of lines 436-449, without the time stamp and the list of
    updated files. *)
Record summary := Summary {
  total_unique_icr_urls : Z;
  processed_unique_icr_urls : Z;
  found_urls_with_chinese_names : Z;
  missing_urls : Z;
  failed_urls : Z;
  summary_next_index : Z
}.

(** What [main] reports once its loop has ended. *)
Definition summarize (urls : list string) (st : state) : res summary :=
  match raised st with
  | Some e => Raise e
  | None =>
      Ok {| total_unique_icr_urls := Z.of_nat (length urls);
            processed_unique_icr_urls := Z.of_nat (size (cache st));
            found_urls_with_chinese_names := count is_found (cache st);
            missing_urls := count is_missing (cache st);
            failed_urls := count is_failed (cache st);
            summary_next_index := idx st |}
  end.

End EnrichSummary.

(** ** enrich_icr_chinese_name.py: the records *)

Module EnrichApply.
Import EnrichIcr.
Import AcsAudit.

#[global] Instance json_eq_dec : EqDecision json.
Proof.
  refine (fix go (x y : json) {struct x} : Decision (x = y) :=
    match x, y with
    | JNull, JNull => left eq_refl
    | JBool a, JBool b => cast_if (decide (a = b))
    | JNum a, JNum b => cast_if (decide (a = b))
    | JStr a, JStr b => cast_if (decide (a = b))
    | JArr a, JArr b =>
        cast_if ((fix go_list (l k : list json) {struct l}
                    : Decision (l = k) :=
                    match l, k with
                    | [], [] => left eq_refl
                    | u :: l', v :: k' =>
                        cast_if_and (go u v) (go_list l' k')
                    | _, _ => right _
                    end) a b)
    | _, _ => right _
    end); clear go; try clear go_list; congruence.
Defined.

(** A record of a dataset file: a JSON object. *)
Abbreviation record := (gmap string json).

Section Apply.
Context `{Env}.
(** [str.strip]. *)
Variable strip : string -> string.

(** The loop over [cur] of [ensure_chinese_name_field]. *)
Definition clean_step (cleaned : list string) (x : json) : list string :=
  match x with
  | JStr s =>
      let s := normalize_text s in
      if negb (String.eqb s "") && bool_decide (s ∉ cleaned)
      then cleaned ++ [s] else cleaned
  | _ => cleaned
  end.

Definition clean_list (cur : list json) : list string :=
  foldl clean_step [] cur.

(** One turn of [ensure_chinese_name_field]: the record, and whether it was
    changed. *)
Definition ensure_one (r : record) : record * bool :=
  match r !! "chinese_name" with
  | Some (JArr cur) =>
      let cleaned := JStr <$> clean_list cur in
      if decide (cleaned <> cur)
      then (<["chinese_name" := JArr cleaned]> r, true)
      else (r, false)
  | _ => (<["chinese_name" := JArr []]> r, true)
  end.

(** [ensure_chinese_name_field]. *)
Definition ensure_chinese_name_field (records : list record)
  : list record * bool :=
  ((fun r => (ensure_one r).1) <$> records,
   existsb (fun r => (ensure_one r).2) records).

(** One turn of the loop of [apply_result_map]. *)
Definition apply_one (result_map : gmap string UrlResult) (r : record)
  : record * bool :=
  match r !! "icr_url" with
  | Some (JStr u) =>
      match result_map !! strip u with
      | Some result =>
          let names := JArr (JStr <$> chinese_name result) in
          if decide (r !! "chinese_name" <> Some names)
          then (<["chinese_name" := names]> r, true)
          else (r, false)
      | None => (r, false)
      end
  | _ => (r, false)
  end.

(** [apply_result_map]. *)
Definition apply_result_map (records : list record)
    (result_map : gmap string UrlResult) : list record * bool :=
  let '(ensured, changed) := ensure_chinese_name_field records in
  ((fun r => (apply_one result_map r).1) <$> ensured,
   changed || existsb (fun r => (apply_one result_map r).2) ensured).
End Apply.
End EnrichApply.

(** ** icr_match_audit.py: the queries and the clock *)

Module IcrAuditClock.
Import IcrMatchAudit.

(** [RATE_LIMIT_SECONDS], in milliseconds. *)
Definition RATE_LIMIT : Z := 8000.

Definition DETAIL_BASE : string :=
  "https://camellia.iflora.cn/Cutivars/Detail?latin=".

(** An element of the [data] list of the API. *)
Record item := Item {
  ScientificName : string;
  AcceptedName : string;
  Status : string
}.

(** The body of an answer: [code] when it is a string, and [data]. *)
Record api_body := ApiBody {
  code : option string;
  data : list item
}.

(** What [session.post] hands back when it does not raise; reading the body
    as JSON can raise in turn. *)
Record api_response := ApiResponse {
  http_status : Z;
  json_body : res api_body
}.

(** The collaborators: the HTTP session (the answer to a query sent at a
    time, and how long the call took, in milliseconds), the text functions
    that rest on regular expressions and Unicode, and the two of the
    matching. *)
Class Env := {
  session_post : string -> Z -> res api_response * N;
  strip_html : string -> string;
  quote : string -> string;
  plain_of : string -> string;
  py_strip : string -> string;
  contains : string -> string -> bool;
  split : string -> string -> list string;
  remove_spaces : string -> string;
  fuzzy_score : string -> string -> float;
  round4 : float -> float
}.

(** The clock, in milliseconds, and the queries posted: time and text. *)
Record world := World {
  now : Z;
  posts : list (Z * string)
}.

Definition sleep (w : world) (d : Z) : world :=
  {| now := now w + d; posts := posts w |}.

Section Script.
Context `{Env}.

(** [query_api], the request leaving at [t]. *)
Definition query_api (latin : string) (t : Z) : res (list item) * N :=
  let '(r, d) := session_post latin t in
  (res_bind r (fun resp =>
     if (400 <=? http_status resp) && (http_status resp <? 600)
     then Raise (Exn Transport ("HTTP " +:+ pretty (http_status resp)))
     else
       res_bind (json_body resp) (fun body =>
         if bool_decide (code body = Some "0")
            && bool_decide (data body <> [])
         then Ok (data body) else Ok [])),
   d).

(** [query_variants] before the de-duplication, lines 82-97. *)
Definition raw_variants (name : string) : list string :=
  let plain := plain_of name in
  let v1 := [name] ++ (if decide (plain <> name) then [plain] else []) in
  let v2 := v1 ++ (if contains " - " name
                   then [py_strip (default "" (last (split " - " name)));
                         py_strip (default "" (head (split " - " name)))]
                   else []) in
  let v3 := if contains " / " name
            then foldl (fun vs part =>
                          let p := py_strip part in
                          if negb (String.eqb p "") && bool_decide (p ∉ vs)
                          then vs ++ [p] else vs)
                       v2 (split " / " name)
            else v2 in
  if bool_decide (remove_spaces name ∉ v3)
  then v3 ++ [remove_spaces name] else v3.

(** Lines 99-106. *)
Definition dedup (vs : list string) : list string :=
  foldl (fun acc v => if bool_decide (v ∉ acc) then acc ++ [v] else acc)
        [] vs.

Definition query_variants (name : string) : list string :=
  dedup (raw_variants name).

(** Lines 126-138: one item of an answer. *)
Definition add_item (all_candidates : list candidate) (it : item)
  : list candidate :=
  if existsb (fun c => String.eqb (scientific_name c) (ScientificName it)
                       && String.eqb (accepted_name c) (AcceptedName it))
             all_candidates
  then all_candidates
  else all_candidates ++
       [{| scientific_name := ScientificName it;
           accepted_name := AcceptedName it;
           icr_status := strip_html (Status it);
           detail_url := if String.eqb (AcceptedName it) "" then ""
                         else DETAIL_BASE +:+ quote (AcceptedName it) |}].

Definition error_result (name : string) (e : exn) (tried : list string)
  : result :=
  {| input_name := name; res_status := error; candidates := [];
     best_match := None; confidence := 0%float; queries_tried := tried;
     error_text := Some (str_exn e) |}.

(** The loop over the variants, lines 111-142, and what follows it. *)
Fixpoint query_loop (name : string) (tried : list string)
    (all_candidates : list candidate) (variants : list string) (w : world)
  : result * world :=
  match variants with
  | [] => (match_candidates fuzzy_score round4 name (plain_of name) tried
             all_candidates, w)
  | variant :: rest =>
      let tried := tried ++ [variant] in
      let '(r, d) := query_api variant (now w) in
      let w1 := {| now := now w + Z.of_N d;
                   posts := posts w ++ [(now w, variant)] |} in
      match r with
      | Raise e => (error_result name e tried, w1)
      | Ok raw =>
          query_loop name tried (foldl add_item all_candidates raw) rest
            (match rest with
             | [] => w1
             | _ => sleep w1 RATE_LIMIT
             end)
      end
  end.

(** [search_icr]. *)
Definition search_icr (name : string) (w : world) : result * world :=
  query_loop name [] [] (query_variants name) w.

(** What the loop of [main] changes. *)
Record run := Run {
  completed : gmap string result;
  progress_file : option (gmap string result);
  outside : world
}.

Definition start (file : option (gmap string result)) (w : world) : run :=
  {| completed := load_progress file; progress_file := file; outside := w |}.

(** One turn of [for i, name in enumerate(NAMES)]. *)
Definition step (total : Z) (i : Z) (name : string) (r : run) : run :=
  match completed r !! name with
  | Some _ => r
  | None =>
      let '(result, w) := search_icr name (outside r) in
      let c := <[name := result]> (completed r) in
      {| completed := c; progress_file := Some c;
         outside := if i <? total - 1 then sleep w RATE_LIMIT else w |}
  end.

Fixpoint loop (total : Z) (i : Z) (names : list string) (r : run) : run :=
  match names with
  | [] => r
  | name :: rest => loop total (i + 1) rest (step total i name r)
  end.

(** [main], up to the final [save_progress]. *)
Definition main (names : list string) (file : option (gmap string result))
    (w : world) : run :=
  let r := loop (Z.of_nat (length names)) 0 names (start file w) in
  {| completed := completed r; progress_file := Some (completed r);
     outside := outside r |}.
End Script.
End IcrAuditClock.

(** * Properties *)

(** ** Floats: [<] excludes [>=] *)

Lemma SFcompare_lt_gt (x y : spec_float) :
  SFcompare x y = Some Lt -> SFcompare y x = Some Gt.
Proof.
  destruct x as [sx|sx| |sx mx ex], y as [sy|sy| |sy my ey]; simpl;
    try discriminate; try (destruct sx, sy; simpl; congruence);
    try (destruct sx; simpl; congruence); try (destruct sy; simpl; congruence).
  change (Pos.compare_cont Eq mx my) with (Pos.compare mx my).
  change (Pos.compare_cont Eq my mx) with (Pos.compare my mx).
  rewrite (Z.compare_antisym ey ex), (Pos.compare_antisym my mx).
  destruct sx, sy; simpl; try congruence;
    destruct (ey ?= ex)%Z; simpl; try congruence;
    destruct (my ?= mx)%positive; simpl; congruence.
Qed.

Lemma ltb_not_leb (a b : float) :
  PrimFloat.ltb a b = true -> PrimFloat.leb b a = false.
Proof.
  rewrite ltb_spec, leb_spec. unfold SFltb, SFleb.
  destruct (SFcompare (Prim2SF a) (Prim2SF b)) as [[]|] eqn:E;
    try discriminate.
  intros _. now rewrite (SFcompare_lt_gt _ _ E).
Qed.

Lemma SFleb_trans (x y z : spec_float) :
  SFleb x y = true -> SFleb y z = true -> SFleb x z = true.
Proof.
  unfold SFleb.
  destruct x as [sx|sx| |sx mx ex], y as [sy|sy| |sy my ey],
           z as [sz|sz| |sz mz ez];
    simpl; try discriminate; try reflexivity;
    try (destruct sx; simpl; try discriminate; try reflexivity);
    try (destruct sy; simpl; try discriminate; try reflexivity);
    try (destruct sz; simpl; try discriminate; try reflexivity);
    change (Pos.compare_cont Eq) with Pos.compare;
    repeat match goal with
    | |- context [(?a ?= ?b)%Z] =>
        destruct (Z.compare_spec a b); subst; simpl
    | |- context [(?a ?= ?b)%positive] =>
        destruct (Pos.compare_spec a b); subst; simpl
    end; try discriminate; try reflexivity; intros; try lia.
Qed.

Lemma leb_trans (a b c : float) :
  PrimFloat.leb a b = true -> PrimFloat.leb b c = true ->
  PrimFloat.leb a c = true.
Proof. rewrite !leb_spec. apply SFleb_trans. Qed.

(** ** Strings: the order of [<] *)






(** ** icr_match_audit.py: the tiers of [search_icr] *)

Section IcrMatchAuditFacts.
Import IcrMatchAudit.

(** A ranked list with the given scores, all for one candidate. *)
Definition ranked_with (c : candidate) (scores : list float) : list scored :=
  map (Scored c) scores.

(** The status and best match [search_icr] settles on for ranked scores. *)
Definition outcome_of (c : candidate) (scores : list float)
  : option (status * option candidate) :=
  (fun r => (res_status r, best_match r))
    <$> decide_match "name" [] (ranked_with c scores).

Lemma decide_match_cons name tried top rest :
  decide_match name tried (top :: rest) =
  Some {| input_name := name;
          res_status := classify (top :: rest) top;
          candidates := take 10 (top :: rest);
          best_match := if has_best (classify (top :: rest) top)
                        then Some (cand top) else None;
          confidence := score top;
          queries_tried := tried;
          error_text := None |}.
Proof. reflexivity. Qed.

Lemma classify_second top rest :
  classify (top :: rest) top =
  if fge (score top) 0.95 then exact
  else if fge (score top) 0.6 then
    match rest with
    | second :: _ =>
        if fge (score second) (score top - 0.05) then ambiguous
        else fuzzy_match
    | [] => fuzzy_match
    end
  else no_match.
Proof.
  unfold classify. destruct rest as [|second rest']; [reflexivity|].
  replace (bool_decide (1 < length (top :: second :: rest'))%nat) with true
    by (symmetry; apply bool_decide_eq_true_2; simpl; lia).
  reflexivity.
Qed.

(** C2.  For a ranked, non-empty candidate list [top :: rest] the result of
    [search_icr] is: [exact] with the top candidate when the top score is at
    least 0.95; [fuzzy_match] with the top candidate when the top score is in
    [0.6, 0.95) and the second-ranked candidate, if there is one, scores
    below the top score minus 0.05; [ambiguous] when the top score is in
    [0.6, 0.95) and the second-ranked candidate scores at least the top score
    minus 0.05; [no_match], with no best match, when the top score is below
    0.6.  Scores [0.93, 0.90] give [ambiguous], [0.93, 0.80] give
    [fuzzy_match] with the top candidate, [0.97] alone gives [exact] and
    [0.4] gives [no_match]. *)
Theorem fuzzy_classification_policy :
  (forall (name : string) (tried : list string) (top : scored)
          (rest : list scored),
      exists r, decide_match name tried (top :: rest) = Some r /\
        confidence r = score top /\
        (fge (score top) 0.95 = true ->
           res_status r = exact /\ best_match r = Some (cand top)) /\
        (fge (score top) 0.6 = true ->
         PrimFloat.ltb (score top) 0.95 = true ->
         (forall second, head rest = Some second ->
            fge (score second) (score top - 0.05) = false) ->
           res_status r = fuzzy_match /\ best_match r = Some (cand top)) /\
        (fge (score top) 0.6 = true ->
         PrimFloat.ltb (score top) 0.95 = true ->
         (exists second, head rest = Some second /\
            fge (score second) (score top - 0.05) = true) ->
           res_status r = ambiguous) /\
        (PrimFloat.ltb (score top) 0.6 = true ->
           res_status r = no_match /\ best_match r = None)) /\
  (forall c : candidate,
      (res_status <$> decide_match "n" [] (ranked_with c [0.93; 0.90]%float))
        = Some ambiguous /\
      outcome_of c [0.93; 0.80]%float = Some (fuzzy_match, Some c) /\
      outcome_of c [0.97]%float = Some (exact, Some c) /\
      outcome_of c [0.4]%float = Some (no_match, None)).
Proof.
  split.
  - intros name tried top rest. eexists. split; [apply decide_match_cons|].
    cbn [res_status best_match confidence]. rewrite classify_second.
    split; [reflexivity|]. split; [|split; [|split]].
    + intros H95. now rewrite H95.
    + intros H6 Hlt Hsnd. apply ltb_not_leb in Hlt. unfold fge in *.
      rewrite Hlt, H6. destruct rest as [|s rest']; [easy|].
      now rewrite (Hsnd s eq_refl).
    + intros H6 Hlt (s & Hs & Hge). apply ltb_not_leb in Hlt.
      unfold fge in *. rewrite Hlt, H6.
      destruct rest as [|s' rest']; [discriminate|].
      injection Hs as ->. now rewrite Hge.
    + intros Hlt. apply ltb_not_leb in Hlt. unfold fge.
      destruct (PrimFloat.leb 0.95 (score top)) eqn:E.
      * assert (PrimFloat.leb 0.6 0.95 = true) as Hc by reflexivity.
        rewrite (leb_trans 0.6 0.95 (score top) Hc E) in Hlt. discriminate.
      * now rewrite Hlt.
  - intros c. repeat split.
Qed.

Lemma fuzzy_classification_policy_witness :
  res_status <$> decide_match "Beta" []
    [Scored (Candidate "Beta" "Beta" "" "") 0.7;
     Scored (Candidate "Gamma" "Gamma" "" "") 0.3]
  = Some fuzzy_match.
Proof.
  destruct (proj1 fuzzy_classification_policy "Beta" []
              (Scored (Candidate "Beta" "Beta" "" "") 0.7)
              [Scored (Candidate "Gamma" "Gamma" "" "") 0.3])
    as (r & Hr & _ & _ & Hfuzzy & _).
  rewrite Hr. simpl. f_equal.
  apply Hfuzzy; [reflexivity | reflexivity |].
  intros s [= <-]. reflexivity.
Defined.

(** *** The loop of [main] *)

Section Loop.
Variable search_icr : string -> result.

(** The [completed] dictionary alone, turn by turn. *)
Definition completed_step (c : gmap string result) (n : string)
  : gmap string result :=
  match c !! n with
  | Some _ => c
  | None => <[n := search_icr n]> c
  end.

Lemma loop_app names1 names2 (r : run) :
  loop search_icr (names1 ++ names2) r =
  loop search_icr names2 (loop search_icr names1 r).
Proof. unfold loop. apply foldl_app. Qed.

Lemma completed_loop names (r : run) :
  completed (loop search_icr names r) =
  foldl completed_step (completed r) names.
Proof.
  revert r. induction names as [|n names IH]; intros r; [reflexivity|].
  simpl. change (foldl (step search_icr) (step search_icr r n) names)
    with (loop search_icr names (step search_icr r n)).
  rewrite IH. f_equal. unfold step, completed_step.
  destruct (completed r !! n); reflexivity.
Qed.

Lemma completed_step_keeps c n k v :
  c !! k = Some v -> completed_step c n !! k = Some v.
Proof.
  intros Hk. unfold completed_step. destruct (c !! n) eqn:E; [exact Hk|].
  rewrite lookup_insert_ne; [exact Hk|]. intros ->. congruence.
Qed.

Lemma completed_fold_keeps names c k v :
  c !! k = Some v -> foldl completed_step c names !! k = Some v.
Proof.
  revert c. induction names as [|n names IH]; intros c Hk; [exact Hk|].
  simpl. apply IH. now apply completed_step_keeps.
Qed.





(** A name is sent to [search_icr] only when it is not completed yet. *)
Lemma probed_loop names (r : run) n :
  is_Some (completed r !! n) ->
  n ∈ probed (loop search_icr names r) -> n ∈ probed r.
Proof.
  revert r. induction names as [|m names IH]; intros r Hn Hp; [exact Hp|].
  simpl in Hp. apply IH in Hp.
  - unfold step in Hp. destruct (completed r !! m) eqn:E; [exact Hp|].
    simpl in Hp. apply elem_of_app in Hp as [Hp|Hp]; [exact Hp|].
    apply list_elem_of_singleton in Hp as ->. rewrite E in Hn.
    destruct Hn; discriminate.
  - destruct Hn as [v Hv]. unfold step.
    destruct (completed r !! m) eqn:E; [eauto|]. simpl.
    rewrite lookup_insert_ne; [eauto|]. intros ->. congruence.
Qed.

End Loop.
End IcrMatchAuditFacts.

(** ** scripts/enrich_icr_chinese_name.py *)

Section EnrichIcrFacts.
Import EnrichIcr.
Context `{Env}.

(** *** The probe *)

Lemma fetch_one_ok url tmo t :
  exists r, fetch_one url tmo t = (Ok r, (session_get url tmo t).2).
Proof.
  unfold fetch_one. destruct (session_get url tmo t) as [[resp|e] d]; simpl.
  - destruct (decide (status_code resp <> 200)); [eauto|].
    destruct (bool_decide (extract_chinese_names (text resp) <> []));
      eauto.
  - eauto.
Qed.









(** The time at which the loop sends its request, lines 404-406. *)
Definition dispatch_time (a : args) (st : state) : Z :=
  if now st - last_request_ts (cp st) <? delay a
  then now st + (delay a - (now st - last_request_ts (cp st)))
  else now st.

Ltac body_cases a url st :=
  unfold body;
  destruct (cache st !! url) as [cached|] eqn:Hcache;
  [| destruct (fetch_one_ok url (timeout a) (dispatch_time a st))
       as [fetched Hfetched];
     unfold dispatch_time in Hfetched; rewrite Hfetched ].

Lemma raised_body a total url st :
  raised (body a total url st) = raised st.
Proof. body_cases a url st; reflexivity. Qed.

Lemma idx_body a total url st :
  idx (body a total url st) = idx st + 1.
Proof. body_cases a url st; reflexivity. Qed.

Lemma processed_body a total url st :
  processed_this_run (body a total url st) = processed_this_run st + 1.
Proof. body_cases a url st; reflexivity. Qed.




Lemma mirrors_body a total url st :
  mirrors (body a total url st) =
  map (fun _ => File (to_json (cp (body a total url st)))) (mirrors st).
Proof. body_cases a url st; reflexivity. Qed.

Lemma next_index_body a total url st :
  next_index (cp (body a total url st)) = idx st + 1.
Proof. body_cases a url st; reflexivity. Qed.

Lemma saves_body a total url st :
  saves (body a total url st) = saves st ++ [cp (body a total url st)].
Proof. body_cases a url st; reflexivity. Qed.

(** *** Choosing among checkpoint mirrors *)






(** *** The loop as a run of turns *)

(** The turns of the loop over the URLs [us], none skipped. *)
Definition turns (a : args) (total : Z) (us : list string) (st : state)
  : state :=
  foldl (fun s u => body a total u s) st us.

(** The loop runs its turns over a prefix of the URLs left, and over all of
    them when no limit is set. *)
Lemma loop_turns a total rest st :
  raised st = None ->
  exists m, (m <= length rest)%nat /\
    loop a total rest st = turns a total (take m rest) st /\
    (max_urls a <= 0 -> m = length rest).
Proof.
  revert st. induction rest as [|url rest IH]; intros st Hr.
  - exists 0%nat. simpl. repeat split; lia.
  - simpl. rewrite Hr.
    replace (bool_decide (is_Some (@None exn))) with false
      by (symmetry; apply bool_decide_eq_false_2; intros [? ?]; discriminate).
    rewrite orb_false_r. destruct (limit_reached a st) eqn:Hl.
    + exists 0%nat. simpl. repeat split; [lia|].
      unfold limit_reached in Hl. apply andb_true_iff in Hl as [Hl _].
      apply Z.ltb_lt in Hl. lia.
    + destruct (IH (body a total url st)) as (m & Hm & Hloop & Hall).
      { now rewrite raised_body. }
      exists (S m). simpl. repeat split; [lia|exact Hloop|].
      intros Hno. now rewrite Hall.
Qed.


Lemma raised_turns a total us st :
  raised (turns a total us st) = raised st.
Proof.
  revert st. induction us as [|u us IH]; intros st; [reflexivity|].
  simpl. fold (turns a total us (body a total u st)).
  now rewrite IH, raised_body.
Qed.

Lemma idx_turns a total us st :
  idx (turns a total us st) = idx st + Z.of_nat (length us).
Proof.
  revert st. induction us as [|u us IH]; intros st; simpl; [lia|].
  fold (turns a total us (body a total u st)).
  rewrite IH, idx_body. lia.
Qed.



(** After a turn the checkpoint cursor is the loop index, and every mirror
    holds the checkpoint. *)
Definition settled (ms : list mirror) (st : state) : Prop :=
  next_index (cp st) = idx st /\
  mirrors st = map (fun _ => File (to_json (cp st))) ms.

Lemma settled_body a total url ms st :
  length (mirrors st) = length ms ->
  settled ms (body a total url st) /\
  length (mirrors (body a total url st)) = length ms.
Proof.
  intros Hlen. unfold settled.
  rewrite next_index_body, idx_body, mirrors_body.
  repeat split.
  - clear -Hlen. revert ms Hlen.
    induction (mirrors st) as [|x l IH]; intros [|y ms] Hlen;
      simpl in *; try discriminate; [reflexivity|].
    f_equal. apply IH. lia.
  - now rewrite length_map.
Qed.

Lemma settled_turns a total us ms st :
  settled ms st -> length (mirrors st) = length ms ->
  settled ms (turns a total us st) /\
  length (mirrors (turns a total us st)) = length ms.
Proof.
  revert st. induction us as [|u us IH]; intros st Hs Hlen; [easy|].
  simpl. fold (turns a total us (body a total u st)).
  destruct (settled_body a total u ms st Hlen) as [Hs' Hlen'].
  now apply IH.
Qed.

(** The cursors written by [n] turns starting at cursor [i]. *)
Fixpoint cursors (i : Z) (n : nat) : list Z :=
  match n with
  | O => []
  | S n' => (i + 1) :: cursors (i + 1) n'
  end.

Lemma saves_turns a total us st :
  map next_index (saves (turns a total us st)) =
  map next_index (saves st) ++ cursors (idx st) (length us).
Proof.
  revert st. induction us as [|u us IH]; intros st; simpl.
  - now rewrite app_nil_r.
  - fold (turns a total us (body a total u st)).
    rewrite IH, saves_body, map_app, idx_body. simpl.
    rewrite next_index_body, <- app_assoc. reflexivity.
Qed.
(** *** Before the loop *)


Lemma map_const_eq {A B} (f : B) (l1 l2 : list A) :
  length l1 = length l2 -> map (fun _ => f) l1 = map (fun _ => f) l2.
Proof.
  revert l2. induction l1 as [|x l1 IH]; intros [|y l2] Hlen; simpl in *;
    try discriminate; [reflexivity|].
  f_equal. apply IH. lia.
Qed.

(** A fresh run over at least one mirror path. *)
Lemma prepare_fresh a urls t m0 ms cf :
  resume a = false ->
  let st := prepare a urls (boot t (m0 :: ms) cf) in
  raised st = None /\ idx st = 0 /\ cache st = ∅ /\
  settled (m0 :: ms) st /\ length (mirrors st) = length (m0 :: ms) /\
  cache_file st = cf /\ map next_index (saves st) = [0] /\
  processed_this_run st = 0.
Proof.
  intros Hres. unfold prepare. rewrite Hres. cbn.
  unfold settled. cbn. rewrite length_map. repeat split.
Qed.



(** *** Resuming *)

Lemma loop_raised a total rest st :
  is_Some (raised st) -> loop a total rest st = st.
Proof.
  intros Hr. destruct rest as [|u rest]; [reflexivity|]. simpl.
  rewrite (bool_decide_eq_true_2 _ Hr). now rewrite orb_true_r.
Qed.

(** A fresh run, killed or not: the turns it made, on a machine with at
    least one mirror path. *)
Lemma fresh_run_turns (n : nat) a urls t m0 ms cf :
  resume a = false ->
  let total := Z.of_nat (length urls) in
  let st0 := prepare a urls (boot t (m0 :: ms) cf) in
  exists m, (m <= length (take n urls))%nat /\
    main_killed n a urls (boot t (m0 :: ms) cf)
      = turns a total (take m urls) st0 /\
    (max_urls a <= 0 -> m = length (take n urls)).
Proof.
  intros Hres total st0.
  destruct (prepare_fresh a urls t m0 ms cf Hres)
    as (Hr & Hidx & _).
  unfold main_killed. fold st0 total. fold st0 in Hr, Hidx.
  rewrite Hidx. change (Z.to_nat 0) with 0%nat. rewrite drop_0.
  destruct (loop_turns a total (take n urls) st0 Hr) as (m & Hm & Hl & Hall).
  exists m. repeat split; [exact Hm| |exact Hall].
  rewrite Hl. f_equal. rewrite take_take. f_equal.
  rewrite length_take in Hm. lia.
Qed.

Lemma main_is_killed_late a urls st :
  main a urls st = main_killed (length urls) a urls st.
Proof.
  unfold main, main_killed. f_equal. symmetry. apply take_ge.
  rewrite length_drop. lia.
Qed.


(** *** The cache file of a run that made a turn *)



(** *** Cache hits *)

Lemma body_keeps a total url st k r :
  cache st !! k = Some r ->
  cache (body a total url st) !! k = Some r /\
  forall t, (t, k) ∈ requests (body a total url st) -> (t, k) ∈ requests st.
Proof.
  intros Hk. body_cases a url st; cbn.
  - split; [exact Hk|tauto].
  - assert (url <> k) as Hne by (intros ->; congruence).
    split; [now rewrite lookup_insert_ne|].
    intros t Ht. apply elem_of_app in Ht as [Ht|Ht]; [exact Ht|].
    apply list_elem_of_singleton in Ht. congruence.
Qed.

Lemma loop_keeps a total rest st k r :
  cache st !! k = Some r ->
  cache (loop a total rest st) !! k = Some r /\
  forall t, (t, k) ∈ requests (loop a total rest st) -> (t, k) ∈ requests st.
Proof.
  revert st. induction rest as [|url rest IH]; intros st Hk; [easy|].
  simpl. destruct (limit_reached a st || bool_decide (is_Some (raised st)));
    [easy|].
  destruct (body_keeps a total url st k r Hk) as [Hk' Hreq].
  destruct (IH _ Hk') as [Hk'' Hreq']. split; [exact Hk''|].
  intros t Ht. apply Hreq, Hreq', Ht.
Qed.

(** A request is sent only for a URL that is not in the cache. *)
Lemma body_requests a total url st :
  requests (body a total url st) =
  requests st ++ match cache st !! url with
                 | Some _ => []
                 | None => [(dispatch_time a st, url)]
                 end.
Proof.
  body_cases a url st; cbn; [now rewrite app_nil_r|reflexivity].
Qed.

(** *** The probe never ends the run *)

Lemma raised_loop a total rest st :
  raised (loop a total rest st) = raised st.
Proof.
  revert st. induction rest as [|url rest IH]; intros st; [reflexivity|].
  simpl. destruct (limit_reached a st || bool_decide (is_Some (raised st)));
    [reflexivity|].
  now rewrite IH, raised_body.
Qed.

(** *** Spacing of the requests *)

(** Consecutive times are at least [gap] apart. *)
Definition spaced (gap : Z) (ts : list Z) : Prop :=
  forall i t1 t2, ts !! i = Some t1 -> ts !! S i = Some t2 -> gap <= t2 - t1.

Lemma spaced_snoc gap ts t :
  spaced gap ts ->
  (forall t0, last ts = Some t0 -> gap <= t - t0) ->
  spaced gap (ts ++ [t]).
Proof.
  intros Hs Hlast i t1 t2 H1 H2.
  destruct (decide (S i < length ts)%nat) as [Hlt|Hge].
  - rewrite lookup_app_l in H1, H2 by lia. eapply Hs; eauto.
  - assert (S i = length ts) as Hi.
    { apply lookup_lt_Some in H2. rewrite length_app in H2. simpl in H2.
      lia. }
    rewrite lookup_app_l in H1 by lia.
    rewrite lookup_app_r, Hi, Nat.sub_diag in H2 by lia.
    injection H2 as <-. apply Hlast. rewrite last_lookup.
    rewrite <- Hi. exact H1.
Qed.

(** The times of the requests sent so far. *)
Definition request_times (st : state) : list Z := (requests st).*1.

(** The requests are spaced, and the last one is not later than the stored
    [last_request_ts]. *)
Definition paced (a : args) (st : state) : Prop :=
  spaced (delay a) (request_times st) /\
  forall t0, last (request_times st) = Some t0 ->
             t0 <= last_request_ts (cp st).

Lemma dispatch_after a st :
  last_request_ts (cp st) + delay a <= dispatch_time a st.
Proof.
  unfold dispatch_time.
  destruct (Z.ltb_spec (now st - last_request_ts (cp st)) (delay a)); lia.
Qed.

Lemma paced_body a total url st :
  paced a st -> paced a (body a total url st).
Proof.
  intros [Hs Hl]. unfold paced, request_times in *.
  pose proof (dispatch_after a st) as Hd.
  body_cases a url st; cbn.
  - split; assumption.
  - rewrite fmap_app. cbn. split.
    + apply spaced_snoc; [exact Hs|]. intros t0 Ht0.
      specialize (Hl t0 Ht0). unfold dispatch_time in Hd. lia.
    + intros t0 Ht0. rewrite last_snoc in Ht0. injection Ht0 as <-. lia.
Qed.

Lemma paced_loop a total rest st :
  paced a st -> paced a (loop a total rest st).
Proof.
  revert st. induction rest as [|url rest IH]; intros st Hp; [exact Hp|].
  simpl. destruct (limit_reached a st || bool_decide (is_Some (raised st)));
    [exact Hp|].
  apply IH, paced_body, Hp.
Qed.

(** In one run of the script, any two consecutive requests are sent at
    least [delay] apart. *)
Lemma enrich_requests_spaced a urls t ms cf :
  spaced (delay a) (request_times (main a urls (boot t ms cf))).
Proof.
  unfold main. apply paced_loop. split.
  - intros i t1 t2 H1 _. revert H1. unfold request_times, prepare.
    destruct (load_best_checkpoint _ _ _ _); cbn; now rewrite lookup_nil.
  - intros t0. unfold request_times, prepare.
    destruct (load_best_checkpoint _ _ _ _); cbn; discriminate.
Qed.
(** *** The cursor of the checkpoint *)

Lemma cursors_bounds i n x :
  x ∈ cursors i n -> i < x <= i + Z.of_nat n.
Proof.
  revert i. induction n as [|n IH]; intros i Hx; simpl in Hx.
  - inversion Hx.
  - apply elem_of_cons in Hx as [->|Hx]; [lia|]. apply IH in Hx. lia.
Qed.

Lemma cursors_step i n : spaced 1 (i :: cursors i n).
Proof.
  revert i. induction n as [|n IH]; intros i j a b Ha Hb.
  - destruct j; discriminate.
  - destruct j as [|j]; simpl in *.
    + injection Ha as <-. injection Hb as <-. lia.
    + eapply (IH (i + 1) j); eauto.
Qed.

Lemma processed_log_body a total url st :
  length (processed_log (body a total url st)) =
  S (length (processed_log st)).
Proof. body_cases a url st; cbn; rewrite length_app; simpl; lia. Qed.

Lemma processed_log_turns a total us st :
  length (processed_log (turns a total us st)) =
  (length (processed_log st) + length us)%nat.
Proof.
  revert st. induction us as [|u us IH]; intros st; simpl; [lia|].
  fold (turns a total us (body a total u st)).
  rewrite IH, processed_log_body. lia.
Qed.

(** A fresh run, killed or not, over at least one mirror path: after [m]
    units the cursor is [m], and the saves carry 0, 1, ..., [m]. *)
Lemma fresh_run_cursor (n : nat) a urls t m0 ms cf :
  resume a = false ->
  let run := main_killed n a urls (boot t (m0 :: ms) cf) in
  exists m : nat, (m <= length urls)%nat /\
    length (processed_log run) = m /\
    idx run = Z.of_nat m /\
    next_index (cp run) = Z.of_nat m /\
    map next_index (saves run) = 0 :: cursors 0 m.
Proof.
  intros Hres run.
  destruct (fresh_run_turns n a urls t m0 ms cf Hres) as (m & Hm & Hrun & _).
  destruct (prepare_fresh a urls t m0 ms cf Hres)
    as (_ & Hi & _ & Hset & Hlen & _ & Hsaves & _).
  fold run in Hrun. rewrite length_take in Hm.
  assert (length (take m urls) = m) as Hlm by (rewrite length_take; lia).
  destruct (settled_turns a (Z.of_nat (length urls)) (take m urls)
              (m0 :: ms) _ Hset Hlen) as [[Hnext _] _].
  exists m. rewrite Hrun. repeat split.
  - lia.
  - rewrite processed_log_turns, Hlm. unfold prepare. rewrite Hres.
    reflexivity.
  - rewrite idx_turns, Hi, Hlm. lia.
  - rewrite Hnext, idx_turns, Hi, Hlm. lia.
  - rewrite saves_turns, Hsaves, Hi, Hlm. reflexivity.
Qed.
Lemma cursors_from n0 i k : n0 <= i + 1 -> spaced 0 (n0 :: cursors i k).
Proof.
  revert n0 i. induction k as [|k IH]; intros n0 i Hle j a b Ha Hb.
  - destruct j; discriminate.
  - destruct j as [|j]; simpl in *.
    + injection Ha as <-. injection Hb as <-. lia.
    + eapply (IH (i + 1) (i + 1)); [lia|exact Ha|exact Hb].
Qed.

(** What [main] has done when its loop starts. *)
Lemma prepare_shape a urls t ms cf :
  let st := prepare a urls (boot t ms cf) in
  let total := Z.of_nat (length urls) in
  (is_Some (raised st) /\ saves st = []) \/
  (raised st = None /\
   exists n0, map next_index (saves st) = [n0] /\
     idx st = (if resume a then clamp n0 total else n0) /\
     (resume a = false -> n0 = 0)).
Proof.
  unfold prepare.
  destruct (load_best_checkpoint _ _ _ _) as [c0|e]; cbn.
  - right. split; [reflexivity|].
    destruct (resume a); cbn; eexists; repeat split; discriminate.
  - left. split; [eauto|reflexivity].
Qed.

(** In any run, fresh or resumed, killed or not, the cursors of successive
    saves never decrease. *)
Lemma saves_never_decrease (n : nat) a urls t ms cf :
  spaced 0 (map next_index (saves (main_killed n a urls (boot t ms cf)))).
Proof.
  unfold main_killed.
  destruct (prepare_shape a urls t ms cf)
    as [[Hr Hs]|(Hr & n0 & Hs & Hi & Hfresh)].
  - rewrite (loop_raised _ _ _ _ Hr), Hs. intros [|i] ? ?; discriminate.
  - set (st0 := prepare a urls (boot t ms cf)) in *.
    set (total := Z.of_nat (length urls)) in *.
    destruct (loop_turns a total (take n (drop (Z.to_nat (idx st0)) urls))
                st0 Hr) as (m & Hm & -> & _).
    rewrite saves_turns, Hs. cbn [app].
    destruct (decide (total < n0 /\ resume a = true)) as [[Hbig Hres]|Hok].
    + rewrite Hres in Hi.
      assert (idx st0 = total) as -> by (unfold clamp in Hi; lia).
      unfold total. rewrite Nat2Z.id, drop_all, take_nil, take_nil.
      intros [|i] ? ?; discriminate.
    + apply cursors_from. rewrite Hi. destruct (resume a) eqn:Hres.
      * unfold clamp. lia.
      * lia.
Qed.
End EnrichIcrFacts.

(** *** A run of the script on a small machine *)

(** Every page answers 200 after 300 ms and carries one name. *)
Definition demo_env : EnrichIcr.Env :=
  {| EnrichIcr.session_get := fun url _ _ =>
       (Ok (EnrichIcr.Response 200 url), 300%N);
     EnrichIcr.now_iso := fun t => pretty t;
     EnrichIcr.extract_chinese_names := fun txt => [txt];
     EnrichIcr.normalize_text := fun s => s;
     EnrichIcr.has_cjk := fun _ => true |}.

(** A checkpoint file left by a run over ten URLs, all done. *)
Definition stale_mirror : EnrichIcr.mirror :=
  EnrichIcr.File
    (EnrichIcr.CpJson (Some "2026-01-01T00:00:00+00:00")
       (Some "2026-01-01T00:10:00+00:00") (Some 10) (Some 600000)).

Definition five_urls : list string := ["u1"; "u2"; "u3"; "u4"; "u5"].

(** C6, at the input where the code leaves the invariant.  Resuming over
    five URLs from a checkpoint whose cursor is 10, [main] saves the
    checkpoint once, with [next_index] 10 and [total_urls] 5, before it
    clamps the cursor to 5 in memory; the loop has nothing to do, so both
    mirrors keep a cursor above the number of units. *)
Lemma resumed_save_outside_range :
  let run := EnrichIcr.main (H := demo_env) (EnrichIcr.Args 8000 30 0 true)
               five_urls
               (EnrichIcr.boot (H := demo_env) 1000
                  [stale_mirror; EnrichIcr.NoFile] None) in
  map (fun c => (EnrichIcr.next_index c, EnrichIcr.total_urls c))
      (EnrichIcr.saves run) = [(10, 5)] /\
  map (fun m => match m with
                | EnrichIcr.File j => EnrichIcr.j_next_index j
                | _ => None
                end) (EnrichIcr.mirrors run) = [Some 10; Some 10] /\
  EnrichIcr.idx run = 5 /\
  EnrichIcr.next_index (EnrichIcr.cp run) = 5 /\
  EnrichIcr.raised run = None.
Proof. vm_compute. repeat split. Qed.



(** A probe of [icr_match_audit.py] that finds nothing. *)
Definition no_match_probe (name : string) : IcrMatchAudit.result :=
  IcrMatchAudit.match_candidates (fun _ _ => 0%float) (fun x => x)
    name name [name] [].

(** ** Resume and cache hits, for both loops *)




(** C4.  Cache short-circuit.  In both loops, for every key that has an
    entry in the cache (the [completed] dictionary, the URL cache) at the
    start of a turn, and for every run of the loop from there: the entry
    recorded for the key at the end is the cached one, and no probe is made
    for the key, the probes made (the names sent to [search_icr], the URLs
    requested) being those made before. *)
Theorem cache_short_circuit :
  (forall (search_icr : string -> IcrMatchAudit.result)
          (names : list string) (r : IcrMatchAudit.run) (key : string)
          (entry : IcrMatchAudit.result),
      IcrMatchAudit.completed r !! key = Some entry ->
      let r' := IcrMatchAudit.loop search_icr names r in
      IcrMatchAudit.completed r' !! key = Some entry /\
      (key ∈ IcrMatchAudit.probed r' -> key ∈ IcrMatchAudit.probed r))
  /\
  (forall (E : EnrichIcr.Env) (a : EnrichIcr.args) (total : Z)
          (rest : list string) (st : EnrichIcr.state) (key : string)
          (entry : EnrichIcr.UrlResult),
      EnrichIcr.cache st !! key = Some entry ->
      let st' := EnrichIcr.loop a total rest st in
      EnrichIcr.cache st' !! key = Some entry /\
      (forall t, (t, key) ∈ EnrichIcr.requests st' ->
                 (t, key) ∈ EnrichIcr.requests st)).
Proof.
  split.
  - intros search_icr names r key entry Hk r'. subst r'. split.
    + rewrite completed_loop. now apply completed_fold_keeps.
    + apply probed_loop. eauto.
  - intros E a total rest st key entry Hk st'. now apply loop_keeps.
Qed.

Lemma cache_short_circuit_witness :
  let cached := no_match_probe "old answer" in
  let r := IcrMatchAudit.loop no_match_probe ["Alpha"; "Beta"; "Gamma"]
             (IcrMatchAudit.start (Some {["Beta" := cached]})) in
  IcrMatchAudit.completed r !! "Beta" = Some cached /\
  ("Beta" ∈ IcrMatchAudit.probed r -> "Beta" ∈ @nil string).
Proof.
  intros cached r.
  apply (proj1 cache_short_circuit no_match_probe ["Alpha"; "Beta"; "Gamma"]
           (IcrMatchAudit.start (Some {["Beta" := cached]}))
           "Beta" cached).
  reflexivity.
Defined.

(** ** image_enrich_strict.py *)

Section ChainFacts.
Import ImageEnrich.
Context {W : Type}.
Variables socal accs acs icr : string -> W -> presult * W.

(** What [main] makes of the pair a strategy returns: an entry of
    [progress], or nothing when the next strategy is to be tried.  Only the
    second strategy is asked for ["AMBIGUOUS"]. *)
Definition verdict (s : strategy) (p : presult) : option entry :=
  match s with
  | S_accs =>
      if bool_decide (p.1 = Some "AMBIGUOUS")
      then Some (Ambiguous "ambiguous ACCS match")
      else if truthy p.1 then Some (Found (default "" p.1) p.2) else None
  | _ => if truthy p.1 then Some (Found (default "" p.1) p.2) else None
  end.

(** The source tag an entry carries. *)
Definition source_tag (e : entry) : option string :=
  match e with
  | Found _ src => src
  | _ => None
  end.

(** The chain in the words of the design: strategy by strategy, stopping at
    the first verdict.  It yields the verdict, the strategies invoked and the
    world they leave. *)
Fixpoint run_chain (chain : list (strategy * (string -> W -> presult * W)))
    (name : string) (w : W) : option entry * list strategy * W :=
  match chain with
  | [] => (None, [], w)
  | (s, f) :: rest =>
      let '(p, w') := f name w in
      match verdict s p with
      | Some e => (Some e, [s], w')
      | None =>
          let '(o, cs, w'') := run_chain rest name w' in (o, s :: cs, w'')
      end
  end.

Definition the_chain : list (strategy * (string -> W -> presult * W)) :=
  [(S_socal, socal); (S_accs, accs); (S_acs, acs); (S_icr, icr)].

(** The code of [main] is that chain: the entry stored, the strategies
    called and the world left are those of [run_chain]. *)
Lemma live_run_chain (name : string) (r : run) :
  let '(o, cs, w') := run_chain the_chain name (outside r) in
  let r' := live socal accs acs icr name r in
  progress r' !! name = Some (default Missing o) /\
  progress_file r' = Some (progress r') /\
  calls r' = calls r ++ map (fun s => (s, name)) cs /\
  outside r' = w' /\
  forall other, other <> name -> progress r' !! other = progress r !! other.
Proof.
  unfold live, the_chain, run_chain, verdict.
  destruct (socal name (outside r)) as [[img1 src1] w1]. cbn [fst snd].
  destruct (truthy img1).
  { cbn. rewrite lookup_insert_eq. repeat split.
    intros other Hne. now rewrite lookup_insert_ne. }
  destruct (accs name w1) as [[img2 src2] w2]. cbn [fst snd].
  destruct (bool_decide (img2 = Some "AMBIGUOUS")).
  { cbn. rewrite lookup_insert_eq. repeat split.
    intros other Hne. now rewrite lookup_insert_ne. }
  destruct (truthy img2).
  { cbn. rewrite lookup_insert_eq. repeat split.
    intros other Hne. now rewrite lookup_insert_ne. }
  destruct (acs name w2) as [[img3 src3] w3]. cbn [fst snd].
  destruct (truthy img3).
  { cbn. rewrite lookup_insert_eq. repeat split.
    intros other Hne. now rewrite lookup_insert_ne. }
  destruct (icr name w3) as [[img4 src4] w4]. cbn [fst snd].
  destruct (truthy img4); cbn; rewrite lookup_insert_eq; repeat split;
    intros other Hne; now rewrite lookup_insert_ne.
Qed.

(** A verdict is [Found] with the image and the source the strategy
    returned, or [Ambiguous] from the second strategy; there is none exactly
    when the strategy returned no image. *)
Lemma verdict_cases (s : strategy) (p : presult) :
  match verdict s p with
  | Some (Found img src) => truthy p.1 = true /\ p.1 = Some img /\ src = p.2
  | Some (Ambiguous reason) =>
      s = S_accs /\ p.1 = Some "AMBIGUOUS" /\ reason = "ambiguous ACCS match"
  | Some Missing => False
  | None => truthy p.1 = false
  end.
Proof.
  destruct p as [img src]. unfold verdict. cbn [fst snd].
  assert (match (if truthy img then Some (Found (default "" img) src)
                 else None) with
          | Some (Found i s') => truthy img = true /\ img = Some i /\ s' = src
          | Some (Ambiguous reason) =>
              s = S_accs /\ img = Some "AMBIGUOUS"
              /\ reason = "ambiguous ACCS match"
          | Some Missing => False
          | None => truthy img = false
          end) as Hplain.
  { destruct img as [u|]; [|reflexivity].
    destruct (truthy (Some u)); cbn; now repeat split. }
  destruct s; try exact Hplain.
  destruct (bool_decide (img = Some "AMBIGUOUS")) eqn:Ea; [|exact Hplain].
  apply bool_decide_eq_true_1 in Ea. now repeat split.
Qed.
End ChainFacts.

Section StrategyFacts.
Import ImageEnrich.
Context `{Env}.

(** *** The tags of the four strategies *)

Definition tag_of (s : strategy) : string :=
  match s with
  | S_socal => "socal"
  | S_accs => "accs"
  | S_acs => "acs"
  | S_icr => "icr"
  end.

(** The strategy of the script at each place of the chain. *)
Definition strategy_fn (s : strategy) : string -> world -> presult * world :=
  match s with
  | S_socal => try_socal
  | S_accs => try_accs_search
  | S_acs => try_acs
  | S_icr => try_icr
  end.

(** Nothing, or an image under the given tag. *)
Definition tagged (tag : string) (p : presult) : Prop :=
  p = (None, None) \/ exists u, p = (Some u, Some tag).

Lemma socal_live_tagged names w : tagged "socal" (socal_live names w).1.
Proof.
  revert w. induction names as [|n names IH]; intros w; simpl.
  - now left.
  - destruct (socal_head _ _) as [[code|e] d]; [|apply IH].
    destruct code as [|code|code]; try apply IH.
    repeat (destruct code as [code|code|]; try apply IH).
    right. eauto.
Qed.

Lemma accs_names_tagged names w :
  tagged "accs" (try_accs_names names w).1 \/
  (try_accs_names names w).1 = (Some "AMBIGUOUS", None).
Proof.
  revert w. induction names as [|n names IH]; intros w; simpl.
  - left. now left.
  - destruct (accs_search _ _) as [[imgs|e] d]; [|apply IH].
    destruct imgs as [|i imgs]; [apply IH|].
    destruct (find _ _); [left; right; eauto|now right].
Qed.

Lemma icr_live_tagged names w : tagged "icr" (icr_live names w).1.
Proof.
  revert w. induction names as [|n names IH]; intros w; simpl.
  - now left.
  - destruct (icr_api _ _) as [[resp|e] d]; [|apply IH].
    destruct (_ || _); [now left|].
    destruct (icr_data resp) as [[|p0 ps]|e]; try apply IH.
    destruct (negb _); [right; eauto|apply IH].
Qed.

(** Whenever a strategy of the script returns an image that [main] takes as
    found, the source it returns is its own tag. *)
Lemma found_source_is_tag (s : strategy) (name : string) (w : world)
    (img : string) (src : option string) :
  verdict s (strategy_fn s name w).1 = Some (Found img src) ->
  src = Some (tag_of s).
Proof.
  intros Hv. pose proof (verdict_cases s (strategy_fn s name w).1) as Hc.
  rewrite Hv in Hc. destruct Hc as (Ht & Himg & ->).
  destruct s; cbn [strategy_fn tag_of] in *.
  - unfold try_socal in *.
    destruct (truthy (cached_for load_socal_cache name)); [reflexivity|].
    destruct (socal_live_tagged (fromkeys2 (normalize_name name) name) w)
      as [E|[u E]].
    + rewrite E in Ht. discriminate.
    + now rewrite E.
  - unfold try_accs_search in *.
    destruct (accs_names_tagged (fromkeys2 (normalize_name name) name) w)
      as [[E|[u E]]|E].
    + rewrite E in Ht. discriminate.
    + now rewrite E.
    + rewrite E in Hv. unfold verdict in Hv. cbn in Hv. discriminate.
  - unfold try_acs in *.
    destruct (if bool_decide _ then _ else _); [|discriminate].
    destruct (acs_page _ _) as [[[u|]|e] d]; try discriminate. reflexivity.
  - unfold try_icr in *.
    destruct (truthy (cached_for load_icr_cache name)); [reflexivity|].
    match goal with
    | |- context [icr_live ?ns ?w1] =>
        destruct (icr_live_tagged ns w1) as [E|[u E]]
    end.
    + rewrite E in Ht. discriminate.
    + now rewrite E.
Qed.
(** *** Requests sent by the live paths *)

Lemma fromkeys2_cons (a b : string) :
  exists more, fromkeys2 a b = a :: more.
Proof. unfold fromkeys2. destruct (decide (a = b)); eauto. Qed.

Lemma socal_live_trace names w :
  exists more, trace (socal_live names w).2 = trace w ++ more.
Proof.
  revert w. induction names as [|n names IH]; intros w; simpl.
  - exists []. now rewrite app_nil_r.
  - destruct (socal_head _ _) as [r d].
    match goal with
    | |- context [send w Socal ?u d] =>
        destruct (IH (send w Socal u d)) as [more Hmore];
        assert (exists more', trace (send w Socal u d) ++ more
                              = trace w ++ more') as [more' Hm']
          by (cbn; rewrite <- app_assoc; eauto)
    end.
    destruct r as [code|e]; [|rewrite Hmore; eauto].
    destruct code as [|code|code]; try (rewrite Hmore; eauto).
    repeat (destruct code as [code|code|]; try (rewrite Hmore; eauto)).
    cbn. eauto.
Qed.

Lemma socal_live_first (n : string) names w :
  exists e rest,
    trace (socal_live (n :: names) w).2 = trace w ++ e :: rest /\
    sent_to e = Socal /\ sent_at e = now w.
Proof.
  simpl. destruct (socal_head _ _) as [r d].
  match goal with
  | |- context [send w Socal ?u d] =>
      destruct (socal_live_trace names (send w Socal u d)) as [more Hmore];
      exists (Event (now w) Socal u)
  end.
  destruct r as [code|e];
    [|exists more; rewrite Hmore; cbn; rewrite <- app_assoc; easy].
  destruct code as [|code|code];
    try (exists more; rewrite Hmore; cbn; rewrite <- app_assoc; easy).
  repeat (destruct code as [code|code|];
    try (exists more; rewrite Hmore; cbn; rewrite <- app_assoc; easy)).
  exists []. cbn. easy.
Qed.

Lemma icr_live_trace names w :
  exists more, trace (icr_live names w).2 = trace w ++ more.
Proof.
  revert w. induction names as [|n names IH]; intros w; simpl.
  - exists []. now rewrite app_nil_r.
  - destruct (icr_api _ _) as [r d].
    destruct (IH (send (stamp_icr w) Icr n d)) as [more Hmore].
    assert (exists more', trace (send (stamp_icr w) Icr n d) ++ more
                          = trace w ++ more') as [more' Hm']
      by (cbn; rewrite <- app_assoc; eauto).
    assert (exists more'', trace (send (stamp_icr w) Icr n d)
                           = trace w ++ more'') as Hstop by (cbn; eauto).
    destruct r as [resp|e]; [|rewrite Hmore; eauto].
    destruct (_ || _); [exact Hstop|].
    destruct (icr_data resp) as [[|p0 ps]|e]; try (rewrite Hmore; eauto).
    destruct (negb _); [exact Hstop|rewrite Hmore; eauto].
Qed.

(** The first name of the list is asked of the ICR API at once. *)
Lemma icr_live_first (n : string) names w :
  exists rest,
    trace (icr_live (n :: names) w).2 = trace w ++ Event (now w) Icr n :: rest.
Proof.
  simpl. destruct (icr_api _ _) as [r d].
  destruct (icr_live_trace names (send (stamp_icr w) Icr n d))
    as [more Hmore].
  assert (trace (send (stamp_icr w) Icr n d) ++ more
          = trace w ++ Event (now w) Icr n :: more) as Hm
    by (cbn; now rewrite <- app_assoc).
  assert (trace (send (stamp_icr w) Icr n d)
          = trace w ++ [Event (now w) Icr n]) as Hstop by reflexivity.
  destruct r as [resp|e]; [|rewrite Hmore; eauto].
  destruct (_ || _); [eauto|].
  destruct (icr_data resp) as [[|p0 ps]|e]; try (rewrite Hmore; eauto).
  destruct (negb _); [eauto|rewrite Hmore; eauto].
Qed.

Lemma icr_live_raise (n : string) names w (e : exn) (d : N) :
  icr_api n (now w) = (Raise e, d) ->
  icr_live (n :: names) w = icr_live names (send (stamp_icr w) Icr n d).
Proof.
  intros Hfirst. simpl. change (now (stamp_icr w)) with (now w).
  now rewrite Hfirst.
Qed.

(** When the first of two names gets no image because the call raises, the
    second is asked as soon as the first call returns: no sleep lies between
    the two requests of one [try_icr]. *)
Lemma icr_live_second_at_once (n1 n2 : string) w (e : exn) (d : N) :
  icr_api n1 (now w) = (Raise e, d) ->
  exists rest,
    trace (icr_live [n1; n2] w).2 =
    trace w ++ [Event (now w) Icr n1; Event (now w + Z.of_N d) Icr n2] ++ rest.
Proof.
  intros Hfirst. rewrite (icr_live_raise _ _ _ _ _ Hfirst).
  destruct (icr_live_first n2 [] (send (stamp_icr w) Icr n1 d)) as [rest Hr].
  exists rest. rewrite Hr. cbn. now rewrite <- app_assoc.
Qed.
(** *** Cached values that are null or empty *)

(** The key is not in the cache, or maps to [None] or to [""]. *)
Definition falsy_or_absent (cache : gmap string (option string))
    (k : string) : Prop :=
  cache !! k = None \/ cache !! k = Some None \/ cache !! k = Some (Some "").

Lemma falsy_cache_get cache k :
  falsy_or_absent cache k -> truthy (cache_get cache k) = false.
Proof.
  unfold cache_get. intros [->|[->| ->]]; reflexivity.
Qed.

Lemma truthy_cache_get cache k url :
  cache !! k = Some (Some url) -> url <> "" ->
  truthy (cache_get cache k) = true /\ cache_get cache k = Some url.
Proof.
  unfold cache_get. intros -> Hne. cbn. split; [|reflexivity].
  destruct (String.eqb_spec url ""); [contradiction|reflexivity].
Qed.

Lemma cached_for_falsy cache name :
  falsy_or_absent cache (strip (lower (normalize_name name))) ->
  falsy_or_absent cache (strip (lower name)) ->
  truthy (cached_for cache name) = false.
Proof.
  intros H1 H2. unfold cached_for, py_or.
  rewrite (falsy_cache_get _ _ H1). now apply falsy_cache_get.
Qed.

Lemma cached_for_truthy cache name url :
  url <> "" ->
  cache !! strip (lower (normalize_name name)) = Some (Some url) \/
  (falsy_or_absent cache (strip (lower (normalize_name name))) /\
   cache !! strip (lower name) = Some (Some url)) ->
  truthy (cached_for cache name) = true /\ cached_for cache name = Some url.
Proof.
  intros Hne [H1|[H1 H2]]; unfold cached_for, py_or.
  - destruct (truthy_cache_get _ _ _ H1 Hne) as [Ht Hc].
    rewrite Ht. now split.
  - rewrite (falsy_cache_get _ _ H1). now apply truthy_cache_get.
Qed.

(** C9.  In [try_socal] and in [try_icr], for the two keys looked up for a
    name (the normalized name and the name, lowered and stripped): when each
    key is absent from the cache or maps to null or to the empty string, the
    function takes its live path, the one an empty cache leads to, and sends
    a request for the name (a HEAD request at the current time for
    [try_socal], an ICR API query for the normalized name for [try_icr]);
    when a key maps to a non-empty URL (the first key, or the second when the
    first is absent, null or empty), that URL is returned under the
    strategy's tag and the world, its request trace included, is left as it
    was. *)
Theorem negative_cache_entries_are_misses (name : string) (w : world) :
  let k1 := strip (lower (normalize_name name)) in
  let k2 := strip (lower name) in
  let variants := fromkeys2 (normalize_name name) name in
  let waited :=
    if now w - last_icr_time w <? ICR_DELAY
    then sleep w (ICR_DELAY - (now w - last_icr_time w)) else w in
  (falsy_or_absent load_socal_cache k1 ->
   falsy_or_absent load_socal_cache k2 ->
     try_socal name w = socal_live variants w /\
     exists e rest,
       trace (try_socal name w).2 = trace w ++ e :: rest /\
       sent_to e = Socal /\ sent_at e = now w) /\
  (forall url, url <> "" ->
     load_socal_cache !! k1 = Some (Some url) \/
     (falsy_or_absent load_socal_cache k1 /\
      load_socal_cache !! k2 = Some (Some url)) ->
     try_socal name w = ((Some url, Some "socal"), w)) /\
  (falsy_or_absent load_icr_cache k1 ->
   falsy_or_absent load_icr_cache k2 ->
     try_icr name w = icr_live variants waited /\
     exists rest,
       trace (try_icr name w).2 =
       trace w ++ Event (now waited) Icr (normalize_name name) :: rest) /\
  (forall url, url <> "" ->
     load_icr_cache !! k1 = Some (Some url) \/
     (falsy_or_absent load_icr_cache k1 /\
      load_icr_cache !! k2 = Some (Some url)) ->
     try_icr name w = ((Some url, Some "icr"), w)).
Proof.
  intros k1 k2 variants waited. split; [|split; [|split]].
  - intros H1 H2. unfold try_socal.
    rewrite (cached_for_falsy _ _ H1 H2). split; [reflexivity|].
    subst variants.
    destruct (fromkeys2_cons (normalize_name name) name) as [more ->].
    apply socal_live_first.
  - intros url Hne Hhit. unfold try_socal.
    destruct (cached_for_truthy _ name url Hne Hhit) as [-> ->].
    reflexivity.
  - intros H1 H2. unfold try_icr.
    rewrite (cached_for_falsy _ _ H1 H2). fold waited variants.
    split; [reflexivity|]. subst variants.
    destruct (fromkeys2_cons (normalize_name name) name) as [more ->].
    destruct (icr_live_first (normalize_name name) more waited)
      as [rest Hrest].
    exists rest. rewrite Hrest. f_equal. subst waited.
    destruct (now w - last_icr_time w <? ICR_DELAY); reflexivity.
  - intros url Hne Hhit. unfold try_icr.
    destruct (cached_for_truthy _ name url Hne Hhit) as [-> ->].
    reflexivity.
Qed.
End StrategyFacts.

(** *** The chain of [main] *)

(** C5, as the code has it.  For every unit processed live, over any four
    strategies: the chain stops at the first strategy whose result [main]
    takes as found or ambiguous, the entry stored is that verdict, the
    strategies called are those up to it and no later one, and the world is
    the one that strategy left; a result with no image (not found, or an
    error swallowed by the strategy) makes the next strategy be tried, and
    when all four give none the entry is [Missing].  A [Found] entry carries
    the image and the source the strategy returned, and for the strategies
    of the script that source is the strategy's own tag; an [Ambiguous]
    entry comes from the second strategy alone and carries a reason and no
    source tag.  In particular, when strategy 1 finds nothing and strategy 2
    finds an image, the entry has strategy 2's tag and strategies 3 and 4
    are not called. *)
Theorem strategy_chain_first_verdict :
  (forall (W : Type)
          (socal accs acs icr : string -> W -> ImageEnrich.presult * W)
          (name : string) (r : ImageEnrich.run (W := W)),
      let p1 := socal name (ImageEnrich.outside r) in
      let p2 := accs name p1.2 in
      let p3 := acs name p2.2 in
      let p4 := icr name p3.2 in
      let r' := ImageEnrich.live socal accs acs icr name r in
      let called (l : list ImageEnrich.strategy) :=
        ImageEnrich.calls r'
        = ImageEnrich.calls r ++ map (fun s => (s, name)) l in
      let S1 := ImageEnrich.S_socal in
      let S2 := ImageEnrich.S_accs in
      let S3 := ImageEnrich.S_acs in
      let S4 := ImageEnrich.S_icr in
      (forall e, verdict S1 p1.1 = Some e ->
         ImageEnrich.progress r' !! name = Some e /\
         called [S1] /\ ImageEnrich.outside r' = p1.2) /\
      (verdict S1 p1.1 = None ->
       forall e, verdict S2 p2.1 = Some e ->
         ImageEnrich.progress r' !! name = Some e /\
         called [S1; S2] /\ ImageEnrich.outside r' = p2.2) /\
      (verdict S1 p1.1 = None -> verdict S2 p2.1 = None ->
       forall e, verdict S3 p3.1 = Some e ->
         ImageEnrich.progress r' !! name = Some e /\
         called [S1; S2; S3] /\ ImageEnrich.outside r' = p3.2) /\
      (verdict S1 p1.1 = None -> verdict S2 p2.1 = None ->
       verdict S3 p3.1 = None ->
       forall e, verdict S4 p4.1 = Some e ->
         ImageEnrich.progress r' !! name = Some e /\
         called [S1; S2; S3; S4] /\ ImageEnrich.outside r' = p4.2) /\
      (verdict S1 p1.1 = None -> verdict S2 p2.1 = None ->
       verdict S3 p3.1 = None -> verdict S4 p4.1 = None ->
         ImageEnrich.progress r' !! name = Some ImageEnrich.Missing /\
         called [S1; S2; S3; S4] /\ ImageEnrich.outside r' = p4.2)) /\
  (forall (s : ImageEnrich.strategy) (p : ImageEnrich.presult),
      match verdict s p with
      | Some (ImageEnrich.Found img src) =>
          truthy p.1 = true /\ p.1 = Some img /\ src = p.2
      | Some (ImageEnrich.Ambiguous reason) =>
          s = ImageEnrich.S_accs /\ p.1 = Some "AMBIGUOUS" /\
          reason = "ambiguous ACCS match" /\
          source_tag (ImageEnrich.Ambiguous reason) = None
      | Some ImageEnrich.Missing => False
      | None => truthy p.1 = false
      end) /\
  (forall (E : ImageEnrich.Env) (s : ImageEnrich.strategy) (name : string)
          (w : ImageEnrich.world) (img : string) (src : option string),
      verdict s (strategy_fn s name w).1 = Some (ImageEnrich.Found img src) ->
      source_tag (ImageEnrich.Found img src) = Some (tag_of s)).
Proof.
  split; [|split].
  - intros W socal accs acs icr name r p1 p2 p3 p4 r' called S1 S2 S3 S4.
    pose proof (live_run_chain socal accs acs icr name r) as L.
    unfold the_chain, run_chain in L. subst p1 p2 p3 p4 r' called S1 S2 S3 S4.
    destruct (socal name (ImageEnrich.outside r)) as [q1 w1].
    cbn [fst snd] in *.
    destruct (verdict ImageEnrich.S_socal q1) as [e1|].
    { cbn in L. repeat split; intros; try discriminate;
        repeat match goal with
               | Hs : Some _ = Some _ |- _ => injection Hs as <-
               end; apply L. }
    destruct (accs name w1) as [q2 w2]. cbn [fst snd] in *.
    destruct (verdict ImageEnrich.S_accs q2) as [e2|].
    { cbn in L. repeat split; intros; try discriminate;
        repeat match goal with
               | Hs : Some _ = Some _ |- _ => injection Hs as <-
               end; apply L. }
    destruct (acs name w2) as [q3 w3]. cbn [fst snd] in *.
    destruct (verdict ImageEnrich.S_acs q3) as [e3|].
    { cbn in L. repeat split; intros; try discriminate;
        repeat match goal with
               | Hs : Some _ = Some _ |- _ => injection Hs as <-
               end; apply L. }
    destruct (icr name w3) as [q4 w4]. cbn [fst snd] in *.
    destruct (verdict ImageEnrich.S_icr q4) as [e4|];
      cbn in L; repeat split; intros; try discriminate;
        repeat match goal with
               | Hs : Some _ = Some _ |- _ => injection Hs as <-
               end; apply L.
  - intros s p. pose proof (verdict_cases s p) as Hc.
    destruct (verdict s p) as [[img src|reason|]|]; try exact Hc.
    destruct Hc as (Hs & Hp & Hr). now repeat split.
  - intros E s name w img src Hv. cbn [source_tag].
    exact (found_source_is_tag s name w img src Hv).
Qed.

(** *** Runs of the strategies on small worlds *)

(** No cache, no index; the SoCal site answers 404, the ACCS search lists
    one image under another name, and the ICR API answers at once with no
    photo. *)
Definition near_miss_env : ImageEnrich.Env :=
  {| ImageEnrich.socal_cache_file := [];
     ImageEnrich.icr_cache_file := [];
     ImageEnrich.acs_index_file := [];
     ImageEnrich.quote := fun s => s;
     ImageEnrich.socal_head := fun _ _ =>
       (Raise (Exn Transport "HTTP Error 404: Not Found"), 200%N);
     ImageEnrich.accs_search := fun _ _ =>
       (Ok [("images/Rose Red.jpg", "Rose Red")], 400%N);
     ImageEnrich.acs_page := fun _ _ => (Ok None, 500%N);
     ImageEnrich.icr_api := fun _ _ =>
       (Ok (ImageEnrich.IcrResponse 200 (Ok [])), 300%N) |}.

(** The caches hold the name with a null, and with an empty, value. *)
Definition negative_env : ImageEnrich.Env :=
  {| ImageEnrich.socal_cache_file := [("Rose", None)];
     ImageEnrich.icr_cache_file := [("Rose", Some "")];
     ImageEnrich.acs_index_file := [];
     ImageEnrich.quote := fun s => s;
     ImageEnrich.socal_head := fun _ _ => (Ok 200, 200%N);
     ImageEnrich.accs_search := fun _ _ => (Ok [], 400%N);
     ImageEnrich.acs_page := fun _ _ => (Ok None, 500%N);
     ImageEnrich.icr_api := fun _ _ =>
       (Ok (ImageEnrich.IcrResponse 200 (Ok [])), 300%N) |}.

(** A process 100 s after the epoch that has not asked the ICR API yet. *)
Definition morning : ImageEnrich.world :=
  {| ImageEnrich.now := 100000; ImageEnrich.last_icr_time := 0;
     ImageEnrich.trace := [] |}.

(** C5 as stated fails where the chain stops on an ambiguous result: the
    entry stored for the unit has no source tag, so its tag is not the tag of
    the strategy that stopped the chain. *)
Lemma ambiguous_entry_has_no_source_tag :
  let r := ImageEnrich.main (H := near_miss_env) ["Rose"] None morning in
  ImageEnrich.progress r !! "Rose"
    = Some (ImageEnrich.Ambiguous "ambiguous ACCS match") /\
  ImageEnrich.calls r
    = [(ImageEnrich.S_socal, "Rose"); (ImageEnrich.S_accs, "Rose")] /\
  (source_tag <$> ImageEnrich.progress r !! "Rose")
    <> Some (Some (tag_of ImageEnrich.S_accs)).
Proof. vm_compute. repeat split. discriminate. Qed.

Lemma strategy_chain_first_verdict_witness :
  let r := ImageEnrich.start (W := ImageEnrich.world) None morning in
  let r' := ImageEnrich.live
              (ImageEnrich.try_socal (H := near_miss_env))
              (ImageEnrich.try_accs_search (H := negative_env))
              (ImageEnrich.try_acs (H := near_miss_env))
              (ImageEnrich.try_icr (H := near_miss_env)) "Rose" r in
  ImageEnrich.progress r' !! "Rose" = Some ImageEnrich.Missing /\
  ImageEnrich.calls r'
    = ImageEnrich.calls r ++
      map (fun s => (s, "Rose"))
        [ImageEnrich.S_socal; ImageEnrich.S_accs; ImageEnrich.S_acs;
         ImageEnrich.S_icr] /\
  ImageEnrich.outside r'
    = (ImageEnrich.try_icr (H := near_miss_env) "Rose"
         (ImageEnrich.try_acs (H := near_miss_env) "Rose"
            (ImageEnrich.try_accs_search (H := negative_env) "Rose"
               (ImageEnrich.try_socal (H := near_miss_env) "Rose"
                  morning).2).2).2).2.
Proof.
  intros r r'.
  destruct (proj1 strategy_chain_first_verdict ImageEnrich.world
              (ImageEnrich.try_socal (H := near_miss_env))
              (ImageEnrich.try_accs_search (H := negative_env))
              (ImageEnrich.try_acs (H := near_miss_env))
              (ImageEnrich.try_icr (H := near_miss_env)) "Rose" r)
    as (_ & _ & _ & _ & Hmissing).
  apply Hmissing; reflexivity.
Defined.

(** C9 on a run: with a null SoCal entry and an empty ICR entry for the
    name, both functions go to the network. *)
Lemma negative_cache_entries_are_misses_witness :
  (exists e rest,
     ImageEnrich.trace
       (ImageEnrich.try_socal (H := negative_env) "Rose" morning).2
     = ImageEnrich.trace morning ++ e :: rest /\
     ImageEnrich.sent_to e = ImageEnrich.Socal /\
     ImageEnrich.sent_at e = ImageEnrich.now morning) /\
  (exists rest,
     ImageEnrich.trace
       (ImageEnrich.try_icr (H := negative_env) "Rose" morning).2
     = ImageEnrich.trace morning ++
       ImageEnrich.Event 100000 ImageEnrich.Icr "Rose" :: rest).
Proof.
  destruct (negative_cache_entries_are_misses (H := negative_env) "Rose"
              morning) as (Hsocal & _ & Hicr & _).
  split.
  - apply Hsocal; right; left; reflexivity.
  - apply Hicr; right; right; reflexivity.
Defined.

(** C3, at the input where the code leaves the spacing.  For a name that
    [normalize_name] changes and that no cache holds, [try_icr] asks the ICR
    API for the normalized name and, as that gives no photo, for the name as
    given: the second request leaves 300 ms after the first, the time the
    first call took, not [ICR_DELAY] after it. *)
Lemma icr_variants_sent_back_to_back :
  ImageEnrich.normalize_name "Aaron'S Ruby" = "Aaron's Ruby" /\
  map (fun e => (ImageEnrich.sent_at e, ImageEnrich.sent_to e,
                 ImageEnrich.sent_for e))
      (ImageEnrich.trace
         (ImageEnrich.try_icr (H := near_miss_env) "Aaron'S Ruby"
            morning).2)
  = [(100000, ImageEnrich.Icr, "Aaron's Ruby");
     (100300, ImageEnrich.Icr, "Aaron'S Ruby")] /\
  100300 - 100000 < ImageEnrich.ICR_DELAY.
Proof. vm_compute. repeat split. Qed.

(** ** acs_audit.py: [apply_fixes] *)

Section AcsAuditFacts.
Import AcsAudit.

(** The value [apply_fixes] writes for a name: the recovered URL when the
    recovery succeeded, null otherwise. *)
Definition fix_value (recs : gmap string recovery) (nm : string) : json :=
  match recs !! nm with
  | Some rec => if recovered rec then JStr (new_url rec) else JNull
  | None => JNull
  end.

Lemma name_to_idx_sound (data : list entry) (nm : string) (i : nat) :
  name_to_idx data !! nm = Some i ->
  exists e, data !! i = Some e /\ name e = nm.
Proof.
  unfold name_to_idx.
  assert (forall (l : list (nat * entry)) (m : gmap string nat),
            (forall ie, ie ∈ l -> data !! ie.1 = Some ie.2) ->
            (forall n j, m !! n = Some j ->
                         exists e, data !! j = Some e /\ name e = n) ->
            forall n j,
              foldl (fun m ie => <[name ie.2 := ie.1]> m) m l !! n = Some j ->
              exists e, data !! j = Some e /\ name e = n) as Hgen.
  { induction l as [|ie l IH]; intros m Hl Hm n j; [apply Hm|].
    simpl. apply IH.
    - intros ie' Hin. apply Hl. now right.
    - intros n' j' Hlook.
      destruct (decide (name ie.2 = n')) as [<-|Hne].
      + rewrite lookup_insert_eq in Hlook. injection Hlook as <-.
        exists ie.2. split; [apply Hl; left|reflexivity].
      + rewrite lookup_insert_ne in Hlook by exact Hne. now apply Hm. }
  apply Hgen.
  - intros [j e] Hin. apply list_elem_of_lookup in Hin as [k Hk].
    rewrite list_lookup_imap in Hk.
    destruct (data !! k) eqn:E; [|discriminate].
    cbn in Hk. injection Hk as <- <-. exact E.
  - intros n j Hlook. rewrite lookup_empty in Hlook. discriminate.
Qed.

Lemma set_acs_url_twice (v : json) (e : entry) :
  set_acs_url v (set_acs_url v e) = set_acs_url v e.
Proof. unfold set_acs_url. cbn. now rewrite insert_insert_eq. Qed.

(** What one turn does to the dataset. *)
Lemma fix_one_data n2i recs acc nm a :
  data_out (fix_one n2i recs acc (nm, a)) =
  if decide (a_action a <> needs_fix) then data_out acc
  else match n2i !! nm with
       | Some idx => alter (set_acs_url (fix_value recs nm)) idx (data_out acc)
       | None => data_out acc
       end.
Proof.
  unfold fix_one, fix_value.
  destruct (decide (a_action a <> needs_fix)); [reflexivity|].
  destruct (n2i !! nm); [|reflexivity].
  destruct (recs !! nm) as [rec|]; [|reflexivity].
  destruct (recovered rec); reflexivity.
Qed.

(** After the turns for [done]: every entry is as it was, or is the last of
    its name, has a [needs_fix] audit among [done], and differs by the value
    written to [acs_url]. *)
Definition fixed_so_far (data : list entry) (recs : gmap string recovery)
    (done : list (string * audit)) (out : list entry) : Prop :=
  length out = length data /\
  forall i e, data !! i = Some e ->
    exists e', out !! i = Some e' /\
      (e' = e \/
       exists a, (name e, a) ∈ done /\ a_action a = needs_fix /\
                 name_to_idx data !! name e = Some i /\
                 e' = set_acs_url (fix_value recs (name e)) e).

Lemma fixed_so_far_step data recs done acc nm a :
  fixed_so_far data recs done (data_out acc) ->
  fixed_so_far data recs (done ++ [(nm, a)])
    (data_out (fix_one (name_to_idx data) recs acc (nm, a))).
Proof.
  intros [Hlen Hall]. rewrite fix_one_data.
  assert (fixed_so_far data recs (done ++ [(nm, a)]) (data_out acc)) as Hsame.
  { split; [exact Hlen|]. intros i e He.
    destruct (Hall i e He) as (e' & He' & [->|(a' & Hin & Hrest)]).
    - exists e. split; [exact He'|now left].
    - exists e'. split; [exact He'|]. right. exists a'.
      split; [apply elem_of_app; now left|exact Hrest]. }
  destruct (decide (a_action a <> needs_fix)) as [|Hfix]; [exact Hsame|].
  assert (a_action a = needs_fix) as Hneeds
    by (destruct (a_action a); [exfalso; apply Hfix; discriminate|easy]).
  destruct (name_to_idx data !! nm) as [idx|] eqn:Hidx; [|exact Hsame].
  destruct (name_to_idx_sound data nm idx Hidx) as (e0 & He0 & Hname).
  split; [now rewrite length_alter|].
  intros i e He. destruct (decide (i = idx)) as [->|Hne].
  - rewrite He0 in He. injection He as <-.
    destruct (Hall idx e0 He0) as (e' & He' & Hcase).
    exists (set_acs_url (fix_value recs nm) e0). split.
    + rewrite list_lookup_alter_eq, He'. cbn. f_equal.
      destruct Hcase as [->|(a' & _ & _ & _ & ->)]; [reflexivity|].
      rewrite Hname. apply set_acs_url_twice.
    + right. exists a. rewrite Hname. repeat split; try assumption.
      apply elem_of_app. right. now apply list_elem_of_singleton.
  - destruct (Hall i e He) as (e' & He' & Hcase).
    exists e'. split; [now rewrite list_lookup_alter_ne|].
    destruct Hcase as [->|(a' & Hin & Hrest)]; [now left|].
    right. exists a'. split; [apply elem_of_app; now left|exact Hrest].
Qed.

Lemma fixed_so_far_fold data recs rest done acc :
  fixed_so_far data recs done (data_out acc) ->
  fixed_so_far data recs (done ++ rest)
    (data_out (foldl (fix_one (name_to_idx data) recs) acc rest)).
Proof.
  revert done acc. induction rest as [|[nm a] rest IH]; intros done acc Hinv.
  - now rewrite app_nil_r.
  - simpl. replace (done ++ (nm, a) :: rest) with ((done ++ [(nm, a)]) ++ rest)
      by now rewrite <- app_assoc.
    apply IH. now apply fixed_so_far_step.
Qed.
End AcsAuditFacts.

Section ApplyFixesFrame.
Import AcsAudit.

(** C10.  [apply_fixes] keeps the length and the order of the dataset.
    Every entry keeps its name and every field other than [acs_url].  An
    entry is either left as it was, or its name has an audit result whose
    action is [needs_fix] and its [acs_url] has become the recovered URL when
    the recovery of that name succeeded and null otherwise.  An entry whose
    name has no audit result, or only one whose action is [ok], is left as it
    was. *)
Theorem apply_fixes_frame (data : list entry)
    (audit_results : list (string * audit))
    (recovery_results : gmap string recovery) :
  let out := data_out (apply_fixes data audit_results recovery_results) in
  length out = length data /\
  forall i e, data !! i = Some e ->
    exists e', out !! i = Some e' /\
      name e' = name e /\
      (forall k, k <> "acs_url" -> fields e' !! k = fields e !! k) /\
      (e' = e \/
       exists a, (name e, a) ∈ audit_results /\ a_action a = needs_fix /\
         fields e' !! "acs_url"
           = Some (fix_value recovery_results (name e))) /\
      ((forall a, (name e, a) ∈ audit_results -> a_action a = act_ok) ->
       e' = e).
Proof.
  intros out.
  destruct (fixed_so_far_fold data recovery_results audit_results []
              {| data_out := data; fixed := []; cleared := [] |})
    as [Hlen Hall].
  { split; [reflexivity|]. intros i e He. exists e. split; [exact He|].
    now left. }
  split; [exact Hlen|]. intros i e He.
  destruct (Hall i e He) as (e' & He' & Hcase). exists e'.
  split; [exact He'|].
  destruct Hcase as [->|(a & Hin & Hfix & _ & ->)].
  - repeat split. now left.
  - repeat split.
    + intros k Hk. cbn. now rewrite lookup_insert_ne.
    + right. exists a. repeat split; [exact Hin|exact Hfix|].
      cbn. now rewrite lookup_insert_eq.
    + intros Hok. specialize (Hok a Hin). congruence.
Qed.

(** Two entries; the audit asks to fix the first and finds the second well;
    the recovery of the first failed. *)
Definition two_entries : list entry :=
  [Entry "Alba" {["acs_url" := JStr "https://acs/alba"; "species" := JStr "C. japonica"]};
   Entry "Bella" {["acs_url" := JStr "https://acs/bella"]}].

Definition two_audits : list (string * audit) :=
  [("Alba", Audit (Some 404) None false 0 "https://acs/alba" needs_fix);
   ("Bella", Audit (Some 200) None true 1 "https://acs/bella" act_ok)].

Lemma apply_fixes_frame_witness :
  data_out (apply_fixes two_entries two_audits ∅) !! 1%nat
  = Some (Entry "Bella" {["acs_url" := JStr "https://acs/bella"]}).
Proof.
  destruct (proj2 (apply_fixes_frame two_entries two_audits ∅) 1%nat
              (Entry "Bella" {["acs_url" := JStr "https://acs/bella"]})
              eq_refl) as (e' & He' & _ & _ & _ & Hkept).
  rewrite He'. f_equal. apply Hkept.
  intros a Hin. unfold two_audits in Hin.
  apply elem_of_cons in Hin as [Hin|Hin]; [discriminate|].
  apply list_elem_of_singleton in Hin. injection Hin as ->. reflexivity.
Defined.
End ApplyFixesFrame.

(** ** The probes *)

Lemma check_valid_iff (status n : Z) :
  bool_decide (status = 200) && bool_decide (0 < n) = true <->
  status = 200 /\ 0 < n.
Proof. now rewrite andb_true_iff, !bool_decide_eq_true. Qed.

Lemma check_invalid (status n : Z) :
  status <> 200 ->
  bool_decide (status = 200) && bool_decide (0 < n) = false.
Proof. intros Hne. now rewrite bool_decide_eq_false_2. Qed.

(** C8.  [fetch_one] returns a result for every URL and every outcome of the
    request: a raised exception (a timeout among them) gives status
    [failed] with no HTTP status and the text of the exception, a status
    other than 200 gives [failed] with that status, and only a 200 answer
    gives [ok] or [missing]; so no turn of the loop of [main] sets the
    exception that ends the run.  [check_url] returns a dictionary for every
    URL and every outcome: an exception raised by the request, or while the
    body is read, gives an invalid result with no status and an error text
    (["timeout"] for a timeout); an answer gives its status and no error
    text, and is invalid unless the status is 200 and the content is not
    empty. *)
Theorem probe_error_containment :
  (forall (E : EnrichIcr.Env) (url : string) (tmo t : Z),
      exists r, (EnrichIcr.fetch_one url tmo t).1 = Ok r /\
        match (EnrichIcr.session_get url tmo t).1 with
        | Raise e =>
            EnrichIcr.status r = EnrichIcr.failed /\
            EnrichIcr.http_status r = None /\
            EnrichIcr.error r = str_exn e /\
            EnrichIcr.chinese_name r = []
        | Ok resp =>
            EnrichIcr.http_status r = Some (EnrichIcr.status_code resp) /\
            (EnrichIcr.status_code resp <> 200 ->
               EnrichIcr.status r = EnrichIcr.failed /\
               EnrichIcr.error r
               = "HTTP " +:+ pretty (EnrichIcr.status_code resp)) /\
            (EnrichIcr.status_code resp = 200 ->
               EnrichIcr.status r <> EnrichIcr.failed /\
               (EnrichIcr.status r = EnrichIcr.missing <->
                EnrichIcr.extract_chinese_names (EnrichIcr.text resp) = []))
        end) /\
  (forall (E : EnrichIcr.Env) (a : EnrichIcr.args) (total : Z)
          (rest : list string) (st : EnrichIcr.state),
      EnrichIcr.raised (EnrichIcr.loop a total rest st)
      = EnrichIcr.raised st) /\
  (forall (session_get : string -> res AcsAudit.reply) (url : string),
      exists c, AcsAudit.check_url session_get url = Ok c /\
        match res_bind (session_get url) (fun resp =>
                res_bind (match AcsAudit.reply_content_length resp with
                          | Some n => Ok n
                          | None => AcsAudit.reply_read resp
                          end) (fun n => Ok (resp, n))) with
        | Raise e =>
            AcsAudit.chk_valid c = false /\
            AcsAudit.chk_status c = None /\
            AcsAudit.chk_error c
            = Some (match exn_class e with
                    | Timeout => "timeout"
                    | _ => str_exn e
                    end)
        | Ok (resp, n) =>
            AcsAudit.chk_status c = Some (AcsAudit.reply_status resp) /\
            AcsAudit.chk_error c = None /\
            AcsAudit.chk_content_length c = n /\
            (AcsAudit.reply_status resp <> 200 ->
             AcsAudit.chk_valid c = false) /\
            (AcsAudit.chk_valid c = true <->
             AcsAudit.reply_status resp = 200 /\ 0 < n)
        end).
Proof.
  split; [|split].
  - intros E url tmo t. unfold EnrichIcr.fetch_one.
    destruct (EnrichIcr.session_get url tmo t) as [[resp|e] d]; cbn.
    + destruct (decide (EnrichIcr.status_code resp <> 200)) as [Hne|Heq].
      * eexists. split; [reflexivity|]. cbn. repeat split; tauto.
      * assert (EnrichIcr.status_code resp = 200) as H200
          by (destruct (decide (EnrichIcr.status_code resp = 200)); tauto).
        destruct (EnrichIcr.extract_chinese_names (EnrichIcr.text resp))
          as [|n names] eqn:Hnames.
        -- rewrite bool_decide_eq_false_2 by tauto.
           eexists. split; [reflexivity|]. cbn.
           repeat split; try tauto; discriminate.
        -- rewrite bool_decide_eq_true_2 by discriminate.
           eexists. split; [reflexivity|]. cbn.
           repeat split; try tauto; discriminate.
    + eexists. repeat split.
  - intros E a total rest st. apply raised_loop.
  - intros session_get url. unfold AcsAudit.check_url.
    destruct (session_get url) as [resp|e]; cbn.
    + destruct (AcsAudit.reply_content_length resp) as [n|]; cbn.
      * eexists. split; [reflexivity|]. cbn.
        split; [reflexivity|]. split; [reflexivity|]. split; [reflexivity|].
        split; [apply check_invalid|apply check_valid_iff].
      * destruct (AcsAudit.reply_read resp) as [n|e]; cbn.
        -- eexists. split; [reflexivity|]. cbn.
           split; [reflexivity|]. split; [reflexivity|].
           split; [reflexivity|].
           split; [apply check_invalid|apply check_valid_iff].
        -- destruct (exn_class e); eexists; repeat split.
    + destruct (exn_class e); eexists; repeat split.
Qed.

Lemma probe_error_containment_witness :
  exists c,
    AcsAudit.check_url (fun _ => Raise (Exn Timeout "")) "https://acs/alba"
    = Ok c /\
    AcsAudit.chk_valid c = false /\ AcsAudit.chk_status c = None /\
    AcsAudit.chk_error c = Some "timeout".
Proof.
  destruct (proj2 (proj2 probe_error_containment)
              (fun _ => Raise (Exn Timeout "")) "https://acs/alba")
    as (c & Hc & Hrest).
  exists c. split; [exact Hc|exact Hrest].
Defined.


(** A fresh run over five URLs killed after three turns. *)
Lemma fresh_run_cursor_witness :
  exists m : nat, (m <= length five_urls)%nat /\
    length (EnrichIcr.processed_log
              (EnrichIcr.main_killed (H := demo_env) 3
                 (EnrichIcr.Args 8000 30 0 false) five_urls
                 (EnrichIcr.boot (H := demo_env) 1000
                    [EnrichIcr.NoFile; EnrichIcr.NoFile] None))) = m /\
    EnrichIcr.idx
      (EnrichIcr.main_killed (H := demo_env) 3
         (EnrichIcr.Args 8000 30 0 false) five_urls
         (EnrichIcr.boot (H := demo_env) 1000
            [EnrichIcr.NoFile; EnrichIcr.NoFile] None)) = Z.of_nat m /\
    EnrichIcr.next_index
      (EnrichIcr.cp
         (EnrichIcr.main_killed (H := demo_env) 3
            (EnrichIcr.Args 8000 30 0 false) five_urls
            (EnrichIcr.boot (H := demo_env) 1000
               [EnrichIcr.NoFile; EnrichIcr.NoFile] None))) = Z.of_nat m /\
    map EnrichIcr.next_index
      (EnrichIcr.saves
         (EnrichIcr.main_killed (H := demo_env) 3
            (EnrichIcr.Args 8000 30 0 false) five_urls
            (EnrichIcr.boot (H := demo_env) 1000
               [EnrichIcr.NoFile; EnrichIcr.NoFile] None)))
    = 0 :: cursors 0 m.
Proof.
  exact (fresh_run_cursor (H := demo_env) 3 (EnrichIcr.Args 8000 30 0 false)
           five_urls 1000 EnrichIcr.NoFile [EnrichIcr.NoFile] None eq_refl).
Defined.

(** ** image_enrich_strict.py: the cache keys *)

Section NormalizeNameFacts.
Import ImageEnrich.

Lemma lower_char_twice (c : ascii) : lower_char (lower_char c) = lower_char c.
Proof. destruct c as [[] [] [] [] [] [] [] []]; reflexivity. Qed.

Lemma lower_normalize_name_upto (n : nat) (s : string) :
  (String.length s <= n)%nat -> lower (normalize_name s) = lower s.
Proof.
  revert s. induction n as [|n IH]; intros s Hlen.
  - destruct s; [reflexivity|simpl in Hlen; lia].
  - destruct s as [|a [|c rest]]; try reflexivity.
    simpl in Hlen. cbn [normalize_name].
    destruct (Ascii.eqb a "'" && is_upper c && boundary_before rest).
    + cbn [lower]. rewrite lower_char_twice. do 2 f_equal.
      apply IH. lia.
    + cbn [lower]. f_equal. apply (IH (String c rest)). simpl. lia.
Qed.

Lemma lower_normalize_name (s : string) :
  lower (normalize_name s) = lower s.
Proof. now apply (lower_normalize_name_upto (String.length s)). Qed.

Lemma py_or_same (a : option string) : py_or a a = a.
Proof. unfold py_or. now destruct (truthy a). Qed.

(** The two keys under which [try_socal] and [try_icr] look a name up in
    their cache are one and the same: [normalize_name] changes the case of
    letters only, and the key is in lower case.  The lookup under the name
    as given never finds what the lookup under the normalized name missed. *)
Theorem cached_for_one_key (cache : gmap string (option string))
    (name : string) :
  cached_for cache name = cache_get cache (strip (lower name)).
Proof. unfold cached_for. rewrite lower_normalize_name. apply py_or_same. Qed.
End NormalizeNameFacts.

(** ** image_enrich_strict.py: the lists of [main] *)

Section ImageMainFacts.
Import ImageEnrich.
Context {W : Type}.
Variables socal accs acs icr : string -> W -> presult * W.

(** The item a turn appends for [name] when [progress] gives it entry [e]. *)
Definition replayed (name : string) (e : entry) (r : run (W := W))
  : list (string * string * option string) * list (string * string)
    * list string :=
  match e with
  | Found image src =>
      (added r ++ [(name, image, src)], skipped_ambiguous r, missing r)
  | Ambiguous reason =>
      (added r, skipped_ambiguous r ++ [(name, reason)], missing r)
  | Missing => (added r, skipped_ambiguous r, missing r ++ [name])
  end.

Definition lists_of (r : run (W := W)) :=
  (added r, skipped_ambiguous r, missing r).

(** A turn, live or not, leaves the name in [progress] and appends what a
    replay of that entry appends. *)
Lemma step_as_replay (r : run) (n : string) :
  exists e,
    progress (step socal accs acs icr r n) !! strip n = Some e /\
    lists_of (step socal accs acs icr r n) = replayed (strip n) e r /\
    (forall e0, progress r !! strip n = Some e0 -> e = e0) /\
    (forall k e0, progress r !! k = Some e0 ->
       progress (step socal accs acs icr r n) !! k = Some e0).
Proof.
  unfold step. destruct (progress r !! strip n) as [e0|] eqn:Hin.
  - exists e0. repeat split.
    + destruct e0; exact Hin.
    + destruct e0; reflexivity.
    + now intros e1 [= ->].
    + intros k e1 Hk. destruct e0; exact Hk.
  - unfold live.
    destruct (socal (strip n) (outside r)) as [[i1 s1] w1].
    destruct (truthy i1);
      [eexists; cbn; rewrite lookup_insert_eq; repeat split;
       [discriminate | intros k e0 Hk; rewrite lookup_insert_ne;
         [exact Hk | intros <-; congruence]]|].
    destruct (accs (strip n) w1) as [[i2 s2] w2].
    destruct (bool_decide (i2 = Some "AMBIGUOUS"));
      [eexists; cbn; rewrite lookup_insert_eq; repeat split;
       [discriminate | intros k e0 Hk; rewrite lookup_insert_ne;
         [exact Hk | intros <-; congruence]]|].
    destruct (truthy i2);
      [eexists; cbn; rewrite lookup_insert_eq; repeat split;
       [discriminate | intros k e0 Hk; rewrite lookup_insert_ne;
         [exact Hk | intros <-; congruence]]|].
    destruct (acs (strip n) w2) as [[i3 s3] w3].
    destruct (truthy i3);
      [eexists; cbn; rewrite lookup_insert_eq; repeat split;
       [discriminate | intros k e0 Hk; rewrite lookup_insert_ne;
         [exact Hk | intros <-; congruence]]|].
    destruct (icr (strip n) w3) as [[i4 s4] w4].
    destruct (truthy i4);
      eexists; cbn; rewrite lookup_insert_eq; repeat split;
       try discriminate; intros k e0 Hk; rewrite lookup_insert_ne;
         try exact Hk; intros <-; congruence.
Qed.

Lemma progress_loop_keeps (entries : list string) (r : run) k e0 :
  progress r !! k = Some e0 ->
  progress (loop socal accs acs icr entries r) !! k = Some e0.
Proof.
  revert r. induction entries as [|n entries IH]; intros r Hk; [exact Hk|].
  simpl. apply IH. destruct (step_as_replay r n) as (e & _ & _ & _ & Hkeep).
  now apply Hkeep.
Qed.

(** The number of items in the three lists of [main]. *)
Definition accounted (r : run (W := W)) : nat :=
  (length (added r) + length (skipped_ambiguous r) + length (missing r))%nat.

Lemma accounted_step (r : run) (n : string) :
  accounted (step socal accs acs icr r n) = S (accounted r).
Proof.
  destruct (step_as_replay r n) as (e & _ & Hl & _).
  unfold lists_of in Hl. unfold accounted.
  destruct e; cbn in Hl; injection Hl as -> -> ->;
    rewrite length_app; simpl; lia.
Qed.

(** Every entry of the input, processed live or found in [progress], ends in
    exactly one of the lists [added], [skipped_ambiguous] and [missing]. *)
Theorem every_entry_accounted_once (entries : list string)
    (file : option (gmap string entry)) (w : W) :
  accounted (loop socal accs acs icr entries (start file w))
  = length entries.
Proof.
  assert (forall r, accounted (loop socal accs acs icr entries r)
                    = (accounted r + length entries)%nat) as Hgen.
  { induction entries as [|n entries IH]; intros r; simpl; [lia|].
    change (foldl (step socal accs acs icr) (step socal accs acs icr r n)
              entries)
      with (loop socal accs acs icr entries (step socal accs acs icr r n)).
    rewrite IH, accounted_step. lia. }
  rewrite Hgen. reflexivity.
Qed.

(** The progress file, when there is one, holds [progress]. *)
Lemma progress_file_step (r : run) (n : string) :
  default ∅ (progress_file r) = progress r ->
  default ∅ (progress_file (step socal accs acs icr r n))
  = progress (step socal accs acs icr r n).
Proof.
  intros Hr. unfold step. destruct (progress r !! strip n) as [e0|].
  - destruct e0; exact Hr.
  - unfold live.
    destruct (socal (strip n) (outside r)) as [[i1 s1] w1].
    destruct (truthy i1); [reflexivity|].
    destruct (accs (strip n) w1) as [[i2 s2] w2].
    destruct (bool_decide (i2 = Some "AMBIGUOUS")); [reflexivity|].
    destruct (truthy i2); [reflexivity|].
    destruct (acs (strip n) w2) as [[i3 s3] w3].
    destruct (truthy i3); [reflexivity|].
    destruct (icr (strip n) w3) as [[i4 s4] w4].
    destruct (truthy i4); reflexivity.
Qed.

Lemma progress_file_loop_image (entries : list string) (r : run) :
  default ∅ (progress_file r) = progress r ->
  default ∅ (progress_file (loop socal accs acs icr entries r))
  = progress (loop socal accs acs icr entries r).
Proof.
  revert r. induction entries as [|n entries IH]; intros r Hr; [exact Hr|].
  simpl. apply IH. now apply progress_file_step.
Qed.
End ImageMainFacts.

Section ImageRerun.
Import ImageEnrich.
Context {W : Type}.
Variables socal accs acs icr : string -> W -> presult * W.
Variables socal' accs' acs' icr' : string -> W -> presult * W.

(** A second run whose [progress] already holds what the first run ends
    with replays the first run, turn by turn, and calls no strategy. *)
Lemma rerun_follows (entries : list string) (r r2 : run) :
  progress r2 = progress (loop socal accs acs icr entries r) ->
  lists_of r2 = lists_of r ->
  let r2' := loop socal' accs' acs' icr' entries r2 in
  lists_of r2' = lists_of (loop socal accs acs icr entries r) /\
  progress r2' = progress r2 /\ calls r2' = calls r2 /\
  outside r2' = outside r2 /\ progress_file r2' = progress_file r2.
Proof.
  revert r r2. induction entries as [|n entries IH]; intros r r2 Hp Hl.
  - now repeat split.
  - simpl in *.
    change (foldl (step socal accs acs icr) (step socal accs acs icr r n)
              entries)
      with (loop socal accs acs icr entries (step socal accs acs icr r n))
      in *.
    change (foldl (step socal' accs' acs' icr')
              (step socal' accs' acs' icr' r2 n) entries)
      with (loop socal' accs' acs' icr' entries
              (step socal' accs' acs' icr' r2 n)).
    destruct (step_as_replay socal accs acs icr r n)
      as (e & He & Hlists & _ & _).
    pose proof (progress_loop_keeps socal accs acs icr entries _ _ _ He)
      as Hend.
    rewrite <- Hp in Hend.
    assert (step socal' accs' acs' icr' r2 n =
            replay (strip n) e r2) as Hstep2
      by (unfold step; now rewrite Hend).
    rewrite Hstep2.
    destruct (IH (step socal accs acs icr r n) (replay (strip n) e r2))
      as (H1 & H2 & H3 & H4 & H5).
    + destruct e; exact Hp.
    + rewrite Hlists. unfold lists_of in *. injection Hl as Ha Hs Hm.
      destruct e; cbn; now rewrite Ha, Hs, Hm.
    + split; [exact H1|]. rewrite H2, H3, H4, H5.
      destruct e; now repeat split.
Qed.

(** Running [main] again over the same entries, from the progress file the
    first run left: no strategy is called, the world is untouched, and
    [progress] and the three lists are those of the first run. *)
Theorem image_rerun_replays (entries : list string)
    (file : option (gmap string entry)) (w w' : W) :
  let first := loop socal accs acs icr entries (start file w) in
  let second :=
    loop socal' accs' acs' icr' entries (start (progress_file first) w') in
  progress second = progress first /\
  added second = added first /\
  skipped_ambiguous second = skipped_ambiguous first /\
  missing second = missing first /\
  calls second = [] /\ outside second = w'.
Proof.
  intros first second.
  destruct (rerun_follows entries (start file w)
              (start (progress_file first) w'))
    as (Hl & Hp & Hc & Ho & _).
  - cbn [start progress]. subst first.
    apply (progress_file_loop_image socal accs acs icr entries
             (start file w)). reflexivity.
  - reflexivity.
  - fold second in Hl, Hp, Hc, Ho. unfold lists_of in Hl.
    injection Hl as Ha Hs Hm.
    cbn [start progress calls outside] in Hp, Hc, Ho.
    repeat split; try assumption.
    rewrite Hp. subst first.
    apply (progress_file_loop_image socal accs acs icr entries
             (start file w)). reflexivity.
Qed.
End ImageRerun.

(** ** image_enrich_strict.py: the pace of the ICR requests *)

Section ChainInvariant.
Import ImageEnrich.
Context {W : Type}.
Variables socal accs acs icr : string -> W -> presult * W.

(** What every strategy keeps for a name, the turn for that name keeps. *)
Lemma step_keeps_invariant (P : W -> Prop) (r : run) (n : string) :
  (forall w, P w -> P (socal (strip n) w).2) ->
  (forall w, P w -> P (accs (strip n) w).2) ->
  (forall w, P w -> P (acs (strip n) w).2) ->
  (forall w, P w -> P (icr (strip n) w).2) ->
  P (outside r) -> P (outside (step socal accs acs icr r n)).
Proof.
  intros H1 H2 H3 H4 Hr. unfold step.
  destruct (progress r !! strip n) as [e|]; [destruct e; exact Hr|].
  unfold live. specialize (H1 _ Hr).
  destruct (socal (strip n) (outside r)) as [[i1 s1] w1]. cbn in H1.
  destruct (truthy i1); [exact H1|]. specialize (H2 _ H1).
  destruct (accs (strip n) w1) as [[i2 s2] w2]. cbn in H2.
  destruct (bool_decide (i2 = Some "AMBIGUOUS")); [exact H2|].
  destruct (truthy i2); [exact H2|]. specialize (H3 _ H2).
  destruct (acs (strip n) w2) as [[i3 s3] w3]. cbn in H3.
  destruct (truthy i3); [exact H3|]. specialize (H4 _ H3).
  destruct (icr (strip n) w3) as [[i4 s4] w4]. cbn in H4.
  destruct (truthy i4); exact H4.
Qed.

Lemma loop_keeps_invariant (P : W -> Prop) (entries : list string)
    (r : run) :
  (forall n w, n ∈ entries -> P w -> P (socal (strip n) w).2) ->
  (forall n w, n ∈ entries -> P w -> P (accs (strip n) w).2) ->
  (forall n w, n ∈ entries -> P w -> P (acs (strip n) w).2) ->
  (forall n w, n ∈ entries -> P w -> P (icr (strip n) w).2) ->
  P (outside r) -> P (outside (loop socal accs acs icr entries r)).
Proof.
  revert r. induction entries as [|n entries IH]; intros r H1 H2 H3 H4 Hr;
    [exact Hr|].
  simpl. apply IH.
  - intros m w Hm. apply H1. now right.
  - intros m w Hm. apply H2. now right.
  - intros m w Hm. apply H3. now right.
  - intros m w Hm. apply H4. now right.
  - apply step_keeps_invariant; try exact Hr; intros w0.
    + apply H1. now left.
    + apply H2. now left.
    + apply H3. now left.
    + apply H4. now left.
Qed.
End ChainInvariant.

Section IcrPacing.
Import ImageEnrich.
Context `{Env}.

(** The times of the requests sent to the ICR API. *)
Definition icr_times (w : world) : list Z :=
  omap (fun e => if decide (sent_to e = Icr) then Some (sent_at e) else None)
       (trace w).

(** The ICR requests are spaced, and the last one is not later than
    [_last_icr_time]. *)
Definition icr_paced (w : world) : Prop :=
  spaced ICR_DELAY (icr_times w) /\
  forall t0, last (icr_times w) = Some t0 -> t0 <= last_icr_time w.

Lemma icr_times_send_other w (to : source) q d :
  to <> Icr -> icr_times (send w to q d) = icr_times w.
Proof.
  intros Hne. unfold icr_times, send. cbn. rewrite omap_app. cbn.
  destruct (decide (to = Icr)); [contradiction|]. now rewrite app_nil_r.
Qed.

Lemma icr_paced_send_other w (to : source) q d :
  to <> Icr -> icr_paced w -> icr_paced (send w to q d).
Proof.
  intros Hne [Hs Hl]. unfold icr_paced.
  rewrite (icr_times_send_other _ _ _ _ Hne). now split.
Qed.

Lemma socal_live_paced names w :
  icr_paced w -> icr_paced (socal_live names w).2.
Proof.
  revert w. induction names as [|n names IH]; intros w Hw; [exact Hw|].
  simpl. destruct (socal_head _ _) as [r d].
  match goal with
  | |- context [send w Socal ?u d] =>
      assert (icr_paced (send w Socal u d)) as Hs
        by (apply icr_paced_send_other; [discriminate|exact Hw])
  end.
  destruct r as [code|e]; [|now apply IH].
  destruct code as [|code|code]; try now apply IH.
  repeat (destruct code as [code|code|]; try now apply IH).
  exact Hs.
Qed.

Lemma try_socal_paced name w : icr_paced w -> icr_paced (try_socal name w).2.
Proof.
  intros Hw. unfold try_socal.
  destruct (truthy _); [exact Hw|now apply socal_live_paced].
Qed.

Lemma try_accs_names_paced names w :
  icr_paced w -> icr_paced (try_accs_names names w).2.
Proof.
  revert w. induction names as [|n names IH]; intros w Hw; [exact Hw|].
  simpl. destruct (accs_search _ _) as [r d].
  assert (icr_paced (send w Accs n d)) as Hs
    by (apply icr_paced_send_other; [discriminate|exact Hw]).
  destruct r as [[|i imgs]|e]; try now apply IH.
  destruct (find _ _); exact Hs.
Qed.

Lemma try_acs_paced name w : icr_paced w -> icr_paced (try_acs name w).2.
Proof.
  intros Hw. unfold try_acs.
  destruct (if bool_decide _ then _ else _) as [page|]; [|exact Hw].
  destruct (acs_page _ _) as [r d].
  assert (icr_paced (send w Acs page d)) as Hs
    by (apply icr_paced_send_other; [discriminate|exact Hw]).
  destruct r as [[u|]|e]; exact Hs.
Qed.

Lemma icr_times_send_icr w q d :
  icr_times (send w Icr q d) = icr_times w ++ [now w].
Proof.
  unfold icr_times, send. cbn. rewrite omap_app. cbn.
  destruct (decide (Icr = Icr)) as [_|Hne]; [reflexivity|contradiction].
Qed.

(** One name: one request, sent now. *)
Lemma icr_live_one (n : string) w :
  exists d, (icr_live [n] w).2 = send (stamp_icr w) Icr n d.
Proof.
  simpl. destruct (icr_api _ _) as [r d]. exists d.
  destruct r as [resp|e]; [|reflexivity].
  destruct (_ || _); [reflexivity|].
  destruct (icr_data resp) as [[|p0 ps]|e]; try reflexivity.
  destruct (negb _); reflexivity.
Qed.

(** For a name that [normalize_name] leaves as it is, [try_icr] keeps the
    pace. *)
Lemma try_icr_paced name w :
  normalize_name name = name ->
  icr_paced w -> icr_paced (try_icr name w).2.
Proof.
  intros Hnorm [Hs Hl]. unfold try_icr.
  destruct (truthy _); [now split|].
  rewrite Hnorm. unfold fromkeys2.
  destruct (decide (name = name)) as [_|Hne]; [|contradiction].
  set (waited := if now w - last_icr_time w <? ICR_DELAY
                 then sleep w (ICR_DELAY - (now w - last_icr_time w))
                 else w).
  assert (last_icr_time w + ICR_DELAY <= now waited /\
          icr_times waited = icr_times w) as [Hnow Htimes].
  { subst waited.
    destruct (Z.ltb_spec (now w - last_icr_time w) ICR_DELAY);
      cbn; split; try reflexivity; lia. }
  destruct (icr_live_one name waited) as [d ->].
  unfold icr_paced. rewrite icr_times_send_icr.
  change (icr_times (stamp_icr waited)) with (icr_times waited).
  change (now (stamp_icr waited)) with (now waited).
  change (last_icr_time (send (stamp_icr waited) Icr name d))
    with (now waited).
  rewrite Htimes. split.
  - apply spaced_snoc; [exact Hs|]. intros t0 Ht0.
    specialize (Hl t0 Ht0). lia.
  - intros t0 Ht0. rewrite last_snoc in Ht0. injection Ht0 as <-. lia.
Qed.

(** When [normalize_name] changes none of the names, the requests [main]
    sends to the ICR API are at least [ICR_DELAY] apart. *)
Theorem image_icr_requests_spaced (entries : list string)
    (file : option (gmap string entry)) (w : world) :
  (forall n, n ∈ entries -> normalize_name (strip n) = strip n) ->
  icr_paced w ->
  spaced ICR_DELAY (icr_times (outside (main entries file w))).
Proof.
  intros Hnames Hw. unfold main.
  apply (loop_keeps_invariant try_socal try_accs_search try_acs try_icr
           icr_paced entries (start file w)).
  - intros n w0 _. apply try_socal_paced.
  - intros n w0 _. unfold try_accs_search. apply try_accs_names_paced.
  - intros n w0 _. apply try_acs_paced.
  - intros n w0 Hn. apply try_icr_paced. now apply Hnames.
  - exact Hw.
Qed.
End IcrPacing.

(** No cache, no index; only the ICR API is reached, and it answers in
    0.3 s with no photo. *)
Definition icr_only_env : ImageEnrich.Env :=
  {| ImageEnrich.socal_cache_file := [];
     ImageEnrich.icr_cache_file := [];
     ImageEnrich.acs_index_file := [];
     ImageEnrich.quote := fun s => s;
     ImageEnrich.socal_head := fun _ _ =>
       (Raise (Exn Transport "HTTP Error 404: Not Found"), 200%N);
     ImageEnrich.accs_search := fun _ _ => (Ok [], 400%N);
     ImageEnrich.acs_page := fun _ _ => (Ok None, 500%N);
     ImageEnrich.icr_api := fun _ _ =>
       (Ok (ImageEnrich.IcrResponse 200 (Ok [])), 300%N) |}.

(** Two names, the second with an apostrophe that stays as it is. *)
Lemma image_icr_requests_spaced_witness :
  spaced ImageEnrich.ICR_DELAY
    (icr_times
       (ImageEnrich.outside
          (ImageEnrich.main (H := icr_only_env) ["Rose"; "Aaron's Ruby"]
             None morning))).
Proof.
  apply (image_icr_requests_spaced (H := icr_only_env)
           ["Rose"; "Aaron's Ruby"] None morning).
  - intros n Hn.
    apply elem_of_cons in Hn as [->|Hn]; [reflexivity|].
    apply list_elem_of_singleton in Hn as ->. reflexivity.
  - split.
    + intros i t1 t2 Hi. destruct i; discriminate Hi.
    + intros t0 Ht0. discriminate Ht0.
Defined.

(** ** acs_audit.py: what [apply_fixes] writes, and for whom *)

Section ApplyFixesReach.
Import AcsAudit.

Lemma name_to_idx_snoc (data : list entry) (e : entry) :
  name_to_idx (data ++ [e]) = <[name e := length data]> (name_to_idx data).
Proof.
  unfold name_to_idx. rewrite imap_app, foldl_app. cbn.
  now rewrite Nat.add_0_r.
Qed.

(** The index kept for a name is the one of its last entry. *)
Lemma name_to_idx_last (data : list entry) (nm : string) :
  match name_to_idx data !! nm with
  | Some i =>
      (exists e, data !! i = Some e /\ name e = nm) /\
      (forall j e, data !! j = Some e -> name e = nm -> (j <= i)%nat)
  | None => forall j e, data !! j = Some e -> name e <> nm
  end.
Proof.
  induction data as [|e data IH] using rev_ind.
  - unfold name_to_idx. cbn. rewrite lookup_empty. intros j e Hj.
    destruct j; discriminate Hj.
  - rewrite name_to_idx_snoc.
    destruct (decide (name e = nm)) as [Heq|Hne].
    + rewrite Heq, lookup_insert_eq. split.
      * exists e. split; [|exact Heq]. rewrite lookup_app_r by lia.
        now rewrite Nat.sub_diag.
      * intros j e' Hj _. apply lookup_lt_Some in Hj.
        rewrite length_app in Hj. cbn in Hj. lia.
    + rewrite lookup_insert_ne by exact Hne.
      destruct (name_to_idx data !! nm) as [i|].
      * destruct IH as [(e0 & He0 & Hn0) Hlast]. split.
        -- exists e0. split; [|exact Hn0].
           rewrite lookup_app_l; [exact He0|]. now apply lookup_lt_Some in He0.
        -- intros j e' Hj Hn'.
           destruct (decide (j < length data)%nat) as [Hlt|Hge].
           ++ rewrite lookup_app_l in Hj by exact Hlt. now apply (Hlast j e').
           ++ rewrite lookup_app_r in Hj by lia.
              destruct (j - length data)%nat; [|destruct n; discriminate Hj].
              cbn in Hj. injection Hj as <-. contradiction.
      * intros j e' Hj.
        destruct (decide (j < length data)%nat) as [Hlt|Hge].
        -- rewrite lookup_app_l in Hj by exact Hlt. now apply (IH j e').
        -- rewrite lookup_app_r in Hj by lia.
           destruct (j - length data)%nat; [|destruct n; discriminate Hj].
           cbn in Hj. now injection Hj as <-.
Qed.

(** After the turns for [done]: the entry picked for the name of a
    [needs_fix] audit among [done] carries the value of that name. *)
Definition written_so_far (data : list entry) (recs : gmap string recovery)
    (done : list (string * audit)) (out : list entry) : Prop :=
  forall nm a i e,
    (nm, a) ∈ done -> a_action a = needs_fix ->
    name_to_idx data !! nm = Some i -> data !! i = Some e ->
    out !! i = Some (set_acs_url (fix_value recs nm) e).

Lemma written_so_far_step data recs done acc nm a :
  fixed_so_far data recs done (data_out acc) ->
  written_so_far data recs done (data_out acc) ->
  written_so_far data recs (done ++ [(nm, a)])
    (data_out (fix_one (name_to_idx data) recs acc (nm, a))).
Proof.
  intros [Hlen Hall] Hw nm' a' i e Hin Hfix' Hidx He.
  rewrite fix_one_data.
  apply elem_of_app in Hin as [Hin|Hin].
  - specialize (Hw nm' a' i e Hin Hfix' Hidx He).
    destruct (decide (a_action a <> needs_fix)); [exact Hw|].
    destruct (name_to_idx data !! nm) as [idx|] eqn:Hnm; [|exact Hw].
    destruct (decide (idx = i)) as [->|Hne].
    + rewrite list_lookup_alter_eq, Hw. cbn. f_equal.
      destruct (name_to_idx_sound data nm i Hnm) as (e1 & He1 & Hn1).
      destruct (name_to_idx_sound data nm' i Hidx) as (e2 & He2 & Hn2).
      assert (nm = nm') as -> by congruence.
      apply set_acs_url_twice.
    + now rewrite list_lookup_alter_ne.
  - apply list_elem_of_singleton in Hin. injection Hin as -> ->.
    destruct (decide (a_action a <> needs_fix)) as [Hno|_]; [contradiction|].
    rewrite Hidx, list_lookup_alter_eq.
    destruct (Hall i e He) as (e' & -> & Hcase). cbn. f_equal.
    destruct Hcase as [->|(a0 & _ & _ & _ & ->)]; [reflexivity|].
    destruct (name_to_idx_sound data nm i Hidx) as (e1 & He1 & Hn1).
    assert (e1 = e) as -> by congruence. rewrite Hn1.
    apply set_acs_url_twice.
Qed.

Lemma written_so_far_fold data recs rest done acc :
  fixed_so_far data recs done (data_out acc) ->
  written_so_far data recs done (data_out acc) ->
  written_so_far data recs (done ++ rest)
    (data_out (foldl (fix_one (name_to_idx data) recs) acc rest)).
Proof.
  revert done acc. induction rest as [|[nm a] rest IH]; intros done acc Hf Hw.
  - now rewrite app_nil_r.
  - simpl. replace (done ++ (nm, a) :: rest) with ((done ++ [(nm, a)]) ++ rest)
      by now rewrite <- app_assoc.
    apply IH.
    + now apply fixed_so_far_step.
    + now apply written_so_far_step.
Qed.

(** Where a name of the dataset has a [needs_fix] audit, [apply_fixes]
    writes the value of that name to the last entry of the name, and leaves
    every earlier entry of the name as it was. *)
Theorem apply_fixes_reaches_last_of_name (data : list entry)
    (audit_results : list (string * audit))
    (recovery_results : gmap string recovery)
    (nm : string) (a : audit) (j : nat) (e0 : entry) :
  (nm, a) ∈ audit_results -> a_action a = needs_fix ->
  data !! j = Some e0 -> name e0 = nm ->
  exists i e,
    data !! i = Some e /\ name e = nm /\
    (forall j' e', data !! j' = Some e' -> name e' = nm -> (j' <= i)%nat) /\
    data_out (apply_fixes data audit_results recovery_results) !! i
      = Some (set_acs_url (fix_value recovery_results nm) e) /\
    (forall j' e', (j' < i)%nat -> data !! j' = Some e' -> name e' = nm ->
       data_out (apply_fixes data audit_results recovery_results) !! j'
         = Some e').
Proof.
  intros Hin Hfix Hj Hname.
  pose proof (name_to_idx_last data nm) as Hlast.
  destruct (name_to_idx data !! nm) as [i|] eqn:Hidx;
    [|exfalso; exact (Hlast j e0 Hj Hname)].
  destruct Hlast as [(e & He & Hn) Hmax].
  assert (fixed_so_far data recovery_results [] data) as Hf0.
  { split; [reflexivity|]. intros k ek Hk. exists ek. split; [exact Hk|].
    now left. }
  assert (written_so_far data recovery_results [] data) as Hw0.
  { intros nm' a' i' e' Hnil. inversion Hnil. }
  pose proof (fixed_so_far_fold data recovery_results audit_results []
                {| data_out := data; fixed := []; cleared := [] |} Hf0)
    as [_ Hall].
  pose proof (written_so_far_fold data recovery_results audit_results []
                {| data_out := data; fixed := []; cleared := [] |} Hf0 Hw0)
    as Hw.
  cbn [app] in Hall, Hw. fold (apply_fixes data audit_results recovery_results)
    in Hall, Hw.
  exists i, e. repeat split; try assumption.
  - exact (Hw nm a i e Hin Hfix Hidx He).
  - intros j' e' Hlt Hj' Hn'.
    destruct (Hall j' e' Hj') as (e1 & He1 & [->|(a1 & _ & _ & Hidx1 & _)]);
      [exact He1|].
    rewrite Hn', Hidx in Hidx1. injection Hidx1 as ->. lia.
Qed.

(** An audit that [apply_fixes] acts on: it asks for a fix, and its name is
    in the dataset. *)
Definition acted_on (data : list entry) (na : string * audit) : bool :=
  bool_decide (a_action na.2 = needs_fix)
  && bool_decide (na.1 ∈ name <$> data).

(** [rec.get("recovered")] for [rec = recovery_results.get(name, {})]. *)
Definition is_recovered (recs : gmap string recovery) (nm : string) : bool :=
  match recs !! nm with
  | Some rec => recovered rec
  | None => false
  end.

Lemma name_to_idx_dom (data : list entry) (nm : string) :
  is_Some (name_to_idx data !! nm) <-> nm ∈ name <$> data.
Proof.
  pose proof (name_to_idx_last data nm) as Hlast.
  destruct (name_to_idx data !! nm) as [i|]; split.
  - intros _. destruct Hlast as [(e & He & <-) _].
    apply list_elem_of_fmap. exists e. split; [reflexivity|].
    now apply list_elem_of_lookup_2 with i.
  - intros _. now eexists.
  - intros [x Hx]. discriminate Hx.
  - intros Hin. apply list_elem_of_fmap in Hin as (e & -> & Hin).
    apply list_elem_of_lookup in Hin as [j Hj].
    exfalso. exact (Hlast j e Hj eq_refl).
Qed.

(** The row a turn appends to [fixed], and to [cleared]. *)
Definition fixed_row_of (data : list entry) (recs : gmap string recovery)
    (na : string * audit) : option fixed_row :=
  if acted_on data na then
    match recs !! na.1 with
    | Some rec =>
        if recovered rec
        then Some (FixedRow na.1 (a_original_url na.2) (new_url rec)
                            (method rec))
        else None
    | None => None
    end
  else None.

Definition cleared_row_of (data : list entry) (recs : gmap string recovery)
    (na : string * audit) : option cleared_row :=
  if acted_on data na && negb (is_recovered recs na.1)
  then Some (ClearedRow na.1 (a_original_url na.2) (a_error na.2)
                        (a_status na.2))
  else None.

Lemma fix_one_rows (data : list entry) recs acc na :
  fixed (fix_one (name_to_idx data) recs acc na)
    = fixed acc ++ option_list (fixed_row_of data recs na) /\
  cleared (fix_one (name_to_idx data) recs acc na)
    = cleared acc ++ option_list (cleared_row_of data recs na).
Proof.
  destruct na as [nm a].
  unfold fix_one, fixed_row_of, cleared_row_of, acted_on, is_recovered.
  cbn [fst snd].
  pose proof (name_to_idx_dom data nm) as Hdom.
  destruct (decide (a_action a <> needs_fix)) as [Hno|Hfix].
  - rewrite (bool_decide_eq_false_2 _ Hno). cbn. now rewrite !app_nil_r.
  - assert (a_action a = needs_fix) as Hyes
      by (destruct (a_action a); [exfalso; apply Hfix; discriminate|easy]).
    rewrite (bool_decide_eq_true_2 _ Hyes). cbn [andb].
    destruct (name_to_idx data !! nm) as [idx|].
    + rewrite (bool_decide_eq_true_2 (nm ∈ name <$> data))
        by (apply Hdom; now eexists).
      cbn [andb]. destruct (recs !! nm) as [rec|]; [destruct (recovered rec)|];
        cbn; now rewrite ?app_nil_r.
    + rewrite (bool_decide_eq_false_2 (nm ∈ name <$> data))
        by (intros Hin; apply Hdom in Hin as [x Hx]; discriminate Hx).
      cbn. now rewrite !app_nil_r.
Qed.

Lemma apply_fixes_rows_from (data : list entry) recs rest acc :
  fixed (foldl (fix_one (name_to_idx data) recs) acc rest)
    = fixed acc ++ omap (fixed_row_of data recs) rest /\
  cleared (foldl (fix_one (name_to_idx data) recs) acc rest)
    = cleared acc ++ omap (cleared_row_of data recs) rest.
Proof.
  revert acc. induction rest as [|na rest IH]; intros acc.
  - cbn. now rewrite !app_nil_r.
  - cbn [foldl]. destruct (IH (fix_one (name_to_idx data) recs acc na))
      as [-> ->].
    destruct (fix_one_rows data recs acc na) as [-> ->].
    rewrite <- !app_assoc. cbn [omap list_omap].
    split; f_equal.
    + now destruct (fixed_row_of data recs na).
    + now destruct (cleared_row_of data recs na).
Qed.

Lemma fixed_row_of_name data recs na :
  f_name <$> fixed_row_of data recs na
  = if acted_on data na && is_recovered recs na.1 then Some na.1 else None.
Proof.
  unfold fixed_row_of, is_recovered. destruct (acted_on data na); [|easy].
  destruct (recs !! na.1) as [rec|]; [|easy]. now destruct (recovered rec).
Qed.

Lemma cleared_row_of_name data recs na :
  c_name <$> cleared_row_of data recs na
  = if acted_on data na && negb (is_recovered recs na.1)
    then Some na.1 else None.
Proof.
  unfold cleared_row_of.
  now destruct (acted_on data na && negb (is_recovered recs na.1)).
Qed.

(** The keys of the items [f] keeps, when [g] yields a row of that key for
    them and no row for the others. *)
Lemma omap_names {A R} (f : string * A -> bool) (g : string * A -> option R)
    (key_of : R -> string) (l : list (string * A)) :
  (forall x, key_of <$> g x = if f x then Some x.1 else None) ->
  key_of <$> omap g l = (filter (fun x => f x = true) l).*1 /\
  length (omap g l) = length (filter (fun x => f x = true) l).
Proof.
  intros Hg. induction l as [|x l [IH1 IH2]]; [easy|].
  rewrite filter_cons. cbn [omap list_omap]. specialize (Hg x).
  destruct (g x) as [r|], (f x); cbn in Hg; try discriminate.
  - destruct (decide (true = true)) as [_|Hn]; [|contradiction].
    injection Hg as Hk. cbn. fold (omap g l). now rewrite Hk, IH1, IH2.
  - destruct (decide (false = true)) as [Hn|_]; [discriminate|].
    fold (omap g l). now split.
Qed.

(** Every audit that asks for a fix and whose name is in the dataset leaves
    one row, in the order of the audits: in [fixed] when the recovery of the
    name succeeded, in [cleared] otherwise; no other audit leaves a row. *)
Theorem apply_fixes_one_row_each (data : list entry)
    (audit_results : list (string * audit))
    (recovery_results : gmap string recovery) :
  f_name <$> fixed (apply_fixes data audit_results recovery_results)
    = (filter (fun na => acted_on data na
                         && is_recovered recovery_results na.1 = true)
              audit_results).*1 /\
  c_name <$> cleared (apply_fixes data audit_results recovery_results)
    = (filter (fun na => acted_on data na
                         && negb (is_recovered recovery_results na.1) = true)
              audit_results).*1 /\
  (length (fixed (apply_fixes data audit_results recovery_results))
   + length (cleared (apply_fixes data audit_results recovery_results))
   = length (filter (fun na => acted_on data na = true) audit_results))%nat.
Proof.
  unfold apply_fixes.
  destruct (apply_fixes_rows_from data recovery_results audit_results
              {| data_out := data; fixed := []; cleared := [] |}) as [-> ->].
  cbn [fixed cleared app].
  destruct (omap_names _ _ f_name audit_results
              (fixed_row_of_name data recovery_results)) as [-> ->].
  destruct (omap_names _ _ c_name audit_results
              (cleared_row_of_name data recovery_results)) as [-> ->].
  repeat split.
  induction audit_results as [|na rest IH]; [reflexivity|].
  rewrite !filter_cons.
  destruct (acted_on data na), (is_recovered recovery_results na.1);
    cbn [andb negb];
    repeat match goal with
    | |- context [decide (true = true)] =>
        destruct (decide (true = true)) as [_|Hn]; [|contradiction]
    | |- context [decide (false = true)] =>
        destruct (decide (false = true)) as [Hn|_]; [discriminate|]
    end; cbn [length]; lia.
Qed.
End ApplyFixesReach.

(** A dataset that holds the name Alba twice; the audit asks to fix Alba and
    no recovery was recorded. *)
Definition twice_alba : list AcsAudit.entry :=
  [AcsAudit.Entry "Alba" {["acs_url" := AcsAudit.JStr "https://acs/alba-1"]};
   AcsAudit.Entry "Bella" {["acs_url" := AcsAudit.JStr "https://acs/bella"]};
   AcsAudit.Entry "Alba" {["acs_url" := AcsAudit.JStr "https://acs/alba-2"]}].

Definition alba_audit : AcsAudit.audit :=
  AcsAudit.Audit (Some 404) None false 2 "https://acs/alba-2"
                 AcsAudit.needs_fix.

Lemma apply_fixes_reaches_last_of_name_witness :
  exists i e,
    twice_alba !! i = Some e /\ AcsAudit.name e = "Alba" /\
    (forall j' e', twice_alba !! j' = Some e' -> AcsAudit.name e' = "Alba" ->
                   (j' <= i)%nat) /\
    AcsAudit.data_out (AcsAudit.apply_fixes twice_alba [("Alba", alba_audit)] ∅)
      !! i
      = Some (AcsAudit.set_acs_url (fix_value ∅ "Alba") e) /\
    (forall j' e', (j' < i)%nat -> twice_alba !! j' = Some e' ->
       AcsAudit.name e' = "Alba" ->
       AcsAudit.data_out
         (AcsAudit.apply_fixes twice_alba [("Alba", alba_audit)] ∅) !! j'
         = Some e').
Proof.
  apply (apply_fixes_reaches_last_of_name twice_alba [("Alba", alba_audit)] ∅
           "Alba" alba_audit 0
           (AcsAudit.Entry "Alba"
              {["acs_url" := AcsAudit.JStr "https://acs/alba-1"]})).
  - left.
  - reflexivity.
  - reflexivity.
  - reflexivity.
Defined.

(** ** acs_audit.py: the slug of a name *)

Section SlugFacts.
Import ImageEnrich AcsSlug.

(** Slug characters and single hyphens only; after a hyphen, no hyphen. *)
Fixpoint dashed (after_dash : bool) (s : string) : bool :=
  match s with
  | EmptyString => true
  | String c s' =>
      if is_slug_char c then dashed false s'
      else is_dash c && negb after_dash && dashed true s'
  end.

Fixpoint ends_dash (s : string) : bool :=
  match s with
  | EmptyString => false
  | String c EmptyString => is_dash c
  | String _ s' => ends_dash s'
  end.

Lemma slug_char_not_dash (c : ascii) : is_slug_char c = true -> is_dash c = false.
Proof. destruct c as [[] [] [] [] [] [] [] []]; cbv; congruence. Qed.

Lemma slug_char_not_quote (c : ascii) :
  is_slug_char c = true -> Ascii.eqb c "'" = false.
Proof. destruct c as [[] [] [] [] [] [] [] []]; cbv; congruence. Qed.

Lemma slug_char_lower (c : ascii) : is_slug_char c = true -> lower_char c = c.
Proof. destruct c as [[] [] [] [] [] [] [] []]; cbv; congruence. Qed.

Lemma is_dash_eq (c : ascii) : is_dash c = true -> c = "-"%char.
Proof. unfold is_dash. now destruct (Ascii.eqb_spec c "-"). Qed.

Lemma sub_runs_dashed (b : bool) (s : string) :
  dashed b (sub_runs (fun c => negb (is_slug_char c)) b s) = true.
Proof.
  revert b. induction s as [|c s IH]; intros b; [reflexivity|].
  cbn [sub_runs]. destruct (is_slug_char c) eqn:Hc; cbn [negb].
  - cbn [dashed]. rewrite Hc. apply IH.
  - destruct b; [apply IH|]. cbn. apply IH.
Qed.

Lemma dashed_weaken (b : bool) (s : string) :
  dashed true s = true -> dashed b s = true.
Proof.
  destruct s as [|c s]; [easy|]. cbn.
  destruct (is_slug_char c); [easy|]. now rewrite andb_false_r.
Qed.

Lemma lstrip_dash_dashed (b : bool) (s : string) :
  dashed b s = true -> dashed true (lstrip_dash s) = true.
Proof.
  revert b. induction s as [|c s IH]; intros b Hd; [reflexivity|].
  cbn [lstrip_dash]. destruct (is_dash c) eqn:Hdash.
  - cbn in Hd. destruct (is_slug_char c) eqn:Hc.
    + apply slug_char_not_dash in Hc. congruence.
    + rewrite Hdash in Hd. apply andb_prop in Hd as [_ Hd]. now apply (IH true).
  - cbn in Hd |- *. destruct (is_slug_char c); [exact Hd|].
    rewrite Hdash in Hd. discriminate Hd.
Qed.

Lemma rstrip_dash_dashed (b : bool) (s : string) :
  dashed b s = true -> dashed b (rstrip_dash s) = true.
Proof.
  revert b. induction s as [|c s IH]; intros b Hd; [reflexivity|].
  cbn [rstrip_dash]. cbn [dashed] in Hd.
  destruct (rstrip_dash s) as [|d r] eqn:Hr.
  - destruct (is_dash c) eqn:Hdash; [reflexivity|].
    cbn. destruct (is_slug_char c); [reflexivity|]. discriminate Hd.
  - cbn [dashed]. destruct (is_slug_char c); [now apply IH|].
    apply andb_prop in Hd as [Hd1 Hd2]. rewrite Hd1. now apply IH.
Qed.

Lemma rstrip_dash_ends (s : string) : ends_dash (rstrip_dash s) = false.
Proof.
  induction s as [|c s IH]; [reflexivity|].
  cbn [rstrip_dash]. destruct (rstrip_dash s) as [|d r].
  - destruct (is_dash c) eqn:Hdash; [reflexivity|exact Hdash].
  - exact IH.
Qed.

(** The stripped slug is tidy. *)
Lemma stripped_slug_tidy (name : string) :
  dashed true (stripped_slug name) = true /\
  ends_dash (stripped_slug name) = false.
Proof.
  unfold stripped_slug, strip_dash. split; [|apply rstrip_dash_ends].
  apply rstrip_dash_dashed, (lstrip_dash_dashed false), sub_runs_dashed.
Qed.

(** On a tidy string, each step of [name_to_slug] changes nothing. *)
Lemma dashed_lower (b : bool) (s : string) :
  dashed b s = true -> lower s = s.
Proof.
  revert b. induction s as [|c s IH]; intros b Hd; [reflexivity|].
  cbn in Hd |- *. destruct (is_slug_char c) eqn:Hc.
  - rewrite (slug_char_lower c Hc). f_equal. now apply (IH false).
  - apply andb_prop in Hd as [Hd1 Hd2]. apply andb_prop in Hd1 as [Hd1 _].
    apply is_dash_eq in Hd1 as ->. cbn. f_equal. now apply (IH true).
Qed.

Lemma dashed_remove_quotes (b : bool) (s : string) :
  dashed b s = true -> remove_quotes s = s.
Proof.
  revert b. induction s as [|c s IH]; intros b Hd; [reflexivity|].
  cbn in Hd |- *. destruct (is_slug_char c) eqn:Hc.
  - rewrite (slug_char_not_quote c Hc). f_equal. now apply (IH false).
  - apply andb_prop in Hd as [Hd1 Hd2]. apply andb_prop in Hd1 as [Hd1 _].
    apply is_dash_eq in Hd1 as ->. cbn. f_equal. now apply (IH true).
Qed.

Lemma dashed_sub_runs (class : ascii -> bool) (b : bool) (s : string) :
  (forall c, is_slug_char c = true -> class c = false) ->
  class "-"%char = true ->
  dashed b s = true -> sub_runs class b s = s.
Proof.
  intros Hclass Hdash. revert b.
  induction s as [|c s IH]; intros b Hd; [reflexivity|].
  cbn in Hd |- *. destruct (is_slug_char c) eqn:Hc.
  - rewrite (Hclass c Hc). f_equal. now apply IH.
  - apply andb_prop in Hd as [Hd1 Hd2]. apply andb_prop in Hd1 as [Hd1 Hb].
    apply is_dash_eq in Hd1 as ->. rewrite Hdash.
    destruct b; [discriminate Hb|]. f_equal. now apply IH.
Qed.

Lemma dashed_lstrip (s : string) : dashed true s = true -> lstrip_dash s = s.
Proof.
  destruct s as [|c s]; [easy|]. cbn. destruct (is_slug_char c) eqn:Hc.
  - now rewrite (slug_char_not_dash c Hc).
  - now rewrite andb_false_r.
Qed.

Lemma ends_dash_rstrip (s : string) : ends_dash s = false -> rstrip_dash s = s.
Proof.
  induction s as [|c s IH]; [easy|]. intros He. cbn [rstrip_dash].
  destruct s as [|d s].
  - cbn in He |- *. now rewrite He.
  - rewrite IH by exact He. reflexivity.
Qed.

Lemma tidy_fixed (s : string) :
  dashed true s = true -> ends_dash s = false ->
  stripped_slug s = s /\ name_to_slug s = s.
Proof.
  intros Hd He.
  assert (stripped_slug s = s) as Hs.
  { unfold stripped_slug, strip_dash.
    rewrite (dashed_lower true s Hd), (dashed_remove_quotes true s Hd).
    rewrite (dashed_sub_runs _ false s);
      [| intros c Hc; now rewrite Hc | reflexivity | now apply dashed_weaken].
    rewrite (dashed_lstrip s Hd). now apply ends_dash_rstrip. }
  split; [exact Hs|]. unfold name_to_slug. rewrite Hs.
  apply dashed_sub_runs;
    [apply slug_char_not_dash | reflexivity | now apply dashed_weaken].
Qed.

(** The last substitution of [name_to_slug] never changes its argument. *)
Lemma name_to_slug_stripped (name : string) :
  name_to_slug name = stripped_slug name.
Proof.
  destruct (stripped_slug_tidy name) as [Hd He]. unfold name_to_slug.
  apply dashed_sub_runs;
    [apply slug_char_not_dash | reflexivity | now apply dashed_weaken].
Qed.

(** A slug is its own slug. *)
Theorem name_to_slug_idempotent (name : string) :
  name_to_slug (name_to_slug name) = name_to_slug name.
Proof.
  destruct (stripped_slug_tidy name) as [Hd He].
  rewrite (name_to_slug_stripped name). now apply tidy_fixed.
Qed.

(** The characters of a tidy string, as a list. *)
Lemma dashed_chars (b : bool) (s : string) :
  dashed b s = true ->
  let l := list_ascii_of_string s in
  Forall (fun c => is_slug_char c = true \/ c = "-"%char) l /\
  (b = true -> head l <> Some "-"%char) /\
  (forall i, l !! i = Some "-"%char -> l !! S i <> Some "-"%char).
Proof.
  revert b. induction s as [|c s IH]; intros b Hd.
  - cbn. repeat split; [constructor|easy|intros i Hi; destruct i; discriminate].
  - cbn [list_ascii_of_string]. cbn in Hd.
    destruct (is_slug_char c) eqn:Hc.
    + destruct (IH false Hd) as (Hall & _ & Hadj). repeat split.
      * constructor; [now left|exact Hall].
      * intros _ [= ->]. discriminate Hc.
      * intros [|i] Hi; [injection Hi as ->; discriminate Hc|].
        now apply (Hadj i).
    + apply andb_prop in Hd as [Hd1 Hd2]. apply andb_prop in Hd1 as [Hd1 Hb].
      apply is_dash_eq in Hd1 as ->.
      destruct (IH true Hd2) as (Hall & Hhead & Hadj). repeat split.
      * constructor; [now right|exact Hall].
      * intros ->. discriminate Hb.
      * intros [|i] Hi.
        -- cbn. specialize (Hhead eq_refl).
           destruct (list_ascii_of_string s); [easy|]. cbn in Hhead |- *.
           congruence.
        -- now apply (Hadj i).
Qed.

Lemma ends_dash_last (s : string) :
  ends_dash s = false -> last (list_ascii_of_string s) <> Some "-"%char.
Proof.
  induction s as [|c s IH]; [easy|]. intros He.
  destruct s as [|d s].
  - cbn in He |- *. intros [= ->]. discriminate He.
  - cbn [list_ascii_of_string] in IH |- *. rewrite last_cons_cons.
    now apply IH.
Qed.

(** A slug holds lower-case letters, digits and hyphens only; it neither
    starts nor ends with a hyphen, and no two hyphens are neighbours. *)
Theorem name_to_slug_shape (name : string) :
  let l := list_ascii_of_string (name_to_slug name) in
  Forall (fun c => is_slug_char c = true \/ c = "-"%char) l /\
  head l <> Some "-"%char /\
  last l <> Some "-"%char /\
  (forall i, l !! i = Some "-"%char -> l !! S i <> Some "-"%char).
Proof.
  rewrite name_to_slug_stripped.
  destruct (stripped_slug_tidy name) as [Hd He].
  destruct (dashed_chars true _ Hd) as (Hall & Hhead & Hadj).
  repeat split; [exact Hall|now apply Hhead|now apply ends_dash_last|exact Hadj].
Qed.
End SlugFacts.

(** ** acs_audit.py: the reports *)

Section ReportFacts.
Import AcsAudit AcsReport.

Lemma filter_all_length {A} (P : A -> Prop) `{!forall x, Decision (P x)}
    (l : list A) :
  (length (filter P l) <= length l)%nat /\
  (length (filter P l) = length l <-> Forall P l).
Proof.
  induction l as [|x l [IHle IHiff]]; [cbn; split; [lia|easy]|].
  rewrite filter_cons. destruct (decide (P x)) as [Hx|Hx]; cbn.
  - split; [lia|]. split.
    + intros Hlen. constructor; [exact Hx|]. apply IHiff. lia.
    + intros Hall. inversion Hall; subst. f_equal. now apply IHiff.
  - split; [lia|]. split; [lia|]. intros Hall. now inversion Hall.
Qed.

(** [generate_reports] writes the three JSON reports and then fails with a
    division by zero, leaving no summary file, exactly when no audited link
    is broken; otherwise it writes the summary as well. *)
Theorem generate_reports_needs_a_broken_link
    (audit_results : list (string * audit))
    (fixed : list fixed_row) (cleared : list cleared_row) :
  (Forall (fun na => a_valid na.2 = true) audit_results <->
   generate_reports audit_results fixed cleared
   = ([acs_audit_full_json; acs_audit_fixed_json; acs_audit_cleared_json],
      Raise (Exn Other "division by zero"))) /\
  (~ Forall (fun na => a_valid na.2 = true) audit_results <->
   exists s, generate_reports audit_results fixed cleared
             = ([acs_audit_full_json; acs_audit_fixed_json;
                 acs_audit_cleared_json; acs_audit_summary_txt], Ok s)).
Proof.
  destruct (filter_all_length (fun na : string * audit => a_valid na.2 = true)
              audit_results) as [Hle Hiff].
  unfold generate_reports.
  set (total := Z.of_nat (length audit_results)) in *.
  set (valid := Z.of_nat (length (filter _ audit_results))) in *.
  destruct (decide (Forall (fun na : string * audit => a_valid na.2 = true)
                           audit_results)) as [Hall|Hnot].
  - assert (total - valid = 0) as Hz
      by (apply Hiff in Hall; subst total valid; lia).
    unfold percent at 1. rewrite Hz. cbn. split; split; try easy.
    intros [s Hs]. discriminate Hs.
  - assert (total - valid <> 0) as Hnz.
    { intros Hz. apply Hnot, Hiff. subst total valid. lia. }
    assert (total <> 0) as Ht by (subst total valid; lia).
    unfold percent.
    destruct (Z.eqb_spec (total - valid) 0) as [|_]; [contradiction|].
    destruct (Z.eqb_spec total 0) as [|_]; [contradiction|].
    cbn. split; split; try easy.
    intros _. now eexists.
Qed.
End ReportFacts.

(** ** acs_audit.py: the per-letter files *)

Section SyncFacts.
Import AcsAudit AcsSync.
Variable first_char : string -> string.
Variable upper : string -> string.

Definition has_letter (c : string) (e : entry) : bool :=
  match letter_of first_char upper e with
  | Ok c' => bool_decide (c' = c)
  | Raise _ => false
  end.

(** The entries filed under a letter. *)
Definition filed_under (c : string) (data : list entry) : list entry :=
  filter (fun e => has_letter c e = true) data.

Lemma group_spec (data : list entry) (m : gmap string (list entry)) :
  Forall (fun e => name e <> "") data ->
  exists m', group first_char upper m data = Ok m' /\
    forall c, default [] (m' !! c) = default [] (m !! c) ++ filed_under c data /\
              (is_Some (m' !! c) <->
               is_Some (m !! c) \/ filed_under c data <> []).
Proof.
  revert m. induction data as [|e data IH]; intros m Hall.
  - exists m. split; [reflexivity|]. intros c. rewrite app_nil_r.
    split; [reflexivity|]. split; [now left|]. intros [Hm|Hf]; [exact Hm|].
    contradiction.
  - inversion Hall as [|? ? He Hall']; subst. cbn [group].
    assert (letter_of first_char upper e
            = Ok (upper (first_char (name e)))) as Hletter.
    { unfold letter_of. destruct (name e); [contradiction|reflexivity]. }
    rewrite Hletter. cbn [res_bind].
    set (c0 := upper (first_char (name e))) in *.
    destruct (IH (<[c0 := default [] (m !! c0) ++ [e]]> m) Hall')
      as (m' & -> & Hm').
    exists m'. split; [reflexivity|]. intros c.
    destruct (Hm' c) as [Hval Hdom]. unfold filed_under in *.
    assert (has_letter c e = bool_decide (c0 = c)) as Hl
      by (unfold has_letter; now rewrite Hletter).
    rewrite filter_cons.
    destruct (decide (has_letter c e = true)) as [Ht|Hf]; rewrite Hl in *.
    + apply bool_decide_eq_true_1 in Ht. subst c.
      rewrite lookup_insert_eq in Hval, Hdom. cbn in Hval.
      split; [now rewrite Hval, <- app_assoc|].
      split; [intros _; now right|]. intros _. apply Hdom. left. now eexists.
    + assert (c0 <> c) as Hne
        by (intros Heq; apply Hf; now apply bool_decide_eq_true_2).
      rewrite lookup_insert_ne in Hval, Hdom by exact Hne.
      now split.
Qed.

(** [sync_artifacts] always writes [camellias.json] with the dataset.  When
    no name is empty, it writes for each letter [entry["name"][0].upper()]
    that occurs, and for no other, a file with the entries of that letter in
    the order of the dataset, and an index with one row for each entry; when
    a name is empty it raises after [camellias.json] is written, and writes
    no letter file and no index. *)
Theorem sync_artifacts_files (data : list entry) :
  camellias_json (sync_artifacts first_char upper data).1 = data /\
  (Forall (fun e => name e <> "") data ->
   (sync_artifacts first_char upper data).2 = None /\
   index_json (sync_artifacts first_char upper data).1
     = Some (index_of <$> data) /\
   forall c,
     letter_files (sync_artifacts first_char upper data).1 !! c
     = if decide (filed_under c data = []) then None
       else Some (filed_under c data)) /\
  (Exists (fun e => name e = "") data ->
   is_Some (sync_artifacts first_char upper data).2 /\
   letter_files (sync_artifacts first_char upper data).1 = ∅ /\
   index_json (sync_artifacts first_char upper data).1 = None).
Proof.
  unfold sync_artifacts. split;
    [now destruct (group first_char upper ∅ data)|]. split.
  - intros Hall. destruct (group_spec data ∅ Hall) as (m' & -> & Hm').
    cbn. repeat split. intros c. destruct (Hm' c) as [Hval Hdom].
    rewrite lookup_empty in Hval, Hdom. cbn in Hval.
    destruct (decide (filed_under c data = [])) as [He|Hne].
    + destruct (m' !! c) as [l|] eqn:Hl; [|reflexivity].
      exfalso. destruct Hdom as [Hdom _].
      destruct Hdom as [[x Hx]|Hf]; [now eexists|discriminate Hx|contradiction].
    + destruct Hdom as [_ Hdom]. destruct Hdom as [l Hl]; [now right|].
      rewrite Hl in Hval |- *. cbn in Hval. now rewrite Hval.
  - intros Hex.
    assert (forall m, exists e, group first_char upper m data = Raise e)
      as Hraise.
    { induction data as [|e data IH]; intros m; [inversion Hex|].
      cbn [group]. unfold letter_of.
      destruct (name e) as [|c0 s] eqn:Hn; [now eexists|]. cbn [res_bind].
      apply IH. inversion Hex as [? ? He|? ? Hrest]; subst; [congruence|].
      exact Hrest. }
    destruct (Hraise ∅) as [e ->]. cbn. repeat split. now eexists.
Qed.
End SyncFacts.

(** ** enrich_icr_chinese_name.py: the URLs and the summary *)

Section CollectFacts.
Import EnrichSummary.
Variable strip : string -> string.
Variable valid_icr_url : string -> bool.

(** A URL that [collect_unique_icr_urls] accepts from a record. *)
Definition offered (records : list dataset_record) (u : string) : Prop :=
  exists r s, r ∈ records /\ icr_url r = Some s /\ strip s = u /\
              u <> "" /\ valid_icr_url u = true.

Lemma collect_step_spec (urls : list string) (r : dataset_record) :
  NoDup urls ->
  NoDup (collect_step strip valid_icr_url urls r) /\
  forall u, u ∈ collect_step strip valid_icr_url urls r <->
            u ∈ urls \/ offered [r] u.
Proof.
  intros Hnd. unfold collect_step, offered.
  destruct (icr_url r) as [s|] eqn:Hs.
  - destruct (String.eqb_spec (strip s) "") as [He|Hne]; cbn [negb andb].
    + split; [exact Hnd|]. intros u. split; [now left|].
      intros [Hu|(r' & s' & Hr' & Hs' & <- & Hne & _)]; [exact Hu|].
      apply list_elem_of_singleton in Hr' as ->. congruence.
    + destruct (valid_icr_url (strip s)) eqn:Hv; cbn [andb].
      * destruct (decide (strip s ∉ urls)) as [Hnew|Hold].
        -- rewrite (bool_decide_eq_true_2 _ Hnew). split.
           ++ apply NoDup_app. repeat split; [exact Hnd| |apply NoDup_singleton].
              intros x Hx Hx'. apply list_elem_of_singleton in Hx' as ->.
              contradiction.
           ++ intros u. rewrite elem_of_app, list_elem_of_singleton. split.
              ** intros [Hu| ->]; [now left|]. right. exists r, s.
                 repeat split; try assumption. now left.
              ** intros [Hu|(r' & s' & Hr' & Hs' & <- & _)]; [now left|].
                 apply list_elem_of_singleton in Hr' as ->.
                 right. congruence.
        -- rewrite (bool_decide_eq_false_2 _ Hold). split; [exact Hnd|].
           intros u. split; [now left|].
           intros [Hu|(r' & s' & Hr' & Hs' & <- & _)]; [exact Hu|].
           apply list_elem_of_singleton in Hr' as ->.
           assert (s' = s) as -> by congruence.
           destruct (decide (strip s ∈ urls)); [assumption|contradiction].
      * split; [exact Hnd|]. intros u. split; [now left|].
        intros [Hu|(r' & s' & Hr' & Hs' & <- & _ & Hv')]; [exact Hu|].
        apply list_elem_of_singleton in Hr' as ->. congruence.
  - split; [exact Hnd|]. intros u. split; [now left|].
    intros [Hu|(r' & s' & Hr' & Hs' & _)]; [exact Hu|].
    apply list_elem_of_singleton in Hr' as ->. congruence.
Qed.

Lemma collect_from (records : list dataset_record) (urls : list string) :
  NoDup urls ->
  NoDup (foldl (collect_step strip valid_icr_url) urls records) /\
  forall u, u ∈ foldl (collect_step strip valid_icr_url) urls records <->
            u ∈ urls \/ offered records u.
Proof.
  revert urls. induction records as [|r records IH]; intros urls Hnd.
  - cbn. split; [exact Hnd|]. intros u. split; [now left|].
    intros [Hu|(r & s & Hr & _)]; [exact Hu|]. inversion Hr.
  - cbn [foldl]. destruct (collect_step_spec urls r Hnd) as [Hnd' Hstep].
    destruct (IH _ Hnd') as [Hnd'' Hrest]. split; [exact Hnd''|].
    intros u. rewrite Hrest, Hstep. unfold offered. split.
    + intros [[Hu|(r' & s & Hr' & Hrest')]|(r' & s & Hr' & Hrest')].
      * now left.
      * right. exists r', s. apply list_elem_of_singleton in Hr' as ->.
        split; [left|exact Hrest'].
      * right. exists r', s. split; [now right|exact Hrest'].
    + intros [Hu|(r' & s & Hr' & Hrest')]; [now left; left|].
      apply elem_of_cons in Hr' as [->|Hr'].
      * left. right. exists r, s. split; [left|exact Hrest'].
      * right. exists r', s. now split.
Qed.

(** [collect_unique_icr_urls] lists no URL twice, and lists exactly the
    stripped, non-empty, valid URLs of the records. *)
Theorem collect_unique_icr_urls_spec (records : list dataset_record) :
  NoDup (collect_unique_icr_urls strip valid_icr_url records) /\
  forall u, u ∈ collect_unique_icr_urls strip valid_icr_url records <->
            offered records u.
Proof.
  destruct (collect_from records [] (NoDup_nil_2)) as [Hnd Hiff].
  split; [exact Hnd|]. intros u. unfold collect_unique_icr_urls.
  rewrite Hiff. split; [|now right]. intros [Hu|Hu]; [inversion Hu|exact Hu].
Qed.
End CollectFacts.

Section EnrichRunFacts.
Import EnrichIcr EnrichSummary.
Context `{Env}.

(** The results [fetch_one] builds: names with [ok] and with no other
    status. *)
Definition sound_result (r : UrlResult) : Prop :=
  match status r with
  | ok => chinese_name r <> []
  | missing | failed => chinese_name r = []
  | skipped => False
  end.

Lemma fetch_one_sound url tmo t r d :
  fetch_one url tmo t = (Ok r, d) -> sound_result r.
Proof.
  unfold fetch_one. destruct (session_get url tmo t) as [[resp|e] d0]; cbn.
  - destruct (decide (status_code resp <> 200)).
    + intros [= <- _]. reflexivity.
    + destruct (bool_decide (extract_chinese_names (text resp) <> []))
        eqn:Hn; intros [= <- _]; [|reflexivity].
      now apply bool_decide_eq_true_1 in Hn.
  - intros [= <- _]. reflexivity.
Qed.

(** What a turn does to the cache and to the requests. *)
Lemma body_cache_requests a total url st :
  (exists r, cache st !! url = Some r /\
     cache (body a total url st) = cache st /\
     requests (body a total url st) = requests st) \/
  (exists r d t, cache st !! url = None /\
     fetch_one url (timeout a) t = (Ok r, d) /\
     cache (body a total url st) = <[url := r]> (cache st) /\
     requests (body a total url st) = requests st ++ [(t, url)]).
Proof.
  unfold body. destruct (cache st !! url) as [cached|] eqn:Hcache.
  - left. exists cached. repeat split.
  - right.
    set (t := if now st - last_request_ts (cp st) <? delay a
              then now st + (delay a - (now st - last_request_ts (cp st)))
              else now st).
    destruct (fetch_one_ok url (timeout a) t) as [fetched Hfetched].
    rewrite Hfetched. exists fetched, (session_get url (timeout a) t).2, t.
    repeat split. exact Hfetched.
Qed.

(** No URL is asked for twice, and what was asked for is in the cache. *)
Definition asked_once (st : state) : Prop :=
  NoDup (requests st).*2 /\
  forall u, u ∈ (requests st).*2 -> is_Some (cache st !! u).

Lemma asked_once_body a total url st :
  asked_once st ->
  asked_once (body a total url st) /\
  forall u, u ∈ (requests (body a total url st)).*2 ->
            u ∈ (requests st).*2 \/ u = url.
Proof.
  intros [Hnd Hin]. unfold asked_once.
  destruct (body_cache_requests a total url st)
    as [(r & Hc & -> & ->)|(r & d & t & Hc & _ & -> & ->)].
  - repeat split; [exact Hnd|exact Hin|]. intros u Hu. now left.
  - rewrite fmap_app. cbn. repeat split.
    + apply NoDup_app. repeat split; [exact Hnd| |apply NoDup_singleton].
      intros x Hx Hx'. apply list_elem_of_singleton in Hx' as ->.
      apply Hin in Hx as [x Hx]. congruence.
    + intros u Hu. apply elem_of_app in Hu as [Hu|Hu].
      * destruct (decide (u = url)) as [->|Hne].
        -- rewrite lookup_insert_eq. now eexists.
        -- rewrite lookup_insert_ne by congruence. now apply Hin.
      * apply list_elem_of_singleton in Hu as ->.
        rewrite lookup_insert_eq. now eexists.
    + intros u Hu. apply elem_of_app in Hu as [Hu|Hu]; [now left|].
      apply list_elem_of_singleton in Hu. now right.
Qed.

Lemma asked_once_loop a total rest st :
  asked_once st ->
  asked_once (loop a total rest st) /\
  forall u, u ∈ (requests (loop a total rest st)).*2 ->
            u ∈ (requests st).*2 \/ u ∈ rest.
Proof.
  revert st. induction rest as [|url rest IH]; intros st Hst.
  - split; [exact Hst|]. intros u Hu. now left.
  - cbn [loop].
    destruct (limit_reached a st || bool_decide (is_Some (raised st))).
    + split; [exact Hst|]. intros u Hu. now left.
    + destruct (asked_once_body a total url st Hst) as [Hst' Hreq].
      destruct (IH _ Hst') as [Hst'' Hreq']. split; [exact Hst''|].
      intros u Hu. destruct (Hreq' u Hu) as [Hu'|Hu']; [|right; now right].
      destruct (Hreq u Hu') as [Hu''| ->]; [now left|right; left].
Qed.

Lemma prepare_requests a urls t ms cf :
  requests (prepare a urls (boot t ms cf)) = [].
Proof.
  unfold prepare. now destruct (load_best_checkpoint _ _ _ _).
Qed.

(** In one run of the script no URL is requested twice; every URL that was
    requested is one of the list, and is in the cache when the loop ends. *)
Theorem enrich_no_url_requested_twice a urls t ms cf :
  NoDup (requests (main a urls (boot t ms cf))).*2 /\
  forall u, u ∈ (requests (main a urls (boot t ms cf))).*2 ->
            u ∈ urls /\ is_Some (cache (main a urls (boot t ms cf)) !! u).
Proof.
  unfold main. set (st0 := prepare a urls (boot t ms cf)).
  assert (asked_once st0) as H0.
  { unfold asked_once, st0. rewrite prepare_requests. cbn.
    split; [constructor|]. intros u Hu. inversion Hu. }
  destruct (asked_once_loop a (Z.of_nat (length urls))
              (drop (Z.to_nat (idx st0)) urls) st0 H0) as [[Hnd Hin] Hfrom].
  split; [exact Hnd|]. intros u Hu. split; [|now apply Hin].
  destruct (Hfrom u Hu) as [Hu'|Hu'].
  - unfold st0 in Hu'. rewrite prepare_requests in Hu'. inversion Hu'.
  - apply list_elem_of_lookup in Hu' as [i Hi]. rewrite lookup_drop in Hi.
    now apply list_elem_of_lookup_2 in Hi.
Qed.
End EnrichRunFacts.

Section EnrichSummaryFacts.
Import EnrichIcr EnrichSummary.
Context `{Env}.

(** A sound result falls in exactly one of the three classes. *)
Lemma sound_one_class (r : UrlResult) :
  sound_result r ->
  (Nat.b2n (is_found r) + Nat.b2n (is_missing r) + Nat.b2n (is_failed r) = 1)%nat.
Proof.
  unfold sound_result, is_found, is_missing, is_failed.
  destruct r as [names st hs er ft]. cbn. destruct st; cbn; intros Hs.
  - rewrite (bool_decide_eq_true_2 _ Hs).
    now rewrite (bool_decide_eq_false_2 (names = []) Hs).
  - rewrite Hs. reflexivity.
  - rewrite Hs. reflexivity.
  - contradiction.
Qed.

Lemma classes_add_up (l : list (string * UrlResult)) :
  Forall (fun kr => sound_result kr.2) l ->
  (length (filter (fun kr => is_found kr.2 = true) l)
   + length (filter (fun kr => is_missing kr.2 = true) l)
   + length (filter (fun kr => is_failed kr.2 = true) l) = length l)%nat.
Proof.
  induction 1 as [|kr l Hkr _ IH]; [reflexivity|].
  rewrite !filter_cons. apply sound_one_class in Hkr.
  destruct (is_found kr.2), (is_missing kr.2), (is_failed kr.2);
    cbn in Hkr; try discriminate Hkr;
    repeat match goal with
    | |- context [decide (true = true)] =>
        destruct (decide (true = true)) as [_|Hn]; [|contradiction]
    | |- context [decide (false = true)] =>
        destruct (decide (false = true)) as [Hn|_]; [discriminate|]
    end; cbn [length]; lia.
Qed.

Lemma counts_add_up (c : gmap string UrlResult) :
  map_Forall (fun _ r => sound_result r) c ->
  count is_found c + count is_missing c + count is_failed c
  = Z.of_nat (size c).
Proof.
  intros Hc. unfold count.
  rewrite <- (length_map_to_list c).
  rewrite <- (classes_add_up (map_to_list c)); [lia|].
  apply Forall_forall. intros [k r] Hkr. apply elem_of_map_to_list in Hkr.
  exact (Hc k r Hkr).
Qed.

(** What the turns leave in the cache. *)
Definition sound_cache (st : state) : Prop :=
  map_Forall (fun _ r => sound_result r) (cache st).

Lemma sound_cache_body a total url st :
  sound_cache st ->
  sound_cache (body a total url st) /\
  dom (cache (body a total url st)) = {[url]} ∪ dom (cache st).
Proof.
  intros Hs. unfold sound_cache.
  destruct (body_cache_requests a total url st)
    as [(r & Hc & -> & _)|(r & d & t & Hc & Hf & -> & _)].
  - split; [exact Hs|]. apply elem_of_dom_2 in Hc. symmetry.
    now apply subseteq_union_1_L, singleton_subseteq_l.
  - split; [|now rewrite dom_insert_L].
    apply map_Forall_insert_2; [|exact Hs]. now apply fetch_one_sound in Hf.
Qed.

Lemma sound_cache_turns a total us st :
  sound_cache st ->
  sound_cache (turns a total us st) /\
  dom (cache (turns a total us st)) = list_to_set us ∪ dom (cache st).
Proof.
  revert st. induction us as [|u us IH]; intros st Hs.
  - cbn. split; [exact Hs|]. now rewrite union_empty_l_L.
  - cbn [turns foldl]. fold (turns a total us (body a total u st)).
    destruct (sound_cache_body a total u st Hs) as [Hs' Hdom].
    destruct (IH _ Hs') as [Hs'' Hdom']. split; [exact Hs''|].
    rewrite Hdom', Hdom, list_to_set_cons.
    rewrite (union_comm_L {[u]} (list_to_set us)).
    now rewrite (assoc_L (∪)).
Qed.

(** A fresh run that finds a mirror path reaches its summary.  There the
    three counters add up to the number of processed URLs; that number is
    the cursor when the list holds no URL twice; and the cursor is the
    number of URLs when no limit is set. *)
Theorem enrich_summary_adds_up a urls t m0 ms cf :
  resume a = false ->
  exists s,
    summarize urls (main a urls (boot t (m0 :: ms) cf)) = Ok s /\
    found_urls_with_chinese_names s + missing_urls s + failed_urls s
      = processed_unique_icr_urls s /\
    (NoDup urls -> processed_unique_icr_urls s = summary_next_index s) /\
    (max_urls a <= 0 -> summary_next_index s = total_unique_icr_urls s).
Proof.
  intros Hres.
  destruct (prepare_fresh a urls t m0 ms cf Hres)
    as (Hr & Hidx & Hcache & _).
  destruct (fresh_run_turns (length urls) a urls t m0 ms cf Hres)
    as (m & Hm & Hrun & Hall).
  rewrite <- main_is_killed_late in Hrun. rewrite firstn_all in Hm, Hall.
  set (st0 := prepare a urls (boot t (m0 :: ms) cf)) in *.
  assert (sound_cache st0) as Hs0.
  { unfold sound_cache. rewrite Hcache. apply map_Forall_empty. }
  destruct (sound_cache_turns a (Z.of_nat (length urls)) (take m urls) st0 Hs0)
    as [Hsound Hdom].
  unfold summarize. rewrite Hrun, raised_turns, Hr.
  eexists. split; [reflexivity|]. cbn. repeat split.
  - now apply counts_add_up.
  - intros Hnd. rewrite idx_turns, Hidx, length_take.
    rewrite <- size_dom, Hdom, Hcache, dom_empty_L, union_empty_r_L.
    rewrite size_list_to_set
      by (apply (sublist_NoDup _ urls); [exact Hnd|apply sublist_take]).
    rewrite length_take. lia.
  - intros Hno. rewrite idx_turns, Hidx, length_take, (Hall Hno). lia.
Qed.
End EnrichSummaryFacts.

(** ** enrich_icr_chinese_name.py: the cache file read back *)

Section UrlCacheFacts.
Import EnrichIcr.
Context `{Env}.

(** Names that [load_url_cache] keeps as they are. *)
Definition clean_names (l : list string) : Prop :=
  NoDup l /\
  Forall (fun n => normalize_text n = n /\ n <> "" /\ has_cjk n = true) l.

(** One turn of the loop over the stored names. *)
Definition reload_step (acc : list string) (n : string) : list string :=
  let n' := normalize_text n in
  if negb (String.eqb n' "") && has_cjk n' && bool_decide (n' ∉ acc)
  then acc ++ [n'] else acc.

Lemma reload_clean (l acc : list string) :
  Forall (fun n => normalize_text n = n /\ n <> "" /\ has_cjk n = true) l ->
  NoDup (acc ++ l) -> foldl reload_step acc l = acc ++ l.
Proof.
  revert acc. induction l as [|n l IH]; intros acc Hall Hnd.
  - now rewrite app_nil_r.
  - inversion Hall as [|? ? (Hn & Hne & Hc) Hall']; subst.
    cbn [foldl]. unfold reload_step at 2. rewrite Hn, Hc.
    destruct (String.eqb_spec n "") as [|_]; [contradiction|].
    apply NoDup_app in Hnd as Hparts. destruct Hparts as (_ & Hdisj & _).
    rewrite bool_decide_eq_true_2
      by (intros Hin; apply (Hdisj n Hin); left).
    cbn. rewrite IH; [now rewrite <- app_assoc|exact Hall'|].
    now rewrite <- app_assoc.
Qed.

Lemma reload_sublist (l acc : list string) :
  NoDup acc ->
  exists k, foldl reload_step acc l = acc ++ k /\
    k `sublist_of` (normalize_text <$> l) /\
    NoDup (acc ++ k) /\
    Forall (fun n => n <> "" /\ has_cjk n = true) k.
Proof.
  revert acc. induction l as [|n l IH]; intros acc Hnd.
  - exists []. rewrite app_nil_r. repeat split; [constructor|exact Hnd|constructor].
  - cbn [foldl]. unfold reload_step at 2.
    destruct (String.eqb_spec (normalize_text n) "") as [He|Hne]; cbn [negb andb].
    + destruct (IH acc Hnd) as (k & -> & Hsub & Hnd' & Hall).
      exists k. repeat split; try assumption. cbn. now apply sublist_cons.
    + destruct (has_cjk (normalize_text n)) eqn:Hc; cbn [andb].
      * destruct (decide (normalize_text n ∉ acc)) as [Hnew|Hold].
        -- rewrite (bool_decide_eq_true_2 _ Hnew).
           destruct (IH (acc ++ [normalize_text n])) as (k & -> & Hsub & Hnd' & Hall).
           { apply NoDup_app. repeat split; [exact Hnd| |apply NoDup_singleton].
             intros x Hx Hx'. apply list_elem_of_singleton in Hx' as ->.
             contradiction. }
           exists (normalize_text n :: k). rewrite <- app_assoc in *.
           repeat split; [|exact Hnd'|].
           ++ cbn. now apply sublist_skip.
           ++ constructor; [now split|exact Hall].
        -- rewrite (bool_decide_eq_false_2 _ Hold).
           destruct (IH acc Hnd) as (k & -> & Hsub & Hnd' & Hall).
           exists k. repeat split; try assumption. cbn. now apply sublist_cons.
      * destruct (IH acc Hnd) as (k & -> & Hsub & Hnd' & Hall).
        exists k. repeat split; try assumption. cbn. now apply sublist_cons.
Qed.

Lemma sublist_full {A} (l1 l2 : list A) :
  l1 `sublist_of` l2 -> (length l2 <= length l1)%nat -> l1 = l2.
Proof.
  induction 1 as [|x l1 l2 Hsub IH|x l1 l2 Hsub IH]; intros Hlen.
  - reflexivity.
  - cbn in Hlen. f_equal. apply IH. lia.
  - apply sublist_length in Hsub. cbn in Hlen. lia.
Qed.

Lemma reload_names_step (raw : list string) :
  reload_names raw = foldl reload_step [] raw.
Proof. reflexivity. Qed.

(** The stored names come back as they are exactly when they are clean. *)
Lemma reload_names_fixed (l : list string) :
  reload_names l = l <-> clean_names l.
Proof.
  rewrite reload_names_step. split.
  - intros Heq.
    destruct (reload_sublist l [] (NoDup_nil_2)) as (k & Hk & Hsub & Hnd & Hall).
    cbn [app] in Hk, Hnd. rewrite Heq in Hk. subst k.
    apply sublist_full in Hsub; [|now rewrite length_fmap].
    split; [exact Hnd|].
    apply Forall_forall. intros n Hn.
    rewrite Forall_forall in Hall. destruct (Hall n Hn) as [Hne Hc].
    repeat split; [|exact Hne|exact Hc].
    apply list_elem_of_lookup in Hn as [i Hi].
    assert ((normalize_text <$> l) !! i = Some n) as Hi' by now rewrite <- Hsub.
    rewrite list_lookup_fmap, Hi in Hi'. now injection Hi'.
  - intros [Hnd Hall]. now rewrite (reload_clean l []).
Qed.

(** A cache written by [save_url_cache] is read back by [load_url_cache] as
    it was exactly when every stored list of names is clean: no name twice,
    every name non-empty, with a CJK character, and left as it is by
    [normalize_text]. *)
Theorem url_cache_round_trip (c : gmap string UrlResult) :
  load_url_cache (Some c) false = c <->
  map_Forall (fun _ r => clean_names (chinese_name r)) c.
Proof.
  unfold load_url_cache. split.
  - intros Heq k r Hk.
    assert ((reload_result <$> c) !! k = Some r) as Hk' by now rewrite Heq.
    rewrite lookup_fmap, Hk in Hk'. cbn in Hk'. injection Hk' as Hr.
    apply reload_names_fixed.
    change (chinese_name (reload_result r) = chinese_name r). now rewrite Hr.
  - intros Hall. apply map_eq. intros k. rewrite lookup_fmap.
    destruct (c !! k) as [r|] eqn:Hk; [|reflexivity]. cbn. f_equal.
    specialize (Hall k r Hk). apply reload_names_fixed in Hall.
    destruct r as [names st hs er ft]. unfold reload_result. cbn in *.
    now rewrite Hall.
Qed.
End UrlCacheFacts.

(** ** enrich_icr_chinese_name.py: writing the names into the records *)

Section ApplyFacts.
Import EnrichIcr AcsAudit EnrichApply.
Context `{Env}.
Variable strip : string -> string.

Lemma ensure_one_reset (r : record) :
  (forall k, k <> "chinese_name" ->
             <["chinese_name" := JArr []]> r !! k = r !! k) /\
  <["chinese_name" := JArr []]> r !! "chinese_name"
    = Some (JArr (JStr <$> [])) /\
  (true = false -> <["chinese_name" := JArr []]> r = r).
Proof.
  split; [|split].
  - intros k Hk. now rewrite lookup_insert_ne.
  - now rewrite lookup_insert_eq.
  - discriminate.
Qed.

Lemma ensure_one_spec (r : record) :
  (forall k, k <> "chinese_name" -> (ensure_one r).1 !! k = r !! k) /\
  (ensure_one r).1 !! "chinese_name"
    = Some (JArr (JStr <$> match r !! "chinese_name" with
                           | Some (JArr cur) => clean_list cur
                           | _ => []
                           end)) /\
  ((ensure_one r).2 = false -> (ensure_one r).1 = r).
Proof.
  unfold ensure_one.
  destruct (r !! "chinese_name") as [[|b|n|s|cur]|] eqn:Hcur; cbn [fst snd];
    try apply ensure_one_reset.
  destruct (decide (JStr <$> clean_list cur <> cur)) as [Hne|Heq]; cbn [fst snd].
  - split; [|split].
    + intros k Hk. now rewrite lookup_insert_ne.
    + now rewrite lookup_insert_eq.
    + discriminate.
  - split; [|split]; [reflexivity| |reflexivity].
    rewrite Hcur. do 2 f_equal.
    destruct (decide (JStr <$> clean_list cur = cur)); [easy|contradiction].
Qed.

Lemma apply_one_spec (result_map : gmap string UrlResult) (r : record) :
  (forall k, k <> "chinese_name" ->
             (apply_one strip result_map r).1 !! k = r !! k) /\
  (forall u result, r !! "icr_url" = Some (JStr u) ->
     result_map !! strip u = Some result ->
     (apply_one strip result_map r).1 !! "chinese_name"
       = Some (JArr (JStr <$> chinese_name result))) /\
  ((forall u, r !! "icr_url" = Some (JStr u) -> result_map !! strip u = None)
   -> (apply_one strip result_map r).1 = r) /\
  ((apply_one strip result_map r).2 = false ->
   (apply_one strip result_map r).1 = r).
Proof.
  unfold apply_one.
  destruct (r !! "icr_url") as [[|b|n|u|l]|] eqn:Hu; cbn;
    try (repeat split; intros; discriminate).
  destruct (result_map !! strip u) as [result|] eqn:Hres; cbn.
  - destruct (decide (r !! "chinese_name"
                      <> Some (JArr (JStr <$> chinese_name result))))
      as [Hne|Heq]; cbn.
    + repeat split.
      * intros k Hk. now rewrite lookup_insert_ne.
      * intros u' result' [= <-] Hres'. rewrite lookup_insert_eq. congruence.
      * intros Hnone. specialize (Hnone u eq_refl). congruence.
      * discriminate.
    + repeat split. intros u' result' [= <-] Hres'.
      destruct (decide (r !! "chinese_name"
                        = Some (JArr (JStr <$> chinese_name result))))
        as [->|]; [congruence|contradiction].
  - repeat split. intros u' result' [= <-] Hres'. congruence.
Qed.

Lemma existsb_false_all {A} (f : A -> bool) (l : list A) (x : A) :
  existsb f l = false -> x ∈ l -> f x = false.
Proof.
  induction l as [|y l IH]; intros He Hx; [inversion Hx|].
  cbn in He. apply orb_false_elim in He as [Hy Hl].
  apply elem_of_cons in Hx as [->|Hx]; [exact Hy|now apply IH].
Qed.

(** [apply_result_map] keeps the records in number and order, and in each
    every key but [chinese_name], which becomes a list of strings: the names
    the map holds for the stripped [icr_url] of the record when it holds
    some, and else the cleaned list the record had.  When it answers that
    nothing changed, the records are as they were. *)
Theorem apply_result_map_spec (records : list record)
    (result_map : gmap string UrlResult) :
  length (apply_result_map strip records result_map).1 = length records /\
  (forall i r, records !! i = Some r ->
     exists r',
       (apply_result_map strip records result_map).1 !! i = Some r' /\
       (forall k, k <> "chinese_name" -> r' !! k = r !! k) /\
       (forall u result, r !! "icr_url" = Some (JStr u) ->
          result_map !! strip u = Some result ->
          r' !! "chinese_name" = Some (JArr (JStr <$> chinese_name result))) /\
       ((forall u, r !! "icr_url" = Some (JStr u) ->
                   result_map !! strip u = None) ->
        r' !! "chinese_name"
          = Some (JArr (JStr <$> match r !! "chinese_name" with
                                 | Some (JArr cur) => clean_list cur
                                 | _ => []
                                 end)))) /\
  ((apply_result_map strip records result_map).2 = false ->
   (apply_result_map strip records result_map).1 = records).
Proof.
  unfold apply_result_map, ensure_chinese_name_field. cbn [fst snd].
  repeat split.
  - now rewrite !length_fmap.
  - intros i r Hi. rewrite !list_lookup_fmap, Hi. cbn.
    eexists. split; [reflexivity|].
    destruct (ensure_one_spec r) as (Hkeep & Hnames & _).
    destruct (apply_one_spec result_map (ensure_one r).1)
      as (Hkeep' & Hset & Hnone & _).
    assert ((ensure_one r).1 !! "icr_url" = r !! "icr_url") as Hurl
      by (apply Hkeep; discriminate).
    repeat split.
    + intros k Hk. now rewrite Hkeep', Hkeep.
    + intros u result Hu Hres. apply (Hset u result); [|exact Hres].
      now rewrite Hurl.
    + intros Hno. rewrite Hnone; [exact Hnames|].
      intros u Hu. apply Hno. now rewrite <- Hurl.
  - intros Hflag. apply orb_false_elim in Hflag as [He Ha].
    apply list_eq. intros i. rewrite !list_lookup_fmap.
    destruct (records !! i) as [r|] eqn:Hi; [|reflexivity]. cbn. f_equal.
    assert ((ensure_one r).1 = r) as Hr.
    { apply ensure_one_spec.
      apply (existsb_false_all _ records r He).
      now apply list_elem_of_lookup_2 with i. }
    rewrite Hr. apply apply_one_spec.
    apply (existsb_false_all _ _ r Ha).
    apply list_elem_of_fmap. exists r. split; [now rewrite Hr|].
    now apply list_elem_of_lookup_2 with i.
Qed.
End ApplyFacts.

(** ** icr_match_audit.py: the queries and the clock *)

Section IcrAuditClockFacts.
Import IcrMatchAudit IcrAuditClock.
Context `{Env}.

Definition post_times (w : world) : list Z := (posts w).*1.

(** The posts are spaced, and the clock is not behind the last one. *)
Definition posts_spaced (w : world) : Prop :=
  spaced RATE_LIMIT (post_times w) /\
  forall t0, last (post_times w) = Some t0 -> t0 <= now w.

(** Moreover the last post is a full interval back. *)
Definition rested (w : world) : Prop :=
  forall t0, last (post_times w) = Some t0 -> t0 + RATE_LIMIT <= now w.

Lemma rested_sleep (w : world) :
  posts_spaced w -> rested (sleep w RATE_LIMIT) /\ posts_spaced (sleep w RATE_LIMIT).
Proof.
  intros [Hs Hl]. unfold rested, posts_spaced, post_times, sleep. cbn.
  repeat split; [|exact Hs|]; intros t0 Ht0; specialize (Hl t0 Ht0);
    unfold RATE_LIMIT; lia.
Qed.

Lemma query_loop_spaced name tried cands variants w :
  posts_spaced w -> rested w ->
  posts_spaced (query_loop name tried cands variants w).2.
Proof.
  revert tried cands w.
  induction variants as [|v rest IH]; intros tried cands w Hw Hr; [exact Hw|].
  cbn [query_loop]. destruct (query_api v (now w)) as [r d].
  set (w1 := {| now := now w + Z.of_N d; posts := posts w ++ [(now w, v)] |}).
  assert (posts_spaced w1) as Hw1.
  { destruct Hw as [Hs Hl]. unfold posts_spaced, post_times, w1. cbn.
    rewrite fmap_app. cbn. split.
    - apply spaced_snoc; [exact Hs|]. intros t0 Ht0.
      specialize (Hr t0 Ht0). lia.
    - intros t0 Ht0. rewrite last_snoc in Ht0. injection Ht0 as <-. lia. }
  destruct r as [raw|e]; [|exact Hw1].
  destruct rest as [|v' rest'].
  - cbn. exact Hw1.
  - apply IH; now apply rested_sleep.
Qed.

Lemma step_spaced total i name r :
  posts_spaced (outside r) -> rested (outside r) ->
  posts_spaced (outside (step total i name r)) /\
  (i < total - 1 -> rested (outside (step total i name r))).
Proof.
  intros Hw Hr. unfold step.
  destruct (completed r !! name); [now split|].
  unfold search_icr.
  pose proof (query_loop_spaced name [] [] (query_variants name) (outside r)
                Hw Hr) as Hq.
  destruct (query_loop name [] [] (query_variants name) (outside r))
    as [result w]. cbn in Hq |- *.
  destruct (Z.ltb_spec i (total - 1)).
  - split; [now apply rested_sleep|]. intros _. now apply rested_sleep.
  - split; [exact Hq|lia].
Qed.

Lemma loop_spaced total i names r :
  i + Z.of_nat (length names) = total ->
  posts_spaced (outside r) -> rested (outside r) ->
  posts_spaced (outside (loop total i names r)).
Proof.
  revert i r. induction names as [|n rest IH]; intros i r Hi Hw Hr;
    [exact Hw|].
  cbn [loop]. cbn [length] in Hi.
  destruct (step_spaced total i n r Hw Hr) as [Hw' Hr'].
  destruct rest as [|n' rest'].
  - exact Hw'.
  - apply IH; [lia|exact Hw'|]. apply Hr'. cbn [length] in Hi. lia.
Qed.

(** In one run of [main], any two consecutive queries to the API are sent
    at least [RATE_LIMIT_SECONDS] apart, whatever the names, the progress
    file and the answers. *)
Theorem icr_audit_queries_spaced (names : list string)
    (file : option (gmap string result)) (t : Z) :
  spaced RATE_LIMIT
    (post_times (outside (main names file {| now := t; posts := [] |}))).
Proof.
  unfold main. cbn [outside].
  apply loop_spaced; [lia| |].
  - split; [intros i t1 t2 Hi; destruct i; discriminate Hi|discriminate].
  - intros t0 Ht0. discriminate Ht0.
Qed.
End IcrAuditClockFacts.

Section IcrVariantFacts.
Import IcrMatchAudit IcrAuditClock.
Context `{Env}.

Lemma dedup_from (acc vs : list string) :
  NoDup acc ->
  exists k,
    foldl (fun acc v => if bool_decide (v ∉ acc) then acc ++ [v] else acc)
          acc vs = acc ++ k /\
    NoDup (acc ++ k).
Proof.
  revert acc. induction vs as [|v vs IH]; intros acc Hnd.
  - exists []. now rewrite app_nil_r.
  - cbn [foldl]. destruct (decide (v ∉ acc)) as [Hnew|Hold].
    + rewrite (bool_decide_eq_true_2 _ Hnew).
      destruct (IH (acc ++ [v])) as (k & -> & Hnd').
      { apply NoDup_app. repeat split; [exact Hnd| |apply NoDup_singleton].
        intros x Hx Hx'. apply list_elem_of_singleton in Hx' as ->.
        contradiction. }
      exists (v :: k). now rewrite <- app_assoc in *.
    + rewrite (bool_decide_eq_false_2 _ Hold). now apply IH.
Qed.

(** The variants of a name are pairwise distinct, and the first is the name
    itself. *)
Lemma query_variants_shape (name : string) :
  NoDup (query_variants name) /\ head (query_variants name) = Some name.
Proof.
  unfold query_variants, dedup.
  assert (exists rest, raw_variants name = name :: rest) as [rest ->].
  { unfold raw_variants. cbv zeta. cbn [app].
    set (a := if decide (plain_of name <> name) then _ else _).
    set (b := if contains " - " name then _ else _).
    assert (forall parts vs,
              exists rest,
                foldl (fun vs part =>
                         if negb (String.eqb (py_strip part) "")
                            && bool_decide (py_strip part ∉ vs)
                         then vs ++ [py_strip part] else vs)
                      (name :: vs) parts
                = name :: rest) as Hfold.
    { induction parts as [|p parts IH]; intros vs; [now eexists|].
      cbn [foldl]. destruct (_ && _); [apply (IH (vs ++ [_]))|apply IH]. }
    destruct (contains " / " name).
    - destruct (Hfold (split " / " name) (a ++ b)) as [rest3 ->].
      destruct (bool_decide _); now eexists.
    - destruct (bool_decide _); now eexists. }
  cbn [foldl]. rewrite bool_decide_eq_true_2 by (intros Hin; inversion Hin).
  cbn [app].
  destruct (dedup_from [name] rest) as (k & -> & Hnd).
  { apply NoDup_singleton. }
  split; [exact Hnd|reflexivity].
Qed.

Lemma match_candidates_tried name plain tried cands :
  queries_tried (match_candidates fuzzy_score round4 name plain tried cands)
  = tried /\
  res_status (match_candidates fuzzy_score round4 name plain tried cands)
  <> error.
Proof.
  unfold match_candidates. destruct cands as [|c cs]; [now split|].
  destruct (sort_desc _) as [|top rest]; [now split|]. cbn.
  split; [reflexivity|]. unfold classify.
  repeat match goal with
         | |- context [if ?b then _ else _] => destruct b
         end; discriminate.
Qed.

Lemma query_loop_tried name tried cands variants w :
  exists k,
    queries_tried (query_loop name tried cands variants w).1
      = tried ++ take k variants /\
    (posts (query_loop name tried cands variants w).2).*2
      = (posts w).*2 ++ take k variants /\
    (res_status (query_loop name tried cands variants w).1 <> error ->
     take k variants = variants) /\
    (res_status (query_loop name tried cands variants w).1 = error ->
     exists v, last (take k variants) = Some v).
Proof.
  revert tried cands w.
  induction variants as [|v rest IH]; intros tried cands w.
  - exists 0%nat. cbn. rewrite !app_nil_r.
    destruct (match_candidates_tried name (plain_of name) tried cands)
      as [Ht Hs].
    repeat split; [exact Ht|]. intros He. contradiction.
  - cbn [query_loop]. destruct (query_api v (now w)) as [[raw|e] d].
    + match goal with
      | |- context [query_loop name ?t ?c rest ?w'] =>
          destruct (IH t c w') as (k & Ht & Hp & Hall & Herr);
          assert ((posts w').*2 = (posts w).*2 ++ [v]) as Hw'
            by (destruct rest; cbn; now rewrite fmap_app)
      end.
      exists (S k). rewrite Ht, Hp, Hw', <- !app_assoc. cbn.
      repeat split.
      * intros Hok. f_equal. now apply Hall.
      * intros He. destruct (Herr He) as [v' Hv'].
        destruct (take k rest); [discriminate|]. now exists v'.
    + exists 1%nat. cbn. rewrite take_0, fmap_app. repeat split.
      * intros Hok. contradiction.
      * intros _. now exists v.
Qed.

(** [search_icr] sends one query for each variant it tries, in the order
    of the variants and starting with the name itself; no variant is tried
    twice; and every variant is tried unless the result is an error. *)
Theorem search_icr_tries_each_variant_once (name : string) (w : world) :
  (posts (search_icr name w).2).*2
    = (posts w).*2 ++ queries_tried (search_icr name w).1 /\
  queries_tried (search_icr name w).1 `prefix_of` query_variants name /\
  head (queries_tried (search_icr name w).1) = Some name /\
  NoDup (queries_tried (search_icr name w).1) /\
  (res_status (search_icr name w).1 <> error ->
   queries_tried (search_icr name w).1 = query_variants name).
Proof.
  unfold search_icr.
  destruct (query_loop_tried name [] [] (query_variants name) w)
    as (k & Ht & Hp & Hall & Herr).
  destruct (query_variants_shape name) as [Hnd Hhead].
  cbn [app] in Ht. rewrite Ht, Hp.
  assert (head (take k (query_variants name)) = Some name) as Hh.
  { destruct (res_status (query_loop name [] [] (query_variants name) w).1);
      try (rewrite Hall; [exact Hhead|discriminate]).
    destruct (Herr eq_refl) as [v Hv].
    destruct k; [rewrite take_0 in Hv; discriminate Hv|].
    destruct (query_variants name); [discriminate Hhead|exact Hhead]. }
  split; [reflexivity|]. split; [|split; [exact Hh|split]].
  - exists (drop k (query_variants name)). now rewrite take_drop.
  - apply (sublist_NoDup _ (query_variants name)); [exact Hnd|].
    apply sublist_take.
  - exact Hall.
Qed.
End IcrVariantFacts.

(** ** icr_match_audit.py: the ranking *)

Lemma SFleb_total (x y : spec_float) :
  SFleb x x = true -> SFleb y y = true ->
  SFltb x y = false -> SFleb y x = true.
Proof.
  unfold SFleb, SFltb.
  destruct x as [sx|sx| |sx mx ex], y as [sy|sy| |sy my ey]; simpl;
    try discriminate; try reflexivity;
    try (destruct sx, sy; simpl; congruence);
    try (destruct sx; simpl; congruence); try (destruct sy; simpl; congruence).
  intros _ _.
  change (Pos.compare_cont Eq mx my) with (Pos.compare mx my).
  change (Pos.compare_cont Eq my mx) with (Pos.compare my mx).
  rewrite (Z.compare_antisym ex ey), (Pos.compare_antisym mx my).
  destruct sx, sy; simpl; try congruence;
    destruct (ex ?= ey)%Z; simpl; try congruence;
    destruct (mx ?= my)%positive; simpl; congruence.
Qed.

(** On numbers, [not (a < b)] is [b <= a]. *)
Lemma leb_total (a b : float) :
  PrimFloat.leb a a = true -> PrimFloat.leb b b = true ->
  PrimFloat.ltb a b = false -> PrimFloat.leb b a = true.
Proof. rewrite !leb_spec, ltb_spec. apply SFleb_total. Qed.

Section RankingFacts.
Import IcrMatchAudit.

(** A score that is a number. *)
Definition is_number (x : float) : Prop := PrimFloat.leb x x = true.

(** The first of the elements with the largest score. *)
Definition leads (top : scored) (l : list scored) : Prop :=
  exists i, l !! i = Some top /\
    (forall y, y ∈ l -> fge (score top) (score y) = true) /\
    (forall j y, (j < i)%nat -> l !! j = Some y ->
                 fgt (score top) (score y) = true).

Lemma insert_desc_head (x : scored) (l : list scored) :
  head (insert_desc x l) =
  match head l with
  | Some y => if fgt (score y) (score x) then Some y else Some x
  | None => Some x
  end.
Proof.
  destruct l as [|y l]; [reflexivity|]. cbn [insert_desc head].
  destruct (fgt (score y) (score x)); reflexivity.
Qed.

Lemma sort_desc_leads (l : list scored) :
  Forall (fun s => is_number (score s)) l ->
  match head (sort_desc l) with
  | Some top => leads top l
  | None => l = []
  end.
Proof.
  induction 1 as [|x l Hx Hall IH]; [reflexivity|].
  cbn [sort_desc foldr]. fold (sort_desc l). rewrite insert_desc_head.
  destruct (head (sort_desc l)) as [y|].
  - destruct IH as (i & Hi & Hmax & Hfirst).
    assert (is_number (score y)) as Hy.
    { rewrite Forall_forall in Hall. apply Hall.
      now apply list_elem_of_lookup_2 in Hi. }
    destruct (fgt (score y) (score x)) eqn:Hgt.
    + exists (S i). repeat split; [exact Hi| |].
      * intros z Hz. apply elem_of_cons in Hz as [->|Hz]; [|now apply Hmax].
        unfold fgt, fge in *.
        destruct (PrimFloat.leb (score x) (score y)) eqn:Hle; [reflexivity|].
        rewrite ltb_spec in Hgt. rewrite leb_spec in Hle.
        unfold SFltb, SFleb in *.
        destruct (SFcompare (Prim2SF (score x)) (Prim2SF (score y)))
          as [[]|]; discriminate.
      * intros [|j] z Hj Hz; [now injection Hz as <-|].
        apply (Hfirst j z); [lia|exact Hz].
    + exists 0%nat. repeat split; [|intros j z Hj; lia].
      intros z Hz. apply elem_of_cons in Hz as [->|Hz]; [exact Hx|].
      unfold fge, fgt in *. apply (leb_trans _ (score y)).
      * now apply Hmax.
      * now apply leb_total.
  - subst l. exists 0%nat. repeat split; [|intros j z Hj; lia].
    intros z Hz. apply list_elem_of_singleton in Hz as ->. exact Hx.
Qed.

Variable fuzzy_score : string -> string -> float.
Variable round4 : float -> float.

(** When every score is a number and the API gave a candidate, the
    confidence [search_icr] reports is the largest score, and the best match,
    where one is reported, is the first candidate, in the order of the
    answers, that reaches it. *)
Theorem match_reports_top_score (name plain : string) (tried : list string)
    (all_candidates : list candidate) :
  all_candidates <> [] ->
  Forall (fun c => is_number
                     (score (score_candidate fuzzy_score round4 name plain c)))
         all_candidates ->
  exists top,
    leads top (score_candidate fuzzy_score round4 name plain
                 <$> all_candidates) /\
    confidence (match_candidates fuzzy_score round4 name plain tried
                  all_candidates) = score top /\
    (forall b,
       best_match (match_candidates fuzzy_score round4 name plain tried
                     all_candidates) = Some b -> b = cand top) /\
    (has_best (res_status (match_candidates fuzzy_score round4 name plain
                             tried all_candidates)) = true ->
     best_match (match_candidates fuzzy_score round4 name plain tried
                   all_candidates) = Some (cand top)).
Proof.
  intros Hne Hall. unfold match_candidates.
  destruct all_candidates as [|c0 cs] eqn:Hcs; [contradiction|].
  rewrite <- Hcs in *. clear Hcs.
  set (l := map (score_candidate fuzzy_score round4 name plain)
                all_candidates).
  assert (Forall (fun s => is_number (score s)) l) as Hl.
  { subst l. apply Forall_fmap. exact Hall. }
  pose proof (sort_desc_leads l Hl) as Hlead.
  destruct (sort_desc l) as [|top rest] eqn:Hsort.
  - cbn in Hlead. subst l. destruct all_candidates; [contradiction|discriminate].
  - cbn in Hlead. exists top. split; [exact Hlead|]. cbn.
    destruct (has_best (classify (top :: rest) top)); repeat split;
      congruence.
Qed.
End RankingFacts.

(** ** icr_match_audit.py: the final report *)

Section OrderedResults.
Import IcrMatchAudit.
Variable search_icr : string -> result.

Lemma completed_fold_value names c n :
  n ∈ names ->
  foldl (completed_step search_icr) c names !! n
  = Some (default (search_icr n) (c !! n)).
Proof.
  revert c. induction names as [|m names IH]; intros c Hn; [inversion Hn|].
  cbn [foldl]. destruct (decide (m = n)) as [->|Hne].
  - apply completed_fold_keeps. unfold completed_step.
    destruct (c !! n) as [v|] eqn:Hc; cbn.
    + exact Hc.
    + now rewrite lookup_insert_eq.
  - apply elem_of_cons in Hn as [->|Hn]; [contradiction|].
    rewrite (IH _ Hn). do 2 f_equal. unfold completed_step.
    destruct (c !! m); [reflexivity|]. now rewrite lookup_insert_ne.
Qed.

Lemma omap_total {A B} (f : A -> option B) (g : A -> B) (l : list A) :
  (forall x, x ∈ l -> f x = Some (g x)) -> omap f l = g <$> l.
Proof.
  induction l as [|x l IH]; intros Hf; [reflexivity|].
  cbn. rewrite (Hf x) by left. cbn. f_equal. apply IH.
  intros y Hy. apply Hf. now right.
Qed.

(** After [main], the ordered results hold one result for each name of the
    list, in the order of the list, also where a name comes twice: the
    result the progress file had for the name when it had one, and else the
    result of the probe. *)
Theorem ordered_results_one_per_name (names : list string)
    (file : option (gmap string result)) :
  ordered_results names (main search_icr names file)
  = (fun n => default (search_icr n) (load_progress file !! n)) <$> names.
Proof.
  unfold ordered_results. apply omap_total. intros n Hn.
  unfold main. cbn [completed]. rewrite completed_loop.
  now apply completed_fold_value.
Qed.
End OrderedResults.

(** ** image_enrich_strict.py: the ACCS match is exact *)

Section AccsExact.
Import ImageEnrich.
Context `{Env}.

Lemma try_accs_names_found (names : list string) (w : world) (url : string) :
  (try_accs_names names w).1 = (Some url, Some "accs") ->
  exists try_name t imgs src alt,
    try_name ∈ names /\
    (accs_search try_name t).1 = Ok imgs /\
    (src, alt) ∈ imgs /\
    strip (lower alt) = strip (lower try_name) /\
    url = ACCS_BASE_IMG +:+ escape_spaces src.
Proof.
  revert w. induction names as [|n names IH]; intros w Hfound;
    [discriminate Hfound|].
  cbn [try_accs_names] in Hfound.
  destruct (accs_search n (now w)) as [r d] eqn:Hr.
  assert (forall w', (try_accs_names names w').1 = (Some url, Some "accs") ->
            exists try_name t imgs src alt,
              try_name ∈ n :: names /\
              (accs_search try_name t).1 = Ok imgs /\
              (src, alt) ∈ imgs /\
              strip (lower alt) = strip (lower try_name) /\
              url = ACCS_BASE_IMG +:+ escape_spaces src) as Hrest.
  { intros w' Hw'.
    destruct (IH w' Hw') as (tn & t & imgs & src & alt & Hin & Hrest).
    exists tn, t, imgs, src, alt. split; [now right|exact Hrest]. }
  destruct r as [[|i imgs]|e]; try now apply Hrest in Hfound.
  destruct (find _ (i :: imgs)) as [[src alt]|] eqn:Hfind;
    [|discriminate Hfound].
  apply find_some in Hfind as [Hin Heq]. cbn in Heq, Hfound.
  apply String.eqb_eq in Heq. injection Hfound as <-.
  exists n, (now w), (i :: imgs), src, alt. repeat split.
  - left.
  - now rewrite Hr.
  - now apply list_elem_of_In.
  - exact Heq.
Qed.

(** An image that [try_accs_search] accepts is one the search listed with an
    alt text equal to the name of the entry, up to case and to blanks at
    either end. *)
Theorem accs_match_is_exact (name : string) (w : world) (url : string) :
  (try_accs_search name w).1 = (Some url, Some "accs") ->
  exists try_name t imgs src alt,
    (try_name = normalize_name name \/ try_name = name) /\
    (accs_search try_name t).1 = Ok imgs /\
    (src, alt) ∈ imgs /\
    strip (lower alt) = strip (lower name) /\
    url = ACCS_BASE_IMG +:+ escape_spaces src.
Proof.
  intros Hfound. unfold try_accs_search in Hfound.
  destruct (try_accs_names_found _ w url Hfound)
    as (tn & t & imgs & src & alt & Hin & Hs & Himg & Halt & Hurl).
  assert (tn = normalize_name name \/ tn = name) as Htn.
  { unfold fromkeys2 in Hin. destruct (decide _) in Hin.
    - apply list_elem_of_singleton in Hin. now left.
    - apply elem_of_cons in Hin as [->|Hin]; [now left|].
      apply list_elem_of_singleton in Hin. now right. }
  exists tn, t, imgs, src, alt. repeat split; try assumption.
  rewrite Halt. destruct Htn as [->| ->]; [|reflexivity].
  now rewrite lower_normalize_name.
Qed.
End AccsExact.

(** ** Runs on small inputs *)

(** A fresh run of the enrichment over five URLs, without a limit. *)
Lemma enrich_summary_adds_up_witness :
  exists s,
    EnrichSummary.summarize five_urls
      (EnrichIcr.main (H := demo_env) (EnrichIcr.Args 8000 30 0 false)
         five_urls
         (EnrichIcr.boot (H := demo_env) 1000
            [EnrichIcr.NoFile; EnrichIcr.NoFile] None)) = Ok s /\
    EnrichSummary.found_urls_with_chinese_names s
      + EnrichSummary.missing_urls s + EnrichSummary.failed_urls s
      = EnrichSummary.processed_unique_icr_urls s /\
    (NoDup five_urls ->
     EnrichSummary.processed_unique_icr_urls s
     = EnrichSummary.summary_next_index s) /\
    (EnrichIcr.max_urls (EnrichIcr.Args 8000 30 0 false) <= 0 ->
     EnrichSummary.summary_next_index s
     = EnrichSummary.total_unique_icr_urls s).
Proof.
  exact (enrich_summary_adds_up (H := demo_env)
           (EnrichIcr.Args 8000 30 0 false) five_urls 1000 EnrichIcr.NoFile
           [EnrichIcr.NoFile] None eq_refl).
Defined.

(** Two candidates; the score is 1 for the name itself and 0.5 for any other
    name, and is not rounded. *)
Definition same_or_half (a b : string) : float :=
  if String.eqb a b then 1%float else 0.5%float.

Definition alba_rubra : list IcrMatchAudit.candidate :=
  [IcrMatchAudit.Candidate "Alba" "Alba" "" "";
   IcrMatchAudit.Candidate "Rubra" "Rubra" "" ""].

Lemma match_reports_top_score_witness :
  exists top,
    leads top (IcrMatchAudit.score_candidate same_or_half (fun x => x)
                 "Rubra" "Rubra" <$> alba_rubra) /\
    IcrMatchAudit.confidence
      (IcrMatchAudit.match_candidates same_or_half (fun x => x)
         "Rubra" "Rubra" ["Rubra"] alba_rubra)
    = IcrMatchAudit.score top /\
    (forall b,
       IcrMatchAudit.best_match
         (IcrMatchAudit.match_candidates same_or_half (fun x => x)
            "Rubra" "Rubra" ["Rubra"] alba_rubra) = Some b ->
       b = IcrMatchAudit.cand top) /\
    (IcrMatchAudit.has_best
       (IcrMatchAudit.res_status
          (IcrMatchAudit.match_candidates same_or_half (fun x => x)
             "Rubra" "Rubra" ["Rubra"] alba_rubra)) = true ->
     IcrMatchAudit.best_match
       (IcrMatchAudit.match_candidates same_or_half (fun x => x)
          "Rubra" "Rubra" ["Rubra"] alba_rubra)
     = Some (IcrMatchAudit.cand top)).
Proof.
  apply (match_reports_top_score same_or_half (fun x => x) "Rubra" "Rubra"
           ["Rubra"] alba_rubra).
  - discriminate.
  - repeat constructor.
Defined.

(** The ACCS search lists one image whose alt text is the name in capitals,
    with blanks around it. *)
Definition exact_env : ImageEnrich.Env :=
  {| ImageEnrich.socal_cache_file := [];
     ImageEnrich.icr_cache_file := [];
     ImageEnrich.acs_index_file := [];
     ImageEnrich.quote := fun s => s;
     ImageEnrich.socal_head := fun _ _ =>
       (Raise (Exn Transport "HTTP Error 404: Not Found"), 200%N);
     ImageEnrich.accs_search := fun _ _ =>
       (Ok [("images/Rose 1.jpg", " ROSE ")], 400%N);
     ImageEnrich.acs_page := fun _ _ => (Ok None, 500%N);
     ImageEnrich.icr_api := fun _ _ =>
       (Ok (ImageEnrich.IcrResponse 200 (Ok [])), 300%N) |}.

Lemma accs_match_is_exact_witness :
  exists try_name t imgs src alt,
    (try_name = ImageEnrich.normalize_name "Rose" \/ try_name = "Rose") /\
    (ImageEnrich.accs_search (Env := exact_env) try_name t).1 = Ok imgs /\
    (src, alt) ∈ imgs /\
    ImageEnrich.strip (ImageEnrich.lower alt)
      = ImageEnrich.strip (ImageEnrich.lower "Rose") /\
    ImageEnrich.ACCS_BASE_IMG +:+ "images/Rose%201.jpg"
      = ImageEnrich.ACCS_BASE_IMG +:+ ImageEnrich.escape_spaces src.
Proof.
  apply (accs_match_is_exact (H := exact_env) "Rose" morning
           (ImageEnrich.ACCS_BASE_IMG +:+ "images/Rose%201.jpg")).
  reflexivity.
Defined.
